(** * Bluetooth host: BR/EDR discovery manager and L2CAP channel

    A shallow embedding of
      src/connectivity/bluetooth/core/bt-host/gap/bredr_discovery_manager.cc
      src/connectivity/bluetooth/core/bt-host/l2cap/channel.cc
    and the properties of the discovery and channel state machines.

    Conventions.
    - Every C++ member function becomes a function on the object's state.
    - A lambda handed to the command channel becomes a constructor of
      [Continuation] holding its captures; delivering an event to it is the
      function [deliver].
    - Client callbacks are opaque: calling one is recorded in a log.
    - [bt_log] lines have no effect on the state and are left out. *)

From Stdlib Require Import ZArith Lia.
From stdpp Require Import base decidable option list gmap sets.

#[global] Set Warnings "-clear-no-such-hyp".

(** ** HCI vocabulary (hci/hci.h, hci/hci_constants.h) *)

Module Hci.

Inductive EventCode :=
| kInquiryCompleteEventCode
| kInquiryResultEventCode
| kRemoteNameRequestCompleteEventCode
| kCommandCompleteEventCode
| kCommandStatusEventCode
| kInquiryResultWithRSSIEventCode
| kExtendedInquiryResultEventCode.

#[global] Instance EventCode_eq_dec : EqDecision EventCode.
Proof. solve_decision. Defined.

Inductive OpCode :=
| kInquiry
| kInquiryCancel
| kRemoteNameRequest
| kWriteLocalName
| kReadScanEnable
| kWriteScanEnable
| kWriteInquiryMode
| kWriteInquiryScanActivity
| kWriteInquiryScanType
| kWriteExtendedInquiryResponse.

#[global] Instance OpCode_eq_dec : EqDecision OpCode.
Proof. solve_decision. Defined.

Inductive InquiryMode := kStandard | kRSSI | kExtended.

#[global] Instance InquiryMode_eq_dec : EqDecision InquiryMode.
Proof. solve_decision. Defined.

(** [hci::Status]: success, or an error carrying its code.  The conversion
    to [bool] used by the sources ([status ? a : b]) is [is_success]. *)
Inductive Status := Success | Failure (code : Z).

#[global] Instance Status_eq_dec : EqDecision Status.
Proof. solve_decision. Defined.

Definition is_success (s : Status) : bool :=
  match s with Success => true | Failure _ => false end.

(** One entry of an Inquiry Result / Inquiry Result with RSSI event. *)
Record InquiryResult := {
  bd_addr : Z;
  page_scan_repetition_mode : Z;
  clock_offset : Z
}.

Inductive EventParams :=
| NoParams
| InquiryResultEventParams (responses : list InquiryResult)
| ExtendedInquiryResultEventParams (result : InquiryResult) (eir : list Z)
| ReadScanEnableReturnParams (scan_enable : Z)
| RemoteNameRequestCompleteEventParams (remote_name : list Z).

Record EventPacket := {
  event_code : EventCode;
  ToStatus : Status;
  payload_size : Z;
  params : EventParams
}.

(** [hci_is_error(event, ...)] and [bt_is_error(status, ...)] log and
    report whether the status is an error. *)
Definition bt_is_error (s : Status) : bool := negb (is_success s).
Definition hci_is_error (ev : EventPacket) : bool := bt_is_error (ToStatus ev).

(** Command packets, by opcode, with the payload fields the manager fills. *)
Inductive CommandPacket :=
| Inquiry (lap inquiry_length num_responses : Z)
| InquiryCancel
| RemoteNameRequest (bd_addr page_scan_repetition_mode clock_offset : Z)
| WriteLocalName (local_name : list Z)
| ReadScanEnable
| WriteScanEnable (scan_enable : Z)
| WriteInquiryMode (inquiry_mode : InquiryMode)
| WriteInquiryScanActivity (inquiry_scan_interval inquiry_scan_window : Z)
| WriteInquiryScanType (interlaced : bool)
| WriteExtendedInquiryResponse (fec_required : Z) (extended_inquiry_response : list Z).

Definition opcode (p : CommandPacket) : OpCode :=
  match p with
  | Inquiry _ _ _ => kInquiry
  | InquiryCancel => kInquiryCancel
  | RemoteNameRequest _ _ _ => kRemoteNameRequest
  | WriteLocalName _ => kWriteLocalName
  | ReadScanEnable => kReadScanEnable
  | WriteScanEnable _ => kWriteScanEnable
  | WriteInquiryMode _ => kWriteInquiryMode
  | WriteInquiryScanActivity _ _ => kWriteInquiryScanActivity
  | WriteInquiryScanType _ => kWriteInquiryScanType
  | WriteExtendedInquiryResponse _ _ => kWriteExtendedInquiryResponse
  end.

(** The numeric constants and structure sizes the manager reads.  Their
    header is not among the sources at hand, so the development takes them
    as a parameter; [core_spec] below carries the values of the Bluetooth
    Core Specification and is used to run the model on concrete inputs. *)
Record Constants := {
  kGIAC : Z;
  kInquiryLengthDefault : Z;
  kInquiryScanInterval : Z;
  kInquiryScanWindow : Z;
  kMaxNameLength : nat;
  kExtendedInquiryResponseBytes : nat;
  kExtendedInquiryResponseMaxNameBytes : nat;
  kScanEnableInquiry : Z;
  kShortenedLocalName : Z;
  kCompleteLocalName : Z;
  sizeof_InquiryResultEventParams : Z;
  sizeof_InquiryResult : Z;
  sizeof_InquiryResultWithRSSIEventParams : Z;
  sizeof_InquiryResultRSSI : Z;
  sizeof_ExtendedInquiryResultEventParams : Z
}.

Definition core_spec : Constants := {|
  kGIAC := 0x9E8B33;
  kInquiryLengthDefault := 0x08;
  kInquiryScanInterval := 0x01E0;
  kInquiryScanWindow := 0x0012;
  kMaxNameLength := 248;
  kExtendedInquiryResponseBytes := 240;
  kExtendedInquiryResponseMaxNameBytes := 238;
  kScanEnableInquiry := 0x01;
  kShortenedLocalName := 0x08;
  kCompleteLocalName := 0x09;
  sizeof_InquiryResultEventParams := 1;
  sizeof_InquiryResult := 14;
  sizeof_InquiryResultWithRSSIEventParams := 1;
  sizeof_InquiryResultRSSI := 14;
  sizeof_ExtendedInquiryResultEventParams := 255
|}.

End Hci.

(** ** gap/bredr_discovery_manager.cc: state *)

Module Gap.

Definition PeerId := nat.
Definition CallbackId := nat.

(** A session object, as the sets of the manager know it.  Sessions are told
    apart by the serial number of their allocation, so a number is never
    handed out twice; the sessions at the addresses of their objects, which
    [new] may hand out again, follow the constructor below. *)
Definition SessionId := nat.

Inductive AddressType := kBREDR | kLEPublic | kLERandom | kLEAnonymous.

#[global] Instance AddressType_eq_dec : EqDecision AddressType.
Proof. solve_decision. Defined.

Record DeviceAddress := {
  addr_type : AddressType;
  addr_value : Z
}.

#[global] Instance DeviceAddress_eq_dec : EqDecision DeviceAddress.
Proof. solve_decision. Defined.

Record BrEdrData := {
  page_scan_repetition_mode : option Z;
  clock_offset : option Z
}.

Record Peer := {
  identifier : PeerId;
  address : DeviceAddress;
  name : option (list Z);
  bredr : option BrEdrData
}.

(** Modelled from the spec: the peer directory (gap/peer_cache.cc and
    gap/peer.cc are not among the sources at hand).  The spec gives its
    interface as [FindByAddress(addr)], [FindById(id)] and
    [NewPeer(addr, connectable) -> Peer*], with mutators on [Peer] for the
    inquiry data and the name.  Records are kept in creation order; a
    [Peer*] of the sources is the record's identifier here. *)
Record PeerCache := {
  peers : list Peer;
  next_peer_id : PeerId
}.

(** Modelled from the spec: lookup of a peer record by address. *)
Definition FindByAddress (c : PeerCache) (a : DeviceAddress) : option Peer :=
  List.find (fun p => bool_decide (address p = a)) (peers c).

(** Modelled from the spec: lookup of a peer record by identifier. *)
Definition FindById (c : PeerCache) (id : PeerId) : option Peer :=
  List.find (fun p => bool_decide (identifier p = id)) (peers c).

(** Modelled from the spec: insertion of a new record, which starts without a
    name and without BR/EDR data and gets an identifier not used before. *)
Definition NewPeer (c : PeerCache) (a : DeviceAddress) (connectable : bool)
  : Peer * PeerCache :=
  let p := {| identifier := next_peer_id c; address := a;
              name := None; bredr := None |} in
  (p, {| peers := peers c ++ [p]; next_peer_id := S (next_peer_id c) |}).

(** Modelled from the spec: a mutation made through a [Peer*]. *)
Definition update_peer (id : PeerId) (f : Peer -> Peer) (c : PeerCache) : PeerCache :=
  {| peers := (fun p => if bool_decide (identifier p = id) then f p else p) <$> peers c;
     next_peer_id := next_peer_id c |}.

(** Modelled from the spec: [peer->MutBrEdr().SetInquiryData(response)] for an
    Inquiry Result (with or without RSSI), which carries no name. *)
Definition SetInquiryData (r : Hci.InquiryResult) (p : Peer) : Peer :=
  {| identifier := identifier p; address := address p; name := name p;
     bredr := Some {| page_scan_repetition_mode := Some (Hci.page_scan_repetition_mode r);
                      clock_offset := Some (Hci.clock_offset r) |} |}.

(** Modelled from the spec: [peer->SetName(name)]. *)
Definition SetName (n : list Z) (p : Peer) : Peer :=
  {| identifier := identifier p; address := address p; name := Some n;
     bredr := bredr p |}.

(** The lambdas of the manager that are handed to the command channel, each
    with its captures. *)
Inductive Continuation :=
| OnWriteInquiryMode (mode : Hci.InquiryMode)
| OnInquiry
| OnInquiryCancel
| OnWriteInquiryScanActivity
| OnWriteInquiryScanType
| OnWriteExtendedInquiryResponse (name : list Z) (cb : CallbackId)
| OnWriteLocalName (name : list Z) (cb : CallbackId)
| OnRemoteNameRequest (id : PeerId)
| OnReadScanEnable
| OnWriteScanEnable.

(** One call of [SendCommand] or [SendExclusiveCommand]: the packet, the
    callback, for an exclusive command its completion event and the opcodes
    it excludes, and whether the channel took it (returned a non-zero id). *)
Record Sent := {
  packet : Hci.CommandPacket;
  callback : Continuation;
  exclusive : option (Hci.EventCode * list Hci.OpCode);
  taken : bool
}.

(** What the manager calls on its clients. *)
Inductive Call :=
| DiscoveryCallback (cb : CallbackId) (status : Hci.Status) (session : option SessionId)
| DiscoverableCallback (cb : CallbackId) (status : Hci.Status) (session : option SessionId)
| StatusCallback (cb : CallbackId) (status : Hci.Status)
| NotifyError (session : SessionId)
| NotifyDiscoveryResult (session : SessionId) (peer : PeerId).

#[global] Instance Call_eq_dec : EqDecision Call.
Proof. solve_decision. Defined.

(** The environment the manager is built against, none of it among the
    sources at hand: the constants of the HCI headers, the command channel's
    decision to take a packet given the packets handed to it so far
    (hci/command_channel.cc), and the name, if any, that the peer record
    reads out of extended inquiry response data (gap/peer.cc). *)
Class Controller := {
  K : Hci.Constants;
  cmd_accepted : list Hci.CommandPacket -> Hci.CommandPacket -> bool;
  eir_name : list Z -> option (list Z)
}.

Record BrEdrDiscoveryManager := {
  cache_ : PeerCache;
  desired_inquiry_mode_ : Hci.InquiryMode;
  current_inquiry_mode_ : Hci.InquiryMode;
  discovering_ : gset SessionId;
  zombie_discovering_ : gset SessionId;
  pending_discovery_ : list CallbackId;
  discoverable_ : gset SessionId;
  pending_discoverable_ : list CallbackId;
  requesting_names_ : gset PeerId;
  local_name_ : list Z;
  (** the command channel: every packet handed over, oldest first *)
  hci_ : list Sent;
  (** the client callbacks invoked so far, oldest first *)
  calls_ : list Call;
  (** the serial number of the next session object *)
  next_session_ : SessionId
}.

(** Assignments to one member, the others unchanged. *)
Definition set_cache_ (v : PeerCache) (m : BrEdrDiscoveryManager) : BrEdrDiscoveryManager :=
  {| cache_ := v; desired_inquiry_mode_ := desired_inquiry_mode_ m;
     current_inquiry_mode_ := current_inquiry_mode_ m; discovering_ := discovering_ m;
     zombie_discovering_ := zombie_discovering_ m;
     pending_discovery_ := pending_discovery_ m; discoverable_ := discoverable_ m;
     pending_discoverable_ := pending_discoverable_ m;
     requesting_names_ := requesting_names_ m; local_name_ := local_name_ m;
     hci_ := hci_ m; calls_ := calls_ m; next_session_ := next_session_ m |}.
Definition set_current_inquiry_mode_ (v : Hci.InquiryMode) (m : BrEdrDiscoveryManager) : BrEdrDiscoveryManager :=
  {| cache_ := cache_ m; desired_inquiry_mode_ := desired_inquiry_mode_ m;
     current_inquiry_mode_ := v; discovering_ := discovering_ m;
     zombie_discovering_ := zombie_discovering_ m;
     pending_discovery_ := pending_discovery_ m; discoverable_ := discoverable_ m;
     pending_discoverable_ := pending_discoverable_ m;
     requesting_names_ := requesting_names_ m; local_name_ := local_name_ m;
     hci_ := hci_ m; calls_ := calls_ m; next_session_ := next_session_ m |}.
Definition set_discovering_ (v : gset SessionId) (m : BrEdrDiscoveryManager) : BrEdrDiscoveryManager :=
  {| cache_ := cache_ m; desired_inquiry_mode_ := desired_inquiry_mode_ m;
     current_inquiry_mode_ := current_inquiry_mode_ m; discovering_ := v;
     zombie_discovering_ := zombie_discovering_ m;
     pending_discovery_ := pending_discovery_ m; discoverable_ := discoverable_ m;
     pending_discoverable_ := pending_discoverable_ m;
     requesting_names_ := requesting_names_ m; local_name_ := local_name_ m;
     hci_ := hci_ m; calls_ := calls_ m; next_session_ := next_session_ m |}.
Definition set_zombie_discovering_ (v : gset SessionId) (m : BrEdrDiscoveryManager) : BrEdrDiscoveryManager :=
  {| cache_ := cache_ m; desired_inquiry_mode_ := desired_inquiry_mode_ m;
     current_inquiry_mode_ := current_inquiry_mode_ m; discovering_ := discovering_ m;
     zombie_discovering_ := v; pending_discovery_ := pending_discovery_ m;
     discoverable_ := discoverable_ m;
     pending_discoverable_ := pending_discoverable_ m;
     requesting_names_ := requesting_names_ m; local_name_ := local_name_ m;
     hci_ := hci_ m; calls_ := calls_ m; next_session_ := next_session_ m |}.
Definition set_pending_discovery_ (v : list CallbackId) (m : BrEdrDiscoveryManager) : BrEdrDiscoveryManager :=
  {| cache_ := cache_ m; desired_inquiry_mode_ := desired_inquiry_mode_ m;
     current_inquiry_mode_ := current_inquiry_mode_ m; discovering_ := discovering_ m;
     zombie_discovering_ := zombie_discovering_ m; pending_discovery_ := v;
     discoverable_ := discoverable_ m;
     pending_discoverable_ := pending_discoverable_ m;
     requesting_names_ := requesting_names_ m; local_name_ := local_name_ m;
     hci_ := hci_ m; calls_ := calls_ m; next_session_ := next_session_ m |}.
Definition set_discoverable_ (v : gset SessionId) (m : BrEdrDiscoveryManager) : BrEdrDiscoveryManager :=
  {| cache_ := cache_ m; desired_inquiry_mode_ := desired_inquiry_mode_ m;
     current_inquiry_mode_ := current_inquiry_mode_ m; discovering_ := discovering_ m;
     zombie_discovering_ := zombie_discovering_ m;
     pending_discovery_ := pending_discovery_ m; discoverable_ := v;
     pending_discoverable_ := pending_discoverable_ m;
     requesting_names_ := requesting_names_ m; local_name_ := local_name_ m;
     hci_ := hci_ m; calls_ := calls_ m; next_session_ := next_session_ m |}.
Definition set_pending_discoverable_ (v : list CallbackId) (m : BrEdrDiscoveryManager) : BrEdrDiscoveryManager :=
  {| cache_ := cache_ m; desired_inquiry_mode_ := desired_inquiry_mode_ m;
     current_inquiry_mode_ := current_inquiry_mode_ m; discovering_ := discovering_ m;
     zombie_discovering_ := zombie_discovering_ m;
     pending_discovery_ := pending_discovery_ m; discoverable_ := discoverable_ m;
     pending_discoverable_ := v; requesting_names_ := requesting_names_ m;
     local_name_ := local_name_ m; hci_ := hci_ m; calls_ := calls_ m;
     next_session_ := next_session_ m |}.
Definition set_requesting_names_ (v : gset PeerId) (m : BrEdrDiscoveryManager) : BrEdrDiscoveryManager :=
  {| cache_ := cache_ m; desired_inquiry_mode_ := desired_inquiry_mode_ m;
     current_inquiry_mode_ := current_inquiry_mode_ m; discovering_ := discovering_ m;
     zombie_discovering_ := zombie_discovering_ m;
     pending_discovery_ := pending_discovery_ m; discoverable_ := discoverable_ m;
     pending_discoverable_ := pending_discoverable_ m; requesting_names_ := v;
     local_name_ := local_name_ m; hci_ := hci_ m; calls_ := calls_ m;
     next_session_ := next_session_ m |}.
Definition set_local_name_ (v : list Z) (m : BrEdrDiscoveryManager) : BrEdrDiscoveryManager :=
  {| cache_ := cache_ m; desired_inquiry_mode_ := desired_inquiry_mode_ m;
     current_inquiry_mode_ := current_inquiry_mode_ m; discovering_ := discovering_ m;
     zombie_discovering_ := zombie_discovering_ m;
     pending_discovery_ := pending_discovery_ m; discoverable_ := discoverable_ m;
     pending_discoverable_ := pending_discoverable_ m;
     requesting_names_ := requesting_names_ m; local_name_ := v; hci_ := hci_ m;
     calls_ := calls_ m; next_session_ := next_session_ m |}.
Definition set_hci_ (v : list Sent) (m : BrEdrDiscoveryManager) : BrEdrDiscoveryManager :=
  {| cache_ := cache_ m; desired_inquiry_mode_ := desired_inquiry_mode_ m;
     current_inquiry_mode_ := current_inquiry_mode_ m; discovering_ := discovering_ m;
     zombie_discovering_ := zombie_discovering_ m;
     pending_discovery_ := pending_discovery_ m; discoverable_ := discoverable_ m;
     pending_discoverable_ := pending_discoverable_ m;
     requesting_names_ := requesting_names_ m; local_name_ := local_name_ m; hci_ := v;
     calls_ := calls_ m; next_session_ := next_session_ m |}.
Definition set_calls_ (v : list Call) (m : BrEdrDiscoveryManager) : BrEdrDiscoveryManager :=
  {| cache_ := cache_ m; desired_inquiry_mode_ := desired_inquiry_mode_ m;
     current_inquiry_mode_ := current_inquiry_mode_ m; discovering_ := discovering_ m;
     zombie_discovering_ := zombie_discovering_ m;
     pending_discovery_ := pending_discovery_ m; discoverable_ := discoverable_ m;
     pending_discoverable_ := pending_discoverable_ m;
     requesting_names_ := requesting_names_ m; local_name_ := local_name_ m;
     hci_ := hci_ m; calls_ := v; next_session_ := next_session_ m |}.
Definition set_next_session_ (v : SessionId) (m : BrEdrDiscoveryManager) : BrEdrDiscoveryManager :=
  {| cache_ := cache_ m; desired_inquiry_mode_ := desired_inquiry_mode_ m;
     current_inquiry_mode_ := current_inquiry_mode_ m; discovering_ := discovering_ m;
     zombie_discovering_ := zombie_discovering_ m;
     pending_discovery_ := pending_discovery_ m; discoverable_ := discoverable_ m;
     pending_discoverable_ := pending_discoverable_ m;
     requesting_names_ := requesting_names_ m; local_name_ := local_name_ m;
     hci_ := hci_ m; calls_ := calls_ m; next_session_ := v |}.

(** ** gap/bredr_discovery_manager.cc: operations *)

Section Manager.
Context `{Controller}.

(** [SendCommand] and [SendExclusiveCommand] of the command channel: the call
    is recorded, and the result tells whether a non-zero id came back. *)
Definition submit (pkt : Hci.CommandPacket) (k : Continuation)
    (excl : option (Hci.EventCode * list Hci.OpCode)) (m : BrEdrDiscoveryManager)
  : bool * BrEdrDiscoveryManager :=
  let ok := cmd_accepted (packet <$> hci_ m) pkt in
  (ok, set_hci_ (hci_ m ++ [{| packet := pkt; callback := k;
                              exclusive := excl; taken := ok |}]) m).

Definition SendCommand (pkt : Hci.CommandPacket) (k : Continuation)
    (m : BrEdrDiscoveryManager) : bool * BrEdrDiscoveryManager :=
  submit pkt k None m.

Definition SendExclusiveCommand (pkt : Hci.CommandPacket) (k : Continuation)
    (complete_event_code : Hci.EventCode) (exclusions : list Hci.OpCode)
    (m : BrEdrDiscoveryManager) : bool * BrEdrDiscoveryManager :=
  submit pkt k (Some (complete_event_code, exclusions)) m.

(** A call out to a client. *)
Definition invoke (c : Call) (m : BrEdrDiscoveryManager) : BrEdrDiscoveryManager :=
  set_calls_ (calls_ m ++ [c]) m.

Definition AddDiscoverySession (m : BrEdrDiscoveryManager)
  : SessionId * BrEdrDiscoveryManager :=
  let session := next_session_ m in
  (session,
   set_discovering_ ({[session]} ∪ discovering_ m) (set_next_session_ (S session) m)).

Definition RemoveDiscoverySession (session : SessionId) (m : BrEdrDiscoveryManager)
  : BrEdrDiscoveryManager :=
  if decide (session ∈ discovering_ m)
  then set_zombie_discovering_ ({[session]} ∪ zombie_discovering_ m)
         (set_discovering_ (discovering_ m ∖ {[session]}) m)
  else m.

Definition AddDiscoverableSession (m : BrEdrDiscoveryManager)
  : SessionId * BrEdrDiscoveryManager :=
  let session := next_session_ m in
  (session,
   set_discoverable_ ({[session]} ∪ discoverable_ m) (set_next_session_ (S session) m)).

Definition InvalidateDiscoverySessions (m : BrEdrDiscoveryManager)
  : BrEdrDiscoveryManager :=
  set_discovering_ ∅
    (set_calls_ (calls_ m ++ (NotifyError <$> elements (discovering_ m))) m).

Definition MaybeStartInquiry (m : BrEdrDiscoveryManager) : BrEdrDiscoveryManager :=
  if bool_decide (pending_discovery_ m = []) && bool_decide (discovering_ m = ∅)
  then m
  else
    let m1 :=
      if bool_decide (desired_inquiry_mode_ m ≠ current_inquiry_mode_ m)
      then (SendCommand (Hci.WriteInquiryMode (desired_inquiry_mode_ m))
              (OnWriteInquiryMode (desired_inquiry_mode_ m)) m).2
      else m in
    (SendExclusiveCommand
       (Hci.Inquiry (Hci.kGIAC K) (Hci.kInquiryLengthDefault K) 0) OnInquiry
       Hci.kInquiryCompleteEventCode [Hci.kRemoteNameRequest] m1).2.

Definition StopInquiry (m : BrEdrDiscoveryManager) : BrEdrDiscoveryManager :=
  (SendCommand Hci.InquiryCancel OnInquiryCancel m).2.

Definition RequestDiscovery (callback : CallbackId) (m : BrEdrDiscoveryManager)
  : BrEdrDiscoveryManager :=
  if negb (bool_decide (pending_discovery_ m = []))
  then set_pending_discovery_ (pending_discovery_ m ++ [callback]) m
  else if negb (bool_decide (discovering_ m = ∅))
          || negb (bool_decide (zombie_discovering_ m = ∅))
  then
    let '(session, m1) := AddDiscoverySession m in
    invoke (DiscoveryCallback callback Hci.Success (Some session)) m1
  else MaybeStartInquiry (set_pending_discovery_ (pending_discovery_ m ++ [callback]) m).

(** The loop [while (!pending_discovery_.empty())] of the inquiry callback,
    over the queue [pending] as it stands on entry. *)
Fixpoint resolve_pending_discovery (status : Hci.Status) (pending : list CallbackId)
    (m : BrEdrDiscoveryManager) : BrEdrDiscoveryManager :=
  match pending with
  | [] => m
  | callback :: rest =>
      let m0 := set_pending_discovery_ rest m in
      let m1 :=
        if Hci.is_success status
        then let '(session, m') := AddDiscoverySession m0 in
             invoke (DiscoveryCallback callback status (Some session)) m'
        else invoke (DiscoveryCallback callback status None) m0 in
      resolve_pending_discovery status rest m1
  end.

(** The callback of the Inquiry command.  An event that is neither Command
    Status nor Command Complete is taken to be Inquiry Complete (the sources
    assert it). *)
Definition inquiry_callback (event : Hci.EventPacket) (m : BrEdrDiscoveryManager)
  : BrEdrDiscoveryManager :=
  let status := Hci.ToStatus event in
  let m1 := if Hci.bt_is_error status then InvalidateDiscoverySessions m else m in
  if bool_decide (Hci.event_code event = Hci.kCommandStatusEventCode)
     || bool_decide (Hci.event_code event = Hci.kCommandCompleteEventCode)
  then resolve_pending_discovery status (pending_discovery_ m1) m1
  else
    let m2 := set_zombie_discovering_ ∅ m1 in
    if Hci.bt_is_error status then m2 else MaybeStartInquiry m2.

(** The callback of the Write Inquiry Mode command. *)
Definition write_inquiry_mode_callback (mode : Hci.InquiryMode) (event : Hci.EventPacket)
    (m : BrEdrDiscoveryManager) : BrEdrDiscoveryManager :=
  if negb (Hci.hci_is_error event) then set_current_inquiry_mode_ mode m else m.

(** *** Inquiry results and remote names *)

Definition responses (event : Hci.EventPacket) : list Hci.InquiryResult :=
  match Hci.params event with
  | Hci.InquiryResultEventParams rs => rs
  | _ => []
  end.

(** The body of the [for] loop of [ProcessInquiryResult], one response after
    the other; [updated] collects the peers touched. *)
Fixpoint process_responses (rs : list Hci.InquiryResult) (updated : gset PeerId)
    (cache : PeerCache) : gset PeerId * PeerCache :=
  match rs with
  | [] => (updated, cache)
  | r :: rest =>
      let addr := {| addr_type := kBREDR; addr_value := Hci.bd_addr r |} in
      let '(peer, cache1) :=
        match FindByAddress cache addr with
        | Some peer => (peer, cache)
        | None => NewPeer cache addr true
        end in
      process_responses rest ({[identifier peer]} ∪ updated)
        (update_peer (identifier peer) (SetInquiryData r) cache1)
  end.

(** [ProcessInquiryResult<EventParamType, ResultType>]: the two template
    arguments enter through their sizes.  [result_size] is a [size_t]. *)
Definition ProcessInquiryResult (sizeof_EventParamType sizeof_ResultType : Z)
    (cache : PeerCache) (event : Hci.EventPacket) : gset PeerId * PeerCache :=
  let result_size := ((Hci.payload_size event - sizeof_EventParamType) mod 2 ^ 64)%Z in
  if negb (result_size mod sizeof_ResultType =? 0)%Z
  then (∅, cache)
  else process_responses (responses event) ∅ cache.

Definition RequestPeerName (id : PeerId) (m : BrEdrDiscoveryManager)
  : BrEdrDiscoveryManager :=
  if decide (id ∈ requesting_names_ m) then m
  else
    match FindById (cache_ m) id with
    | None => m
    | Some peer =>
        let packet :=
          Hci.RemoteNameRequest (addr_value (address peer))
            (default 0%Z (bredr peer ≫= page_scan_repetition_mode))
            (default 0%Z (bredr peer ≫= clock_offset)) in
        let '(cmd_id, m1) :=
          SendExclusiveCommand packet (OnRemoteNameRequest id)
            Hci.kRemoteNameRequestCompleteEventCode [Hci.kInquiry] m in
        if cmd_id
        then set_requesting_names_ ({[id]} ∪ requesting_names_ m1) m1
        else m1
    end.

(** The number of bytes before the first zero, at most [max]. *)
Fixpoint name_length (max : nat) (remote_name : list Z) : nat :=
  match max, remote_name with
  | S max', b :: rest => if (b =? 0)%Z then 0 else S (name_length max' rest)
  | _, _ => 0
  end.

(** The callback of the Remote Name Request command. *)
Definition remote_name_callback (id : PeerId) (event : Hci.EventPacket)
    (m : BrEdrDiscoveryManager) : BrEdrDiscoveryManager :=
  if Hci.hci_is_error event
  then set_requesting_names_ (requesting_names_ m ∖ {[id]}) m
  else if bool_decide (Hci.event_code event = Hci.kCommandStatusEventCode)
  then m
  else
    let m1 := set_requesting_names_ (requesting_names_ m ∖ {[id]}) m in
    let remote_name :=
      match Hci.params event with
      | Hci.RemoteNameRequestCompleteEventParams n => n
      | _ => []
      end in
    let len := name_length (Hci.kMaxNameLength K) remote_name in
    set_cache_ (update_peer id (SetName (take len remote_name)) (cache_ m1)) m1.

(** What [InquiryResult] and [ExtendedInquiryResult] do for one updated peer:
    ask for its name when it has none, then tell every live session. *)
Definition report_peer (m : BrEdrDiscoveryManager) (id : PeerId)
  : BrEdrDiscoveryManager :=
  let m1 :=
    match FindById (cache_ m) id with
    | Some peer => match name peer with Some _ => m | None => RequestPeerName id m end
    | None => m
    end in
  set_calls_
    (calls_ m1 ++ ((fun session => NotifyDiscoveryResult session id)
                     <$> elements (discovering_ m1))) m1.

(** The set [peers] of the sources is walked in an order the language leaves
    open; here it is the order of [elements]. *)
Definition InquiryResult (event : Hci.EventPacket) (m : BrEdrDiscoveryManager)
  : BrEdrDiscoveryManager :=
  let process sizeof_EventParamType sizeof_ResultType :=
    let '(peers, cache) :=
      ProcessInquiryResult sizeof_EventParamType sizeof_ResultType (cache_ m) event in
    foldl report_peer (set_cache_ cache m) (elements peers) in
  if bool_decide (Hci.event_code event = Hci.kInquiryResultEventCode)
  then process (Hci.sizeof_InquiryResultEventParams K) (Hci.sizeof_InquiryResult K)
  else if bool_decide (Hci.event_code event = Hci.kInquiryResultWithRSSIEventCode)
  then process (Hci.sizeof_InquiryResultWithRSSIEventParams K) (Hci.sizeof_InquiryResultRSSI K)
  else m.

(** Modelled from the spec: [SetInquiryData] for an Extended Inquiry Result,
    which may bring a name along. *)
Definition SetExtendedInquiryData (r : Hci.InquiryResult) (eir : list Z) (p : Peer) : Peer :=
  let p1 := SetInquiryData r p in
  match eir_name eir with
  | Some n => SetName n p1
  | None => p1
  end.

Definition ExtendedInquiryResult (event : Hci.EventPacket) (m : BrEdrDiscoveryManager)
  : BrEdrDiscoveryManager :=
  if negb (Hci.payload_size event =? Hci.sizeof_ExtendedInquiryResultEventParams K)%Z
  then m
  else
    match Hci.params event with
    | Hci.ExtendedInquiryResultEventParams result eir =>
        let addr := {| addr_type := kBREDR; addr_value := Hci.bd_addr result |} in
        let '(peer, cache1) :=
          match FindByAddress (cache_ m) addr with
          | Some peer => (peer, cache_ m)
          | None => NewPeer (cache_ m) addr true
          end in
        report_peer
          (set_cache_ (update_peer (identifier peer) (SetExtendedInquiryData result eir) cache1) m)
          (identifier peer)
    | _ => m
    end.

(** *** Local name and extended inquiry response *)

(** A value stored into a [uint8_t]. *)
Definition uint8 (z : Z) : Z := (z mod 256)%Z.

(** [MutableBufferView::Fill] and [Write]: [Write] copies [data] to position
    [pos] of a buffer that is long enough for it. *)
Definition Fill (size : nat) (b : Z) : list Z := replicate size b.

Definition Write (data : list Z) (pos : nat) (buf : list Z) : list Z :=
  take pos buf ++ take (length buf - pos) data ++ drop (pos + length data) buf.

Definition UpdateEIRResponseData (name : list Z) (callback : CallbackId)
    (m : BrEdrDiscoveryManager) : BrEdrDiscoveryManager :=
  let too_long := bool_decide (Hci.kExtendedInquiryResponseMaxNameBytes K ≤ length name) in
  let name_type :=
    if too_long then Hci.kShortenedLocalName K else Hci.kCompleteLocalName K in
  let name_size :=
    if too_long then Hci.kExtendedInquiryResponseMaxNameBytes K else length name in
  let buf0 := Fill (Hci.kExtendedInquiryResponseBytes K) 0%Z in
  let buf1 := <[0 := uint8 (Z.of_nat (length name) + 1)]> buf0 in
  let buf2 := <[1 := uint8 name_type]> buf1 in
  let eir_response_buf := take 2 buf2 ++ Write (take name_size name) 0 (drop 2 buf2) in
  (SendCommand (Hci.WriteExtendedInquiryResponse 0 eir_response_buf)
     (OnWriteExtendedInquiryResponse name callback) m).2.

(** The callback of the Write Extended Inquiry Response command. *)
Definition write_eir_callback (name : list Z) (cb : CallbackId) (event : Hci.EventPacket)
    (m : BrEdrDiscoveryManager) : BrEdrDiscoveryManager :=
  let m1 := if negb (Hci.hci_is_error event) then set_local_name_ name m else m in
  invoke (StatusCallback cb (Hci.ToStatus event)) m1.

Definition UpdateLocalName (name : list Z) (callback : CallbackId)
    (m : BrEdrDiscoveryManager) : BrEdrDiscoveryManager :=
  let name_size :=
    if bool_decide (Hci.kMaxNameLength K ≤ length name)
    then Hci.kMaxNameLength K else length name in
  let name_buf := Write (take name_size name) 0 (Fill (Hci.kMaxNameLength K) 0%Z) in
  (SendCommand (Hci.WriteLocalName name_buf) (OnWriteLocalName name callback) m).2.

(** The callback of the Write Local Name command. *)
Definition write_local_name_callback (name : list Z) (cb : CallbackId)
    (event : Hci.EventPacket) (m : BrEdrDiscoveryManager) : BrEdrDiscoveryManager :=
  if Hci.hci_is_error event
  then invoke (StatusCallback cb (Hci.ToStatus event)) m
  else UpdateEIRResponseData name cb m.

(** *** Discoverable mode *)

(** The lambda [status_cb] of [RequestDiscoverable], wrapped around the
    client's callback. *)
Definition status_cb (cb : CallbackId) (status : Hci.Status) (m : BrEdrDiscoveryManager)
  : BrEdrDiscoveryManager :=
  if Hci.is_success status
  then let '(session, m1) := AddDiscoverableSession m in
       invoke (DiscoverableCallback cb status (Some session)) m1
  else invoke (DiscoverableCallback cb status None) m.

(** The loop [while (!pending_discoverable_.empty())], over the queue as it
    stands on entry. *)
Fixpoint resolve_pending_discoverable (status : Hci.Status) (pending : list CallbackId)
    (m : BrEdrDiscoveryManager) : BrEdrDiscoveryManager :=
  match pending with
  | [] => m
  | cb :: rest =>
      resolve_pending_discoverable status rest
        (status_cb cb status (set_pending_discoverable_ rest m))
  end.

Definition SetInquiryScan (m : BrEdrDiscoveryManager) : BrEdrDiscoveryManager :=
  (SendCommand Hci.ReadScanEnable OnReadScanEnable m).2.

Definition RequestDiscoverable (callback : CallbackId) (m : BrEdrDiscoveryManager)
  : BrEdrDiscoveryManager :=
  if negb (bool_decide (pending_discoverable_ m = []))
  then set_pending_discoverable_ (pending_discoverable_ m ++ [callback]) m
  else if negb (bool_decide (discoverable_ m = ∅))
  then
    let '(session, m1) := AddDiscoverableSession m in
    invoke (DiscoverableCallback callback Hci.Success (Some session)) m1
  else SetInquiryScan (set_pending_discoverable_ (pending_discoverable_ m ++ [callback]) m).

Definition RemoveDiscoverableSession (session : SessionId) (m : BrEdrDiscoveryManager)
  : BrEdrDiscoveryManager :=
  let m1 := set_discoverable_ (discoverable_ m ∖ {[session]}) m in
  if bool_decide (discoverable_ m1 = ∅) then SetInquiryScan m1 else m1.

Definition scan_enable (event : Hci.EventPacket) : Z :=
  match Hci.params event with
  | Hci.ReadScanEnableReturnParams scan_enable => scan_enable
  | _ => 0%Z
  end.

(** The callback of the Read Scan Enable command ([scan_enable_cb]).  The
    deferred [resolve_pending] runs on every way out but the one that sends
    Write Scan Enable. *)
Definition scan_enable_cb (event : Hci.EventPacket) (m : BrEdrDiscoveryManager)
  : BrEdrDiscoveryManager :=
  let status := Hci.ToStatus event in
  let resolve_pending m' :=
    resolve_pending_discoverable status (pending_discoverable_ m') m' in
  if Hci.bt_is_error status then resolve_pending m
  else
    let enable :=
      negb (bool_decide (discoverable_ m = ∅))
      || negb (bool_decide (pending_discoverable_ m = [])) in
    let scan_type := scan_enable event in
    let enabled := negb (Z.land scan_type (uint8 (Hci.kScanEnableInquiry K)) =? 0)%Z in
    if Bool.eqb enable enabled then resolve_pending m
    else
      let scan_type' :=
        if enable
        then uint8 (Z.lor scan_type (uint8 (Hci.kScanEnableInquiry K)))
        else uint8 (Z.land scan_type (Z.lnot (uint8 (Hci.kScanEnableInquiry K)))) in
      (SendCommand (Hci.WriteScanEnable scan_type') OnWriteScanEnable m).2.

(** The callback of the Write Scan Enable command. *)
Definition write_scan_enable_callback (event : Hci.EventPacket) (m : BrEdrDiscoveryManager)
  : BrEdrDiscoveryManager :=
  resolve_pending_discoverable (Hci.ToStatus event) (pending_discoverable_ m) m.

(** *** The manager as a transition system *)

(** An event handed by the command channel to the callback of a command. *)
Definition deliver (k : Continuation) (event : Hci.EventPacket) (m : BrEdrDiscoveryManager)
  : BrEdrDiscoveryManager :=
  match k with
  | OnWriteInquiryMode mode => write_inquiry_mode_callback mode event m
  | OnInquiry => inquiry_callback event m
  | OnInquiryCancel => m
  | OnWriteInquiryScanActivity => m
  | OnWriteInquiryScanType => m
  | OnWriteExtendedInquiryResponse name cb => write_eir_callback name cb event m
  | OnWriteLocalName name cb => write_local_name_callback name cb event m
  | OnRemoteNameRequest id => remote_name_callback id event m
  | OnReadScanEnable => scan_enable_cb event m
  | OnWriteScanEnable => write_scan_enable_callback event m
  end.

(** Everything that can happen to a manager: a call of its interface, the end
    of a session (its destructor), or an event from the controller. *)
Inductive Op :=
| CallRequestDiscovery (callback : CallbackId)
| CallRequestDiscoverable (callback : CallbackId)
| CallUpdateLocalName (name : list Z) (callback : CallbackId)
| DropDiscoverySession (session : SessionId)
| DropDiscoverableSession (session : SessionId)
| CommandEvent (k : Continuation) (event : Hci.EventPacket)
| InquiryResultEvent (event : Hci.EventPacket)
| ExtendedInquiryResultEvent (event : Hci.EventPacket).

Definition step (m : BrEdrDiscoveryManager) (op : Op) : BrEdrDiscoveryManager :=
  match op with
  | CallRequestDiscovery cb => RequestDiscovery cb m
  | CallRequestDiscoverable cb => RequestDiscoverable cb m
  | CallUpdateLocalName name cb => UpdateLocalName name cb m
  | DropDiscoverySession s => RemoveDiscoverySession s m
  | DropDiscoverableSession s => RemoveDiscoverableSession s m
  | CommandEvent k event => deliver k event m
  | InquiryResultEvent event => InquiryResult event m
  | ExtendedInquiryResultEvent event => ExtendedInquiryResult event m
  end.

Definition run (m : BrEdrDiscoveryManager) (ops : list Op) : BrEdrDiscoveryManager :=
  foldl step m ops.

(** The number of packets with a given opcode among the calls of the command
    channel. *)
Definition count_sent (op : Hci.OpCode) (log : list Sent) : nat :=
  length (filter (fun s => Hci.opcode (packet s) = op) log).

Definition WriteInquiryScanSettings (interval window : Z) (interlaced : bool)
    (m : BrEdrDiscoveryManager) : BrEdrDiscoveryManager :=
  let m1 :=
    (SendCommand (Hci.WriteInquiryScanActivity interval window)
       OnWriteInquiryScanActivity m).2 in
  (SendCommand (Hci.WriteInquiryScanType interlaced) OnWriteInquiryScanType m1).2.

(** The constructor: a manager over a command channel that has seen no packet
    yet. *)
Definition create (mode : Hci.InquiryMode) (cache : PeerCache) : BrEdrDiscoveryManager :=
  WriteInquiryScanSettings (Hci.kInquiryScanInterval K) (Hci.kInquiryScanWindow K) true
    {| cache_ := cache; desired_inquiry_mode_ := mode;
       current_inquiry_mode_ := Hci.kStandard;
       discovering_ := ∅; zombie_discovering_ := ∅; pending_discovery_ := [];
       discoverable_ := ∅; pending_discoverable_ := [];
       requesting_names_ := ∅; local_name_ := [];
       hci_ := []; calls_ := []; next_session_ := 0 |}.

(** *** Sessions at the addresses of their objects *)

(** The sets of the manager hold pointers to the session objects, and [new]
    may give a session the address of one that was destroyed before, also
    while that address is still in [zombie_discovering_].  Here the session
    objects are numbered in the order they are made, [next_session_] counts
    them, and [alloc n] is the address of the [n]-th.  The functions that
    make a session are repeated with it; the others are the ones above. *)
Definition AddDiscoverySessionAt (alloc : nat -> SessionId) (m : BrEdrDiscoveryManager)
  : SessionId * BrEdrDiscoveryManager :=
  let session := alloc (next_session_ m) in
  (session,
   set_discovering_ ({[session]} ∪ discovering_ m)
     (set_next_session_ (S (next_session_ m)) m)).

Definition AddDiscoverableSessionAt (alloc : nat -> SessionId) (m : BrEdrDiscoveryManager)
  : SessionId * BrEdrDiscoveryManager :=
  let session := alloc (next_session_ m) in
  (session,
   set_discoverable_ ({[session]} ∪ discoverable_ m)
     (set_next_session_ (S (next_session_ m)) m)).

Definition RequestDiscoveryAt (alloc : nat -> SessionId) (callback : CallbackId)
    (m : BrEdrDiscoveryManager) : BrEdrDiscoveryManager :=
  if negb (bool_decide (pending_discovery_ m = []))
  then set_pending_discovery_ (pending_discovery_ m ++ [callback]) m
  else if negb (bool_decide (discovering_ m = ∅))
          || negb (bool_decide (zombie_discovering_ m = ∅))
  then
    let '(session, m1) := AddDiscoverySessionAt alloc m in
    invoke (DiscoveryCallback callback Hci.Success (Some session)) m1
  else MaybeStartInquiry (set_pending_discovery_ (pending_discovery_ m ++ [callback]) m).

Fixpoint resolve_pending_discovery_at (alloc : nat -> SessionId) (status : Hci.Status)
    (pending : list CallbackId) (m : BrEdrDiscoveryManager) : BrEdrDiscoveryManager :=
  match pending with
  | [] => m
  | callback :: rest =>
      let m0 := set_pending_discovery_ rest m in
      let m1 :=
        if Hci.is_success status
        then let '(session, m') := AddDiscoverySessionAt alloc m0 in
             invoke (DiscoveryCallback callback status (Some session)) m'
        else invoke (DiscoveryCallback callback status None) m0 in
      resolve_pending_discovery_at alloc status rest m1
  end.

Definition inquiry_callback_at (alloc : nat -> SessionId) (event : Hci.EventPacket)
    (m : BrEdrDiscoveryManager) : BrEdrDiscoveryManager :=
  let status := Hci.ToStatus event in
  let m1 := if Hci.bt_is_error status then InvalidateDiscoverySessions m else m in
  if bool_decide (Hci.event_code event = Hci.kCommandStatusEventCode)
     || bool_decide (Hci.event_code event = Hci.kCommandCompleteEventCode)
  then resolve_pending_discovery_at alloc status (pending_discovery_ m1) m1
  else
    let m2 := set_zombie_discovering_ ∅ m1 in
    if Hci.bt_is_error status then m2 else MaybeStartInquiry m2.

Definition status_cb_at (alloc : nat -> SessionId) (cb : CallbackId) (status : Hci.Status)
    (m : BrEdrDiscoveryManager) : BrEdrDiscoveryManager :=
  if Hci.is_success status
  then let '(session, m1) := AddDiscoverableSessionAt alloc m in
       invoke (DiscoverableCallback cb status (Some session)) m1
  else invoke (DiscoverableCallback cb status None) m.

Fixpoint resolve_pending_discoverable_at (alloc : nat -> SessionId) (status : Hci.Status)
    (pending : list CallbackId) (m : BrEdrDiscoveryManager) : BrEdrDiscoveryManager :=
  match pending with
  | [] => m
  | cb :: rest =>
      resolve_pending_discoverable_at alloc status rest
        (status_cb_at alloc cb status (set_pending_discoverable_ rest m))
  end.

Definition RequestDiscoverableAt (alloc : nat -> SessionId) (callback : CallbackId)
    (m : BrEdrDiscoveryManager) : BrEdrDiscoveryManager :=
  if negb (bool_decide (pending_discoverable_ m = []))
  then set_pending_discoverable_ (pending_discoverable_ m ++ [callback]) m
  else if negb (bool_decide (discoverable_ m = ∅))
  then
    let '(session, m1) := AddDiscoverableSessionAt alloc m in
    invoke (DiscoverableCallback callback Hci.Success (Some session)) m1
  else SetInquiryScan (set_pending_discoverable_ (pending_discoverable_ m ++ [callback]) m).

Definition scan_enable_cb_at (alloc : nat -> SessionId) (event : Hci.EventPacket)
    (m : BrEdrDiscoveryManager) : BrEdrDiscoveryManager :=
  let status := Hci.ToStatus event in
  let resolve_pending m' :=
    resolve_pending_discoverable_at alloc status (pending_discoverable_ m') m' in
  if Hci.bt_is_error status then resolve_pending m
  else
    let enable :=
      negb (bool_decide (discoverable_ m = ∅))
      || negb (bool_decide (pending_discoverable_ m = [])) in
    let scan_type := scan_enable event in
    let enabled := negb (Z.land scan_type (uint8 (Hci.kScanEnableInquiry K)) =? 0)%Z in
    if Bool.eqb enable enabled then resolve_pending m
    else
      let scan_type' :=
        if enable
        then uint8 (Z.lor scan_type (uint8 (Hci.kScanEnableInquiry K)))
        else uint8 (Z.land scan_type (Z.lnot (uint8 (Hci.kScanEnableInquiry K)))) in
      (SendCommand (Hci.WriteScanEnable scan_type') OnWriteScanEnable m).2.

Definition write_scan_enable_callback_at (alloc : nat -> SessionId)
    (event : Hci.EventPacket) (m : BrEdrDiscoveryManager) : BrEdrDiscoveryManager :=
  resolve_pending_discoverable_at alloc (Hci.ToStatus event) (pending_discoverable_ m) m.

Definition deliver_at (alloc : nat -> SessionId) (k : Continuation)
    (event : Hci.EventPacket) (m : BrEdrDiscoveryManager) : BrEdrDiscoveryManager :=
  match k with
  | OnInquiry => inquiry_callback_at alloc event m
  | OnReadScanEnable => scan_enable_cb_at alloc event m
  | OnWriteScanEnable => write_scan_enable_callback_at alloc event m
  | _ => deliver k event m
  end.

(** The steps of the manager over session objects: [DropDiscoverySession n]
    and [DropDiscoverableSession n] are the destructors of the [n]-th session
    object, which hand the manager the object's own address. *)
Definition step_at (alloc : nat -> SessionId) (m : BrEdrDiscoveryManager) (op : Op)
  : BrEdrDiscoveryManager :=
  match op with
  | CallRequestDiscovery cb => RequestDiscoveryAt alloc cb m
  | CallRequestDiscoverable cb => RequestDiscoverableAt alloc cb m
  | DropDiscoverySession n => RemoveDiscoverySession (alloc n) m
  | DropDiscoverableSession n => RemoveDiscoverableSession (alloc n) m
  | CommandEvent k event => deliver_at alloc k event m
  | _ => step m op
  end.

Definition run_at (alloc : nat -> SessionId) (m : BrEdrDiscoveryManager) (ops : list Op)
  : BrEdrDiscoveryManager :=
  foldl (step_at alloc) m ops.

End Manager.

(** A controller with the constants of the Core Specification and a command
    channel that takes every packet. *)
Definition core_controller : Controller :=
  {| K := Hci.core_spec; cmd_accepted := fun _ _ => true; eir_name := fun _ => None |}.

End Gap.

(** ** l2cap/channel.cc: state *)

Module L2cap.

Definition Dispatcher := nat.
Definition RxCallback := nat.
Definition ClosedCallback := nat.
Definition SecurityCallback := nat.

(** Byte buffers. *)
Definition SDU := list Z.
Definition PDU := list Z.

Inductive ChannelMode := kBasic | kEnhancedRetransmission.

(** The RX and TX engines (basic_mode_*_engine.cc and
    enhanced_retransmission_mode_engines.cc are not among the sources at
    hand) enter through their interface: [ProcessPdu] returns the SDU a PDU
    completes, if any, and [QueueSdu] reports whether the SDU was queued. *)
Class Engines := {
  RxEngine : Type;
  TxEngine : Type;
  MakeEngines : ChannelMode -> RxEngine * TxEngine;
  ProcessPdu : RxEngine -> PDU -> RxEngine * option SDU;
  QueueSdu : TxEngine -> SDU -> TxEngine * bool
}.

(** What the channel reads off its link. *)
Record LogicalLink := {
  handle : Z;
  dispatcher : Dispatcher
}.

(** The closures the channel runs or posts. *)
Inductive Task :=
| PendingDrain (func : RxCallback) (pending : list SDU)
| RxTask (func : RxCallback) (sdu : SDU)
| ClosedTask (closed_cb : ClosedCallback)
| RemoveChannelTask (link : LogicalLink)
| SignalErrorTask (link : LogicalLink)
| UpgradeSecurityTask (link : LogicalLink) (level : nat) (callback : SecurityCallback)
    (dispatcher : Dispatcher).

(** What running them does outside the channel, and, as [SduCompleted], each
    SDU the RX engine hands back (a record kept by the model to state the
    order of delivery; no member of the class). *)
Inductive Effect :=
| SduCompleted (sdu : SDU)
| RxCallbackCalled (func : RxCallback) (sdu : SDU)
| ClosedCallbackCalled (closed_cb : ClosedCallback)
| RemoveChannelCalled (link : LogicalLink)
| SignalErrorCalled (link : LogicalLink)
| UpgradeSecurityCalled (link : LogicalLink) (level : nat) (callback : SecurityCallback)
    (dispatcher : Dispatcher).

(** The ways a call can end other than by returning. *)
Inductive Assertion :=
| assert_not_active
| assert_no_dispatcher
| assert_rx_engine
| assert_rx_cb
| assert_closed_cb.

Inductive Fault :=
| AssertionFailed (a : Assertion)
| NullLinkDereferenced
| NullEngineDereferenced.

Inductive Outcome (A : Type) :=
| Done (a : A)
| Crash (f : Fault).

Arguments Done {A} a.
Arguments Crash {A} f.

#[global] Instance Outcome_ret : MRet Outcome := fun A a => Done a.

#[global] Instance Outcome_bind : MBind Outcome := fun A B k o =>
  match o with
  | Done a => k a
  | Crash f => Crash f
  end.

#[global] Instance Outcome_fmap : FMap Outcome := fun A B g o =>
  match o with
  | Done a => Done (g a)
  | Crash f => Crash f
  end.

Section Channel.
Context `{Engines}.

(** The members of [ChannelImpl] that change.  [link_] is a weak pointer:
    [None] stands for a pointer that was reset or whose link was destroyed. *)
Record ChannelImpl := {
  info_mode : ChannelMode;
  active_ : bool;
  dispatcher_ : option Dispatcher;
  link_ : option LogicalLink;
  rx_cb_ : option RxCallback;
  closed_cb_ : option ClosedCallback;
  rx_engine_ : option RxEngine;
  tx_engine_ : option TxEngine;
  pending_rx_sdus_ : list SDU
}.

(** A channel with what surrounds it: the tasks posted and not yet run, with
    their dispatchers, oldest first; the effects so far, oldest first; and
    whether the trace category of the channel is being recorded. *)
Record World := {
  chan : ChannelImpl;
  tasks : list (Dispatcher * Task);
  effects : list Effect;
  tracing : bool
}.

Definition set_chan (c : ChannelImpl) (w : World) : World :=
  {| chan := c; tasks := tasks w; effects := effects w; tracing := tracing w |}.

Definition set_link_ (v : option LogicalLink) (c : ChannelImpl) : ChannelImpl :=
  {| info_mode := info_mode c; active_ := active_ c; dispatcher_ := dispatcher_ c;
     link_ := v; rx_cb_ := rx_cb_ c; closed_cb_ := closed_cb_ c;
     rx_engine_ := rx_engine_ c; tx_engine_ := tx_engine_ c;
     pending_rx_sdus_ := pending_rx_sdus_ c |}.

Definition set_rx_engine_ (v : option RxEngine) (c : ChannelImpl) : ChannelImpl :=
  {| info_mode := info_mode c; active_ := active_ c; dispatcher_ := dispatcher_ c;
     link_ := link_ c; rx_cb_ := rx_cb_ c; closed_cb_ := closed_cb_ c;
     rx_engine_ := v; tx_engine_ := tx_engine_ c;
     pending_rx_sdus_ := pending_rx_sdus_ c |}.

Definition set_tx_engine_ (v : option TxEngine) (c : ChannelImpl) : ChannelImpl :=
  {| info_mode := info_mode c; active_ := active_ c; dispatcher_ := dispatcher_ c;
     link_ := link_ c; rx_cb_ := rx_cb_ c; closed_cb_ := closed_cb_ c;
     rx_engine_ := rx_engine_ c; tx_engine_ := v;
     pending_rx_sdus_ := pending_rx_sdus_ c |}.

Definition set_pending_rx_sdus_ (v : list SDU) (c : ChannelImpl) : ChannelImpl :=
  {| info_mode := info_mode c; active_ := active_ c; dispatcher_ := dispatcher_ c;
     link_ := link_ c; rx_cb_ := rx_cb_ c; closed_cb_ := closed_cb_ c;
     rx_engine_ := rx_engine_ c; tx_engine_ := tx_engine_ c;
     pending_rx_sdus_ := v |}.

(** [async::PostTask] *)
Definition PostTask (d : Dispatcher) (task : Task) (w : World) : World :=
  {| chan := chan w; tasks := tasks w ++ [(d, task)]; effects := effects w;
     tracing := tracing w |}.

Definition emit (es : list Effect) (w : World) : World :=
  {| chan := chan w; tasks := tasks w; effects := effects w ++ es;
     tracing := tracing w |}.

Definition run_task (task : Task) (w : World) : World :=
  match task with
  | PendingDrain func pending => emit (RxCallbackCalled func <$> pending) w
  | RxTask func sdu => emit [RxCallbackCalled func sdu] w
  | ClosedTask closed_cb => emit [ClosedCallbackCalled closed_cb] w
  | RemoveChannelTask link => emit [RemoveChannelCalled link] w
  | SignalErrorTask link => emit [SignalErrorCalled link] w
  | UpgradeSecurityTask link level callback d =>
      emit [UpgradeSecurityCalled link level callback d] w
  end.

(** [RunOrPost] (common/run_or_post.cc): run the task at once when there is
    no dispatcher, post it otherwise. *)
Definition RunOrPost (task : Task) (d : option Dispatcher) (w : World) : World :=
  match d with
  | None => run_task task w
  | Some d => PostTask d task w
  end.

Definition assert (a : Assertion) (b : bool) : Outcome unit :=
  if b then Done () else Crash (AssertionFailed a).

(** [link_->handle()] as an argument of [TRACE_DURATION]: the macro (not
    among the sources at hand) evaluates its arguments while its category is
    recorded, and not otherwise. *)
Definition trace_link_handle (w : World) : Outcome unit :=
  if tracing w
  then match link_ (chan w) with
       | Some _ => Done ()
       | None => Crash NullLinkDereferenced
       end
  else Done ().

(** The constructor. *)
Definition create (link : LogicalLink) (mode : ChannelMode) : ChannelImpl :=
  let '(rx, tx) := MakeEngines mode in
  {| info_mode := mode; active_ := false; dispatcher_ := None; link_ := Some link;
     rx_cb_ := None; closed_cb_ := None;
     rx_engine_ := Some rx; tx_engine_ := Some tx; pending_rx_sdus_ := [] |}.

Definition ActivateWithDispatcher (rx_callback : RxCallback)
    (closed_callback : ClosedCallback) (d : option Dispatcher) (w : World)
  : Outcome (bool * World) :=
  let c := chan w in
  match link_ c with
  | None => Done (false, w)
  | Some link =>
      _ ← assert assert_not_active (negb (active_ c));
      _ ← assert assert_no_dispatcher (bool_decide (dispatcher_ c = None));
      let c1 :=
        {| info_mode := info_mode c; active_ := true; dispatcher_ := d;
           link_ := link_ c; rx_cb_ := Some rx_callback;
           closed_cb_ := Some closed_callback;
           rx_engine_ := rx_engine_ c; tx_engine_ := tx_engine_ c;
           pending_rx_sdus_ := pending_rx_sdus_ c |} in
      if negb (bool_decide (pending_rx_sdus_ c = []))
      then
        let task := PendingDrain rx_callback (pending_rx_sdus_ c) in
        Done (true, RunOrPost task d (set_chan (set_pending_rx_sdus_ [] c1) w))
      else Done (true, set_chan c1 w)
  end.

Definition ActivateOnDataDomain (rx_callback : RxCallback)
    (closed_callback : ClosedCallback) (w : World) : Outcome (bool * World) :=
  ActivateWithDispatcher rx_callback closed_callback None w.

Definition Deactivate (w : World) : World :=
  let c := chan w in
  match link_ c with
  | Some link =>
      if active_ c
      then
        let c1 :=
          {| info_mode := info_mode c; active_ := false; dispatcher_ := None;
             link_ := None; rx_cb_ := None; closed_cb_ := None;
             rx_engine_ := None; tx_engine_ := None;
             pending_rx_sdus_ := pending_rx_sdus_ c |} in
        set_chan c1 (PostTask (dispatcher link) (RemoveChannelTask link) w)
      else set_chan (set_link_ None c) w
  | None => set_chan (set_link_ None c) w
  end.

(** [current] is the dispatcher [async_get_default_dispatcher()] returns on
    the calling thread. *)
Definition SignalLinkError (current : Dispatcher) (w : World) : World :=
  let c := chan w in
  match link_ c with
  | Some link => if active_ c then PostTask current (SignalErrorTask link) w else w
  | None => w
  end.

Definition Send (sdu : SDU) (w : World) : Outcome (bool * World) :=
  _ ← trace_link_handle w;
  let c := chan w in
  match link_ c with
  | None => Done (false, w)
  | Some _ =>
      if negb (active_ c) then Done (false, w)
      else
        match tx_engine_ c with
        | None => Crash NullEngineDereferenced
        | Some tx =>
            let '(tx', queued) := QueueSdu tx sdu in
            Done (queued, set_chan (set_tx_engine_ (Some tx') c) w)
        end
  end.

Definition UpgradeSecurity (level : nat) (callback : SecurityCallback) (d : Dispatcher)
    (w : World) : World :=
  let c := chan w in
  match link_ c with
  | Some link =>
      if active_ c
      then PostTask (dispatcher link) (UpgradeSecurityTask link level callback d) w
      else w
  | None => w
  end.

Definition OnClosed (w : World) : Outcome World :=
  let c := chan w in
  match link_ c with
  | Some link =>
      if active_ c
      then
        match closed_cb_ c with
        | None => Crash (AssertionFailed assert_closed_cb)
        | Some task =>
            let c1 :=
              {| info_mode := info_mode c; active_ := false; dispatcher_ := None;
                 link_ := None; rx_cb_ := rx_cb_ c; closed_cb_ := None;
                 rx_engine_ := None; tx_engine_ := None;
                 pending_rx_sdus_ := pending_rx_sdus_ c |} in
            Done (RunOrPost (ClosedTask task) (dispatcher_ c) (set_chan c1 w))
        end
      else Done (set_chan (set_link_ None c) w)
  | None => Done (set_chan (set_link_ None c) w)
  end.

Definition HandleRxPdu (pdu : PDU) (w : World) : Outcome World :=
  _ ← trace_link_handle w;
  let c := chan w in
  match link_ c with
  | None => Done w
  | Some _ =>
      match rx_engine_ c with
      | None => Crash (AssertionFailed assert_rx_engine)
      | Some rx =>
          let '(rx', sdu) := ProcessPdu rx pdu in
          let c1 := set_rx_engine_ (Some rx') c in
          match sdu with
          | None => Done (set_chan c1 w)
          | Some sdu =>
              let w1 := emit [SduCompleted sdu] w in
              if negb (active_ c)
              then Done (set_chan (set_pending_rx_sdus_ (pending_rx_sdus_ c ++ [sdu]) c1) w1)
              else
                match rx_cb_ c with
                | None => Crash (AssertionFailed assert_rx_cb)
                | Some func => Done (RunOrPost (RxTask func sdu) (dispatcher_ c) (set_chan c1 w1))
                end
          end
      end
  end.

(** *** Activation cut where [mtx_] is released *)

(** [ActivateWithDispatcher] as far as the block that holds [mtx_]
    (channel.cc:122-150): what the call will return, the task it has made for
    the buffered SDUs, if any, and the world as the block leaves it. *)
Definition ActivateLocked (rx_callback : RxCallback) (closed_callback : ClosedCallback)
    (d : option Dispatcher) (w : World) : Outcome (bool * option Task * World) :=
  let c := chan w in
  match link_ c with
  | None => Done (false, None, w)
  | Some link =>
      _ ← assert assert_not_active (negb (active_ c));
      _ ← assert assert_no_dispatcher (bool_decide (dispatcher_ c = None));
      let c1 :=
        {| info_mode := info_mode c; active_ := true; dispatcher_ := d;
           link_ := link_ c; rx_cb_ := Some rx_callback;
           closed_cb_ := Some closed_callback;
           rx_engine_ := rx_engine_ c; tx_engine_ := tx_engine_ c;
           pending_rx_sdus_ := pending_rx_sdus_ c |} in
      if negb (bool_decide (pending_rx_sdus_ c = []))
      then Done (true, Some (PendingDrain rx_callback (pending_rx_sdus_ c)),
                 set_chan (set_pending_rx_sdus_ [] c1) w)
      else Done (true, None, set_chan c1 w)
  end.

(** The rest of the call, after the lock is released (channel.cc:152-154):
    [if (run_task) RunOrPost(std::move(task), dispatcher)]. *)
Definition ActivateUnlocked (task : option Task) (d : option Dispatcher) (w : World)
  : World :=
  match task with
  | Some t => RunOrPost t d w
  | None => w
  end.

(** *** The channel as a transition system *)

(** A dispatcher runs the oldest task posted to it. *)
Fixpoint take_task (d : Dispatcher) (ts : list (Dispatcher * Task))
  : option (Task * list (Dispatcher * Task)) :=
  match ts with
  | [] => None
  | (d', t) :: rest =>
      if bool_decide (d' = d) then Some (t, rest)
      else match take_task d rest with
           | Some (t', rest') => Some (t', (d', t) :: rest')
           | None => None
           end
  end.

Definition dispatch (d : Dispatcher) (w : World) : World :=
  match take_task d (tasks w) with
  | Some (t, rest) =>
      run_task t {| chan := chan w; tasks := rest; effects := effects w;
                    tracing := tracing w |}
  | None => w
  end.

(** Everything that can happen to a channel: the calls of its owner, the
    calls of its link, the destruction of the link (which empties the weak
    pointer and nothing else), a dispatcher running a task, and tracing being
    switched.  The callbacks, dispatchers and buffers given to a call are
    there (none is null), so the assertions on arguments (channel.cc:116-117,
    207, 226-227) hold of every call and do not appear.  A call is one step: its body runs under [mtx_], and the
    [RunOrPost] that follows the unlock in [ActivateWithDispatcher],
    [OnClosed] and [HandleRxPdu] is taken together with it. *)
Inductive Op :=
| CallActivate (rx_callback : RxCallback) (closed_callback : ClosedCallback)
    (d : option Dispatcher)
| CallDeactivate
| CallSend (sdu : SDU)
| CallSignalLinkError (current : Dispatcher)
| CallUpgradeSecurity (level : nat) (callback : SecurityCallback) (d : Dispatcher)
| LinkOnClosed
| LinkHandleRxPdu (pdu : PDU)
| LinkDestroyed
| Dispatch (d : Dispatcher)
| SetTracing (on : bool).

Definition step (w : World) (op : Op) : Outcome World :=
  match op with
  | CallActivate rx closed d => snd <$> ActivateWithDispatcher rx closed d w
  | CallDeactivate => Done (Deactivate w)
  | CallSend sdu => snd <$> Send sdu w
  | CallSignalLinkError current => Done (SignalLinkError current w)
  | CallUpgradeSecurity level callback d => Done (UpgradeSecurity level callback d w)
  | LinkOnClosed => OnClosed w
  | LinkHandleRxPdu pdu => HandleRxPdu pdu w
  | LinkDestroyed => Done (set_chan (set_link_ None (chan w)) w)
  | Dispatch d => Done (dispatch d w)
  | SetTracing on =>
      Done {| chan := chan w; tasks := tasks w; effects := effects w; tracing := on |}
  end.

Fixpoint run (ops : list Op) (w : World) : Outcome World :=
  match ops with
  | [] => Done w
  | op :: ops => w' ← step w op; run ops w'
  end.

(** The worlds a new channel can come to.  A call that crashes ends the run. *)
Inductive Reachable (link : LogicalLink) (mode : ChannelMode) : World -> Prop :=
| reach_create (traced : bool) :
    Reachable link mode
      {| chan := create link mode; tasks := []; effects := []; tracing := traced |}
| reach_step (w w' : World) (op : Op) :
    Reachable link mode w -> step w op = Done w' -> Reachable link mode w'.

(** The SDUs given to the RX callback, those waiting in posted tasks, and
    those the RX engine has completed, each in order. *)
Definition delivered_of (es : list Effect) : list SDU :=
  omap (fun e => match e with RxCallbackCalled _ sdu => Some sdu | _ => None end) es.

Definition task_sdus (t : Task) : list SDU :=
  match t with
  | PendingDrain _ pending => pending
  | RxTask _ sdu => [sdu]
  | _ => []
  end.

Definition in_flight_of (ts : list (Dispatcher * Task)) : list SDU :=
  concat ((fun dt => task_sdus dt.2) <$> ts).

Definition completed_of (es : list Effect) : list SDU :=
  omap (fun e => match e with SduCompleted sdu => Some sdu | _ => None end) es.

Definition delivered (w : World) : list SDU := delivered_of (effects w).
Definition in_flight (w : World) : list SDU := in_flight_of (tasks w).
Definition completed (w : World) : list SDU := completed_of (effects w).

(** How often the closed callback was called or is about to be. *)
Definition is_closed_call (e : Effect) : bool :=
  match e with ClosedCallbackCalled _ => true | _ => false end.

Definition is_closed_task (dt : Dispatcher * Task) : bool :=
  match dt.2 with ClosedTask _ => true | _ => false end.

Definition closed_calls_of (ts : list (Dispatcher * Task)) (es : list Effect) : nat :=
  length (List.filter is_closed_call es) + length (List.filter is_closed_task ts).

Definition closed_calls (w : World) : nat := closed_calls_of (tasks w) (effects w).

End Channel.

(** Basic mode as the engines of a channel: every PDU is an SDU, and the TX
    engine keeps what it is given. *)
Definition basic_mode : Engines :=
  {| RxEngine := unit; TxEngine := list SDU;
     MakeEngines := fun _ => ((), []);
     ProcessPdu := fun rx pdu => (rx, Some pdu);
     QueueSdu := fun tx sdu => (tx ++ [sdu], true) |}.

End L2cap.

(** * The vocabulary of the properties *)

(** ** The discovery manager *)

Section DiscoveryVocabulary.
Import Gap.
Context `{Controller}.

Implicit Types (m : BrEdrDiscoveryManager) (cb : CallbackId) (event : Hci.EventPacket).

(** The packets that start an inquiry: a change of inquiry mode when the
    current mode is not the desired one, then the Inquiry command. *)
Definition inquiry_start m : list Hci.CommandPacket :=
  (if bool_decide (desired_inquiry_mode_ m ≠ current_inquiry_mode_ m)
   then [Hci.WriteInquiryMode (desired_inquiry_mode_ m)] else [])
  ++ [Hci.Inquiry (Hci.kGIAC K) (Hci.kInquiryLengthDefault K) 0].

Definition packets m : list Hci.CommandPacket := packet <$> hci_ m.

Definition count_packets (op : Hci.OpCode) (l : list Hci.CommandPacket) : nat :=
  length (filter (fun p => Hci.opcode p = op) l).

(** The sessions the loop over the queue creates, one per callback, and what
    each callback is called with. *)
Definition resolved (status : Hci.Status) (first : SessionId) (cbs : list CallbackId)
  : list Call :=
  imap (fun i cb =>
          DiscoveryCallback cb status
            (if Hci.is_success status then Some (first + i) else None)) cbs.

(** The events on which the inquiry callback takes its Inquiry Complete
    branch. *)
Definition inquiry_complete_seen (op : Op) : Prop :=
  match op with
  | CommandEvent OnInquiry event =>
      Hci.event_code event ≠ Hci.kCommandStatusEventCode
      /\ Hci.event_code event ≠ Hci.kCommandCompleteEventCode
  | _ => False
  end.

#[global] Instance inquiry_complete_seen_dec op : Decision (inquiry_complete_seen op).
Proof. destruct op as [| | | | |k event| |]; try destruct k; simpl; apply _. Defined.

(** Every live session was made by the allocator. *)
Definition sessions_allocated m : Prop :=
  forall x, x ∈ discovering_ m -> x < next_session_ m.

(** [m'] comes after [m]: the allocator has only moved forward, every live
    session of [m'] was live in [m] or was made in between, and no zombie was
    forgotten. *)
Definition live_after m m' : Prop :=
  next_session_ m <= next_session_ m'
  /\ forall x, x ∈ discovering_ m' ->
       x ∈ discovering_ m \/ next_session_ m <= x < next_session_ m'.

Definition after m m' : Prop :=
  live_after m m' /\ zombie_discovering_ m ⊆ zombie_discovering_ m'.

(** Demand for discovery: a live session or a request in the queue. *)
Definition has_demand m : bool :=
  negb (bool_decide (pending_discovery_ m = []) && bool_decide (discovering_ m = ∅)).

(** The Inquiry bit of the scan enable byte, and whether a byte has it. *)
Definition inquiry_bit : Z := uint8 (Hci.kScanEnableInquiry K).

Definition inquiry_scan_enabled (scan_type : Z) : bool :=
  negb (Z.land scan_type inquiry_bit =? 0)%Z.

(** What the queued callbacks of [RequestDiscoverable] are called with. *)
Definition resolved_discoverable (status : Hci.Status) (first : SessionId)
    (cbs : list CallbackId) : list Call :=
  imap (fun i cb =>
          DiscoverableCallback cb status
            (if Hci.is_success status then Some (first + i) else None)) cbs.

(** The payload of the Write Extended Inquiry Response packet that
    [UpdateEIRResponseData] builds for a name. *)
Definition eir_of (name : list Z) : list Z :=
  match last (packets (UpdateEIRResponseData name 0 (create Hci.kStandard
                         {| peers := []; next_peer_id := 0 |}))) with
  | Some (Hci.WriteExtendedInquiryResponse _ eir) => eir
  | _ => []
  end.

(** The number of name bytes [UpdateEIRResponseData] copies. *)
Definition eir_name_size (name : list Z) : nat :=
  if bool_decide (Hci.kExtendedInquiryResponseMaxNameBytes K ≤ length name)
  then Hci.kExtendedInquiryResponseMaxNameBytes K else length name.

Implicit Types (c : PeerCache) (a b : DeviceAddress) (p q : Peer).

(** The records of an address, and what the manager looks at in them. *)
Definition records_at a c : list Peer :=
  List.filter (fun p => bool_decide (address p = a)) (peers c).

Definition summary a c : list (PeerId * option (list Z)) :=
  (fun p => (identifier p, name p)) <$> records_at a c.

(** Identifiers are unique in the directory and were all handed out. *)
Definition cache_ok c : Prop :=
  NoDup (identifier <$> peers c)
  /\ forall p, p ∈ peers c -> identifier p < next_peer_id c.

Definition manager_ok m : Prop :=
  cache_ok (cache_ m)
  /\ forall id, id ∈ requesting_names_ m -> id < next_peer_id (cache_ m).

(** A mutation that leaves identifier, address and name alone. *)
Definition keeps_key (f : Peer -> Peer) : Prop :=
  forall p, identifier (f p) = identifier p /\ address (f p) = address p
            /\ name (f p) = name p.

(** A mutation that leaves identifier and address alone. *)
Definition keeps_id (f : Peer -> Peer) : Prop :=
  forall p, identifier (f p) = identifier p /\ address (f p) = address p.

(** The address an inquiry response stands for. *)
Definition inquiry_address (r : Hci.InquiryResult) : DeviceAddress :=
  {| addr_type := kBREDR; addr_value := Hci.bd_addr r |}.

(** The Remote Name Request packets for a given [bd_addr]. *)
Definition is_name_request (v : Z) (pkt : Hci.CommandPacket) : bool :=
  match pkt with
  | Hci.RemoteNameRequest bd_addr _ _ => bool_decide (bd_addr = v)
  | _ => false
  end.

Definition count_name_requests (v : Z) (l : list Hci.CommandPacket) : nat :=
  length (List.filter (is_name_request v) l).

(** Whether reporting the peer [id] makes the manager ask for the name of
    [bd_addr] [v]: the peer is on record without a name, no request for it is
    in flight, and its address is [v]. *)
Definition wants_name (v : Z) m (id : PeerId) : bool :=
  match FindById (cache_ m) id with
  | Some p =>
      bool_decide (name p = None) && bool_decide (id ∉ requesting_names_ m)
      && bool_decide (addr_value (address p) = v)
  | None => false
  end.

(** The command channel takes every name request for [bd_addr] [v]. *)
Definition takes_name_requests (v : Z) : Prop :=
  forall l psrm clk, cmd_accepted l (Hci.RemoteNameRequest v psrm clk) = true.

(** The event passes the size test of [ProcessInquiryResult] for its kind. *)
Definition well_sized event : Prop :=
  (Hci.event_code event = Hci.kInquiryResultEventCode
   /\ (((Hci.payload_size event - Hci.sizeof_InquiryResultEventParams K) mod 2 ^ 64)
       mod Hci.sizeof_InquiryResult K = 0)%Z)
  \/ (Hci.event_code event = Hci.kInquiryResultWithRSSIEventCode
      /\ (((Hci.payload_size event - Hci.sizeof_InquiryResultWithRSSIEventParams K) mod 2 ^ 64)
          mod Hci.sizeof_InquiryResultRSSI K = 0)%Z).

(** [m'] has the directory and the name requests of [m]. *)
Definition same_directory m m' : Prop :=
  cache_ m' = cache_ m /\ requesting_names_ m' = requesting_names_ m.

(** How a packet may be handed to the command channel: Inquiry with the
    inquiry callback, as an exclusive command that ends with Inquiry Complete
    and keeps Remote Name Request out; Remote Name Request with its own
    callback, exclusive until Remote Name Request Complete and keeping Inquiry
    out; Inquiry Cancel not at all; every other packet as a plain command. *)
Definition well_sent (s : Sent) : Prop :=
  match packet s with
  | Hci.Inquiry _ _ _ =>
      callback s = OnInquiry
      /\ exclusive s = Some (Hci.kInquiryCompleteEventCode, [Hci.kRemoteNameRequest])
  | Hci.RemoteNameRequest _ _ _ =>
      (exists id, callback s = OnRemoteNameRequest id)
      /\ exclusive s = Some (Hci.kRemoteNameRequestCompleteEventCode, [Hci.kInquiry])
  | Hci.InquiryCancel => False
  | _ => exclusive s = None
  end.

(** [m'] has handed over what [m] had, and after it only packets handed over
    well. *)
Definition sends_well m m' : Prop :=
  exists l, hci_ m' = hci_ m ++ l /\ Forall well_sent l.

(** The identifier of the record the directory finds for an address. *)
Definition record_id c a : option PeerId := identifier <$> FindByAddress c a.

(** What is told to the live sessions of [m] about the peers [ids], peer
    after peer. *)
Definition notifications m (ids : list PeerId) : list Call :=
  ids ≫= fun id => (fun session => NotifyDiscoveryResult session id)
                     <$> elements (discovering_ m).

(** [m'] comes after [m] when sessions sit at the addresses [alloc] gives:
    every live key of [m'] was live in [m] or is the address of an object
    made in between, and no zombie was forgotten. *)
Definition live_after_at (alloc : nat -> SessionId) m m' : Prop :=
  next_session_ m <= next_session_ m'
  /\ forall x, x ∈ discovering_ m' ->
       x ∈ discovering_ m
       \/ exists k, next_session_ m <= k < next_session_ m' /\ x = alloc k.

Definition after_at (alloc : nat -> SessionId) m m' : Prop :=
  live_after_at alloc m m' /\ zombie_discovering_ m ⊆ zombie_discovering_ m'.

(** The session objects a step destroys. *)
Definition destroyed_by (op : Op) : gset nat :=
  match op with
  | DropDiscoverySession n | DropDiscoverableSession n => {[n]}
  | _ => ∅
  end.

(** Object [n] is alive when it was made and, [gone] being the objects
    destroyed so far, not destroyed. *)
Definition alive (gone : gset nat) m (n : nat) : Prop :=
  n < next_session_ m /\ n ∉ gone.

(** What the heap and the language give: a destructor runs on an object that
    is alive, and [new] gives an object an address that no object alive
    has (the address of a destroyed object may come back). *)
Definition well_formed_step (alloc : nat -> SessionId) (gone : gset nat) m (op : Op)
  : Prop :=
  (forall n, n ∈ destroyed_by op -> alive gone m n)
  /\ (forall k j, next_session_ m <= k < next_session_ (step_at alloc m op) ->
        j < k -> j ∉ gone -> alloc j ≠ alloc k).

Fixpoint well_formed_run (alloc : nat -> SessionId) (gone : gset nat) m (ops : list Op)
  : Prop :=
  match ops with
  | [] => True
  | op :: rest =>
      well_formed_step alloc gone m op
      /\ well_formed_run alloc (destroyed_by op ∪ gone) (step_at alloc m op) rest
  end.

(** How often the session object [n] goes from live to zombie over a run:
    the steps that find the object alive and its address in [discovering_],
    and leave the address in [zombie_discovering_] and out of
    [discovering_]. *)
Fixpoint object_retirements (alloc : nat -> SessionId) (n : nat) (gone : gset nat) m
    (ops : list Op) : nat :=
  match ops with
  | [] => 0
  | op :: rest =>
      let m' := step_at alloc m op in
      (if bool_decide (alive gone m n /\ alloc n ∈ discovering_ m
                       /\ alloc n ∈ zombie_discovering_ m' /\ alloc n ∉ discovering_ m')
       then 1 else 0)
      + object_retirements alloc n (destroyed_by op ∪ gone) m' rest
  end.

End DiscoveryVocabulary.

(** ** The channel *)

Section ChannelVocabulary.
Import L2cap.
Context `{Engines}.

Implicit Types (w : World) (ts : list (Dispatcher * Task)) (es : list Effect).

(** The tasks that call the RX callback. *)
Definition is_rx_task (t : Task) : bool :=
  match t with
  | PendingDrain _ _ | RxTask _ _ => true
  | _ => false
  end.

(** No posted task carries SDUs; every posted task that does is on [d0]. *)
Definition no_rx_tasks ts : Prop := Forall (fun dt => is_rx_task dt.2 = false) ts.

Definition rx_tasks_on (d0 : Dispatcher) ts : Prop :=
  Forall (fun dt => is_rx_task dt.2 = true -> dt.1 = d0) ts.

(** What holds of a channel and its tasks in every world it can come to: an
    active channel has nothing pending; an inactive one has no dispatcher; an
    active one with a link has its closed callback; tasks for the RX callback
    exist only after activation and all sit on the one dispatcher given
    then; the closed callback was neither called nor posted while the link is
    there, and at most once ever; and the SDUs delivered, in tasks and
    pending are the SDUs completed, in order. *)
Record channel_ok w : Prop := {
  ok_pending : active_ (chan w) = true -> pending_rx_sdus_ (chan w) = [];
  ok_dispatcher : active_ (chan w) = false -> dispatcher_ (chan w) = None;
  ok_closed_cb :
    active_ (chan w) = true -> link_ (chan w) ≠ None -> closed_cb_ (chan w) ≠ None;
  ok_inactive :
    active_ (chan w) = false -> link_ (chan w) ≠ None -> no_rx_tasks (tasks w);
  ok_inline :
    active_ (chan w) = true -> dispatcher_ (chan w) = None -> no_rx_tasks (tasks w);
  ok_posted :
    forall d, active_ (chan w) = true -> dispatcher_ (chan w) = Some d ->
              rx_tasks_on d (tasks w);
  ok_one_dispatcher : exists d0, rx_tasks_on d0 (tasks w);
  ok_not_closed : link_ (chan w) ≠ None -> closed_calls_of (tasks w) (effects w) = 0;
  ok_closed_once : closed_calls_of (tasks w) (effects w) <= 1;
  ok_order :
    delivered_of (effects w) ++ in_flight_of (tasks w) ++ pending_rx_sdus_ (chan w)
    = completed_of (effects w)
}.

(** What the assertions and dereferences of the channel rely on: while the
    link is there both engines are, and an active channel with its link has
    its RX callback. *)
Record channel_safe w : Prop := {
  safe_rx_engine : link_ (chan w) ≠ None -> rx_engine_ (chan w) ≠ None;
  safe_tx_engine : link_ (chan w) ≠ None -> tx_engine_ (chan w) ≠ None;
  safe_rx_cb : active_ (chan w) = true -> link_ (chan w) ≠ None -> rx_cb_ (chan w) ≠ None
}.

(** How often the link was asked to remove the channel, or is about to be. *)
Definition is_remove_call (e : Effect) : bool :=
  match e with RemoveChannelCalled _ => true | _ => false end.

Definition is_remove_task (dt : Dispatcher * Task) : bool :=
  match dt.2 with RemoveChannelTask _ => true | _ => false end.

Definition remove_calls w : nat :=
  length (List.filter is_remove_call (effects w))
  + length (List.filter is_remove_task (tasks w)).

(** The two ways a channel ends are told to the other side at most once
    between them, and not while the link is there. *)
Definition closing_ok w : Prop :=
  closed_calls w + remove_calls w <= 1
  /\ (link_ (chan w) ≠ None -> closed_calls w + remove_calls w = 0).

End ChannelVocabulary.

(** ** Concrete managers and events *)

Section DiscoveryInputs.
Import Gap.
#[local] Existing Instance core_controller.

Definition empty_directory : PeerCache := {| peers := []; next_peer_id := 0 |}.

Definition command_status (status : Hci.Status) : Hci.EventPacket :=
  {| Hci.event_code := Hci.kCommandStatusEventCode; Hci.ToStatus := status;
     Hci.payload_size := 4; Hci.params := Hci.NoParams |}.

Definition inquiry_complete (status : Hci.Status) : Hci.EventPacket :=
  {| Hci.event_code := Hci.kInquiryCompleteEventCode; Hci.ToStatus := status;
     Hci.payload_size := 1; Hci.params := Hci.NoParams |}.

Definition scan_enable_read (status : Hci.Status) (scan_enable : Z) : Hci.EventPacket :=
  {| Hci.event_code := Hci.kCommandCompleteEventCode; Hci.ToStatus := status;
     Hci.payload_size := 5; Hci.params := Hci.ReadScanEnableReturnParams scan_enable |}.

Definition inquiry_result (rs : list Hci.InquiryResult) : Hci.EventPacket :=
  {| Hci.event_code := Hci.kInquiryResultEventCode; Hci.ToStatus := Hci.Success;
     Hci.payload_size := 1 + 14 * Z.of_nat (length rs);
     Hci.params := Hci.InquiryResultEventParams rs |}.

(** A manager with one live session, number 0, and its inquiry running. *)
Definition discovering_manager : BrEdrDiscoveryManager :=
  run (create Hci.kExtended empty_directory)
    [CallRequestDiscovery 7; CommandEvent OnInquiry (command_status Hci.Success)].

(** A manager with one request for discovery queued, its inquiry not yet
    confirmed. *)
Definition starting_manager : BrEdrDiscoveryManager :=
  run (create Hci.kExtended empty_directory) [CallRequestDiscovery 7].

Definition first_response : Hci.InquiryResult :=
  {| Hci.bd_addr := 0xAABBCCDDEEFF; Hci.page_scan_repetition_mode := 1;
     Hci.clock_offset := 0 |}.

(** A manager with two discoverable sessions, numbers 0 and 1: the first
    asked for while the controller already had inquiry scan on, the second
    while the first was there. *)
Definition discoverable_manager : BrEdrDiscoveryManager :=
  run (create Hci.kExtended empty_directory)
    [CallRequestDiscoverable 7;
     CommandEvent OnReadScanEnable (scan_enable_read Hci.Success 3);
     CallRequestDiscoverable 8].

(** A heap with room for one session: every session object lies at address
    0, so each is destroyed before the next is made. *)
Definition one_address : nat -> SessionId := fun _ => 0.

(** The session of [discovering_manager] ends, a second one is made while the
    address of the first is still a zombie, and the second ends. *)
Definition reuse_run : list Op :=
  [DropDiscoverySession 0; CallRequestDiscovery 8; DropDiscoverySession 1].

End DiscoveryInputs.

(** ** Concrete channels *)

Section ChannelInputs.
Import L2cap.
#[local] Existing Instance basic_mode.

Definition link0 : LogicalLink := {| handle := 1; dispatcher := 0 |}.

Definition new_channel (traced : bool) : World :=
  {| chan := create link0 kBasic; tasks := []; effects := []; tracing := traced |}.

(** The world a run ends in, and the world it started from when it crashed. *)
Definition after_run (ops : list Op) (w : World) : World :=
  match run ops w with
  | Done w' => w'
  | Crash _ => w
  end.

(** Two PDUs have arrived on a channel not yet activated. *)
Definition buffered_channel : World :=
  after_run [LinkHandleRxPdu [1%Z]; LinkHandleRxPdu [2%Z]] (new_channel false).

(** A channel activated with RX callback 5 and closed callback 6 on
    dispatcher 3, then deactivated by its owner. *)
Definition deactivated_channel (traced : bool) : World :=
  after_run [CallActivate 5 6 (Some 3); LinkHandleRxPdu [1%Z]; CallDeactivate]
    (new_channel traced).

(** The same channel closed by its link instead. *)
Definition closed_channel (traced : bool) : World :=
  after_run [CallActivate 5 6 (Some 3); LinkHandleRxPdu [1%Z]; LinkOnClosed]
    (new_channel traced).

(** A channel activated on dispatcher 3 that has since received one PDU. *)
Definition active_channel : World :=
  after_run [CallActivate 5 6 (Some 3); LinkHandleRxPdu [1%Z]] (new_channel false).


End ChannelInputs.

(** * Properties of the discovery manager *)

Section DiscoveryManager.
Import Gap.
Context `{Controller}.

Implicit Types (m : BrEdrDiscoveryManager) (cb : CallbackId) (event : Hci.EventPacket).

Lemma count_sent_packets op m : count_sent op (hci_ m) = count_packets op (packets m).
Proof.
  unfold count_sent, count_packets, packets.
  induction (hci_ m) as [|s l IH]; [done|].
  rewrite fmap_cons, !filter_cons. simpl.
  destruct (decide (Hci.opcode (packet s) = op)); simpl; lia.
Qed.

Lemma count_packets_app op l1 l2 :
  count_packets op (l1 ++ l2) = count_packets op l1 + count_packets op l2.
Proof. unfold count_packets. by rewrite filter_app, length_app. Qed.

Lemma count_inquiry_start m : count_packets Hci.kInquiry (inquiry_start m) = 1.
Proof. unfold inquiry_start. case_bool_decide; reflexivity. Qed.

Lemma packets_submit pkt k excl m :
  packets (submit pkt k excl m).2 = packets m ++ [pkt].
Proof. unfold packets, submit. simpl. by rewrite fmap_app. Qed.

(** [MaybeStartInquiry] touches the command channel and nothing else. *)
Lemma MaybeStartInquiry_frame m :
  MaybeStartInquiry m = set_hci_ (hci_ (MaybeStartInquiry m)) m.
Proof.
  unfold MaybeStartInquiry, SendExclusiveCommand, SendCommand, submit.
  destruct m; simpl. repeat case_bool_decide; reflexivity.
Qed.

Lemma MaybeStartInquiry_idle m :
  pending_discovery_ m = [] -> discovering_ m = ∅ -> MaybeStartInquiry m = m.
Proof.
  intros Hp Hd. unfold MaybeStartInquiry. rewrite Hp, Hd.
  by rewrite 2!bool_decide_eq_true_2 by done.
Qed.

Lemma MaybeStartInquiry_demand m :
  pending_discovery_ m ≠ [] \/ discovering_ m ≠ ∅ ->
  packets (MaybeStartInquiry m) = packets m ++ inquiry_start m.
Proof.
  intros Hd. unfold MaybeStartInquiry, inquiry_start.
  assert (bool_decide (pending_discovery_ m = []) && bool_decide (discovering_ m = ∅) = false)
    as ->.
  { apply andb_false_iff. destruct Hd; [left|right]; by apply bool_decide_eq_false_2. }
  unfold SendExclusiveCommand, SendCommand.
  case_bool_decide; rewrite !packets_submit; [|done].
  by rewrite <- app_assoc.
Qed.

Lemma RequestDiscovery_queued cb m :
  pending_discovery_ m ≠ [] ->
  RequestDiscovery cb m = set_pending_discovery_ (pending_discovery_ m ++ [cb]) m.
Proof. intros Hp. unfold RequestDiscovery. by rewrite bool_decide_eq_false_2. Qed.

Lemma RequestDiscovery_starting cb m :
  pending_discovery_ m = [] -> discovering_ m = ∅ -> zombie_discovering_ m = ∅ ->
  RequestDiscovery cb m = MaybeStartInquiry (set_pending_discovery_ [cb] m).
Proof.
  intros Hp Hd Hz. unfold RequestDiscovery.
  rewrite Hp, Hd, Hz. by rewrite 2!bool_decide_eq_true_2 by done.
Qed.

Lemma RequestDiscovery_all_queued cbs m :
  pending_discovery_ m ≠ [] ->
  foldl (fun m cb => RequestDiscovery cb m) m cbs
  = set_pending_discovery_ (pending_discovery_ m ++ cbs) m.
Proof.
  revert m. induction cbs as [|cb cbs IH]; intros m Hp; simpl.
  - rewrite app_nil_r. by destruct m.
  - rewrite RequestDiscovery_queued by done. rewrite IH.
    + destruct m; simpl. by rewrite <- app_assoc.
    + destruct m; simpl in *. by destruct pending_discovery_0.
Qed.

Lemma resolve_pending_discovery_spec status cbs m :
  let m' := resolve_pending_discovery status cbs m in
  pending_discovery_ m' = (if cbs is [] then pending_discovery_ m else [])
  /\ calls_ m' = calls_ m ++ resolved status (next_session_ m) cbs
  /\ hci_ m' = hci_ m
  /\ zombie_discovering_ m' = zombie_discovering_ m
  /\ (if Hci.is_success status
      then discovering_ m' = list_to_set (seq (next_session_ m) (length cbs)) ∪ discovering_ m
           /\ next_session_ m' = next_session_ m + length cbs
      else discovering_ m' = discovering_ m /\ next_session_ m' = next_session_ m).
Proof.
  revert m. induction cbs as [|cb cbs IH]; intros m; simpl.
  - rewrite app_nil_r. repeat split; try done.
    destruct (Hci.is_success status); split; first [done | set_solver | lia].
  - specialize (IH (let m0 := set_pending_discovery_ cbs m in
        if Hci.is_success status
        then let '(session, m') := AddDiscoverySession m0 in
             invoke (DiscoveryCallback cb status (Some session)) m'
        else invoke (DiscoveryCallback cb status None) m0)).
    simpl in IH. destruct IH as (Hp & Hc & Hh & Hz & Hd).
    unfold resolved in *. rewrite Hp, Hc, Hh, Hz. clear Hp Hc Hh Hz.
    destruct (Hci.is_success status) eqn:Hs; simpl in *.
    + destruct Hd as [Hd Hn]. rewrite Hd, Hn.
      repeat split; try done.
      * by destruct cbs.
      * rewrite <- app_assoc. simpl. rewrite Nat.add_0_r. do 2 f_equal.
        apply imap_ext. intros i x _. simpl. do 2 f_equal. lia.
      * set_solver.
    + destruct Hd as [Hd Hn]. rewrite Hd, Hn.
      repeat split; try done.
      * by destruct cbs.
      * by rewrite <- app_assoc.
Qed.

Lemma InvalidateDiscoverySessions_idle m :
  discovering_ m = ∅ -> InvalidateDiscoverySessions m = m.
Proof.
  intros Hd. unfold InvalidateDiscoverySessions. rewrite Hd, elements_empty. simpl.
  rewrite app_nil_r. destruct m; simpl in *. by subst.
Qed.

(** C1.  Requests for discovery made while no inquiry runs are served by one
    Inquiry command: starting from a manager with no live or zombie session
    and nothing pending, any number of calls of [RequestDiscovery] hands the
    command channel the packets of one inquiry start, holding exactly one
    Inquiry command, queues every callback and calls none; when the Command
    Status or Command Complete event of that command arrives, no further
    packet is sent, the queue is emptied and every callback is called, in
    order, with the status of the event: on success each with a session of
    its own that did not exist before (and these become the live sessions), on
    failure each with that same status and no session. *)
Theorem request_discovery_coalesced m (cbs : list CallbackId) event :
  pending_discovery_ m = [] -> discovering_ m = ∅ -> zombie_discovering_ m = ∅ ->
  cbs ≠ [] ->
  Hci.event_code event = Hci.kCommandStatusEventCode
  \/ Hci.event_code event = Hci.kCommandCompleteEventCode ->
  let m1 := foldl (fun m cb => RequestDiscovery cb m) m cbs in
  let m2 := inquiry_callback event m1 in
  packets m1 = packets m ++ inquiry_start m
  /\ count_sent Hci.kInquiry (hci_ m1) = S (count_sent Hci.kInquiry (hci_ m))
  /\ pending_discovery_ m1 = cbs
  /\ calls_ m1 = calls_ m
  /\ hci_ m2 = hci_ m1
  /\ pending_discovery_ m2 = []
  /\ calls_ m2 = calls_ m ++ resolved (Hci.ToStatus event) (next_session_ m) cbs
  /\ discovering_ m2
     = (if Hci.is_success (Hci.ToStatus event)
        then list_to_set (seq (next_session_ m) (length cbs)) else ∅).
Proof.
  intros Hp Hd Hz Hne Hcode m1 m2.
  destruct cbs as [|cb cbs]; [done|]. clear Hne.
  assert (Hm1 : m1 = set_pending_discovery_ (cb :: cbs)
                       (MaybeStartInquiry (set_pending_discovery_ [cb] m))).
  { subst m1. simpl. rewrite RequestDiscovery_starting by done.
    rewrite RequestDiscovery_all_queued.
    - rewrite MaybeStartInquiry_frame. reflexivity.
    - rewrite MaybeStartInquiry_frame. done. }
  assert (Hpk : packets m1 = packets m ++ inquiry_start m).
  { rewrite Hm1. unfold packets at 1. simpl.
    change (packets (MaybeStartInquiry (set_pending_discovery_ [cb] m))
            = packets m ++ inquiry_start m).
    rewrite MaybeStartInquiry_demand by (left; done). reflexivity. }
  assert (Hrest : pending_discovery_ m1 = cb :: cbs /\ calls_ m1 = calls_ m
                  /\ discovering_ m1 = ∅ /\ next_session_ m1 = next_session_ m).
  { rewrite Hm1, MaybeStartInquiry_frame. simpl. done. }
  destruct Hrest as (Hp1 & Hc1 & Hd1 & Hn1).
  split; [done|]. split.
  { rewrite !count_sent_packets, Hpk, count_packets_app, count_inquiry_start. lia. }
  split; [done|]. split; [done|].
  subst m2. unfold inquiry_callback.
  assert (bool_decide (Hci.event_code event = Hci.kCommandStatusEventCode)
          || bool_decide (Hci.event_code event = Hci.kCommandCompleteEventCode) = true) as ->.
  { apply orb_true_iff. destruct Hcode; [left|right]; by apply bool_decide_eq_true_2. }
  assert ((if Hci.bt_is_error (Hci.ToStatus event)
           then InvalidateDiscoverySessions m1 else m1) = m1) as ->.
  { destruct (Hci.bt_is_error _); [|done]. by apply InvalidateDiscoverySessions_idle. }
  destruct (resolve_pending_discovery_spec (Hci.ToStatus event) (pending_discovery_ m1) m1)
    as (Hp2 & Hc2 & Hh2 & _ & Hd2).
  rewrite Hp1 in *. rewrite Hp2, Hc2, Hh2, Hc1, Hn1.
  repeat split; try done.
  destruct (Hci.is_success (Hci.ToStatus event)).
  - destruct Hd2 as [-> _]. rewrite Hd1, Hn1. set_solver.
  - by destruct Hd2 as [-> _].
Qed.

(** *** Sessions over a run *)

Lemma after_refl m : after m m.
Proof. repeat split; auto. Qed.

Lemma live_after_trans m1 m2 m3 : live_after m1 m2 -> live_after m2 m3 -> live_after m1 m3.
Proof.
  intros [Hn1 Hd1] [Hn2 Hd2]. split; [lia|].
  intros x Hx. destruct (Hd2 x Hx) as [Hx2|?]; [|right; lia].
  destruct (Hd1 x Hx2); [by left | right; lia].
Qed.

Lemma after_trans m1 m2 m3 : after m1 m2 -> after m2 m3 -> after m1 m3.
Proof.
  intros [Hl1 Hz1] [Hl2 Hz2]. split; [by eapply live_after_trans|]. set_solver.
Qed.

Ltac after_by_computation :=
  intros; unfold after, live_after;
  repeat match goal with m : BrEdrDiscoveryManager |- _ => destruct m end;
  simpl;
  repeat (case_match || case_bool_decide || case_decide); simpl;
  (split; [split; [lia | intros x; set_unfold; intros; intuition (subst; lia || auto)]
          | set_solver]).

Lemma after_submit pkt k excl m : after m (submit pkt k excl m).2.
Proof. unfold submit. after_by_computation. Qed.

Lemma after_invoke c m : after m (invoke c m).
Proof. unfold invoke. after_by_computation. Qed.

Lemma after_AddDiscoverySession m : after m (AddDiscoverySession m).2.
Proof. unfold AddDiscoverySession. after_by_computation. Qed.

Ltac unfold_manager :=
  repeat progress unfold RequestDiscovery, MaybeStartInquiry, StopInquiry, RemoveDiscoverySession,
    InvalidateDiscoverySessions, AddDiscoverySession, AddDiscoverableSession,
    write_inquiry_mode_callback, RequestPeerName, remote_name_callback, report_peer,
    UpdateEIRResponseData, write_eir_callback, UpdateLocalName,
    write_local_name_callback, status_cb, SetInquiryScan, RequestDiscoverable,
    RemoveDiscoverableSession, ExtendedInquiryResult, invoke, SendExclusiveCommand,
    SendCommand, submit in *.

Lemma after_RemoveDiscoverySession s m : after m (RemoveDiscoverySession s m).
Proof. unfold_manager. after_by_computation. Qed.

Lemma after_InvalidateDiscoverySessions m : after m (InvalidateDiscoverySessions m).
Proof. unfold_manager. after_by_computation. Qed.

Lemma after_MaybeStartInquiry m : after m (MaybeStartInquiry m).
Proof. unfold_manager. after_by_computation. Qed.

Lemma after_RequestDiscovery cb m : after m (RequestDiscovery cb m).
Proof. unfold_manager. after_by_computation. Qed.

Lemma after_write_inquiry_mode_callback mode event m :
  after m (write_inquiry_mode_callback mode event m).
Proof. unfold_manager. after_by_computation. Qed.

Lemma after_remote_name_callback id event m : after m (remote_name_callback id event m).
Proof. unfold_manager. after_by_computation. Qed.

Lemma after_report_peer m id : after m (report_peer m id).
Proof. unfold_manager. after_by_computation. Qed.

Lemma after_ExtendedInquiryResult event m : after m (ExtendedInquiryResult event m).
Proof. unfold_manager. after_by_computation. Qed.

Lemma after_UpdateLocalName name cb m : after m (UpdateLocalName name cb m).
Proof. unfold_manager. after_by_computation. Qed.

Lemma after_write_local_name_callback name cb event m :
  after m (write_local_name_callback name cb event m).
Proof. unfold_manager. after_by_computation. Qed.

Lemma after_write_eir_callback name cb event m :
  after m (write_eir_callback name cb event m).
Proof. unfold_manager. after_by_computation. Qed.

Lemma after_status_cb cb status m : after m (status_cb cb status m).
Proof. unfold_manager. after_by_computation. Qed.

Lemma after_RequestDiscoverable cb m : after m (RequestDiscoverable cb m).
Proof. unfold_manager. after_by_computation. Qed.

Lemma after_RemoveDiscoverableSession s m : after m (RemoveDiscoverableSession s m).
Proof. unfold_manager. after_by_computation. Qed.

Lemma after_set_pending_discovery_ l m : after m (set_pending_discovery_ l m).
Proof. after_by_computation. Qed.

Lemma after_set_pending_discoverable_ l m : after m (set_pending_discoverable_ l m).
Proof. after_by_computation. Qed.

Lemma after_set_cache_ c m : after m (set_cache_ c m).
Proof. after_by_computation. Qed.

Lemma after_resolve_pending_discovery status cbs m :
  after m (resolve_pending_discovery status cbs m).
Proof.
  revert m. induction cbs as [|cb cbs IH]; intros m; [apply after_refl|].
  cbn [resolve_pending_discovery].
  eapply after_trans; [|apply IH]. unfold_manager. after_by_computation.
Qed.

Lemma after_resolve_pending_discoverable status cbs m :
  after m (resolve_pending_discoverable status cbs m).
Proof.
  revert m. induction cbs as [|cb cbs IH]; intros m; simpl; [apply after_refl|].
  eapply after_trans; [|apply IH].
  eapply after_trans; [apply after_set_pending_discoverable_|]. apply after_status_cb.
Qed.

Lemma after_scan_enable_cb event m : after m (scan_enable_cb event m).
Proof.
  unfold scan_enable_cb.
  repeat case_match; try apply after_resolve_pending_discoverable; apply after_submit.
Qed.

Lemma after_foldl_report_peer ids m : after m (foldl report_peer m ids).
Proof.
  revert m. induction ids as [|id ids IH]; intros m; simpl; [apply after_refl|].
  eapply after_trans; [apply after_report_peer | apply IH].
Qed.

Lemma after_InquiryResult event m : after m (InquiryResult event m).
Proof.
  unfold InquiryResult.
  repeat case_bool_decide; try apply after_refl;
    destruct (ProcessInquiryResult _ _ _ _);
    (eapply after_trans; [apply after_set_cache_ | apply after_foldl_report_peer]).
Qed.

(** The inquiry callback keeps the live sessions in order on every event,
    and the zombies on every event but Inquiry Complete. *)
Lemma live_after_inquiry_callback event m : live_after m (inquiry_callback event m).
Proof.
  unfold inquiry_callback.
  set (m1 := if Hci.bt_is_error _ then _ else m).
  assert (after m m1) as [Hm1 _].
  { subst m1. case_match; [apply after_InvalidateDiscoverySessions | apply after_refl]. }
  eapply live_after_trans; [exact Hm1|].
  case_match.
  - apply after_resolve_pending_discovery.
  - assert (live_after m1 (set_zombie_discovering_ ∅ m1)) as Hz.
    { split; [done|]. intros x Hx. by left. }
    eapply live_after_trans; [exact Hz|].
    case_match; [split; [done | by left]|]. apply after_MaybeStartInquiry.
Qed.

Lemma after_inquiry_callback event m :
  Hci.event_code event = Hci.kCommandStatusEventCode
  \/ Hci.event_code event = Hci.kCommandCompleteEventCode ->
  after m (inquiry_callback event m).
Proof.
  intros Hcode. unfold inquiry_callback.
  assert (bool_decide (Hci.event_code event = Hci.kCommandStatusEventCode)
          || bool_decide (Hci.event_code event = Hci.kCommandCompleteEventCode) = true) as ->.
  { apply orb_true_iff. destruct Hcode; [left|right]; by apply bool_decide_eq_true_2. }
  eapply after_trans; [|apply after_resolve_pending_discovery].
  case_match; [apply after_InvalidateDiscoverySessions | apply after_refl].
Qed.

Lemma after_deliver k event m :
  ~ inquiry_complete_seen (CommandEvent k event) -> after m (deliver k event m).
Proof.
  intros Hop. destruct k; cbn [deliver]; try apply after_refl.
  - apply after_write_inquiry_mode_callback.
  - apply after_inquiry_callback. simpl in Hop.
    destruct (decide (Hci.event_code event = Hci.kCommandStatusEventCode)); [by left|].
    destruct (decide (Hci.event_code event = Hci.kCommandCompleteEventCode)); [by right|].
    by destruct Hop.
  - apply after_write_eir_callback.
  - apply after_write_local_name_callback.
  - apply after_remote_name_callback.
  - apply after_scan_enable_cb.
  - apply after_resolve_pending_discoverable.
Qed.

Lemma after_step m op : ~ inquiry_complete_seen op -> after m (step m op).
Proof.
  intros Hop.
  destruct op as [cb|cb|name cb|s|s|k event|event|event]; cbn [step].
  - apply after_RequestDiscovery.
  - apply after_RequestDiscoverable.
  - apply after_UpdateLocalName.
  - apply after_RemoveDiscoverySession.
  - apply after_RemoveDiscoverableSession.
  - by apply after_deliver.
  - apply after_InquiryResult.
  - apply after_ExtendedInquiryResult.
Qed.

Lemma live_after_step m op : live_after m (step m op).
Proof.
  destruct (decide (inquiry_complete_seen op)) as [Hop|Hop]; [|by apply after_step].
  destruct op as [| | | | |k event| |]; try done. destruct k; try done.
  apply live_after_inquiry_callback.
Qed.

Lemma sessions_allocated_step m op :
  sessions_allocated m -> sessions_allocated (step m op).
Proof.
  intros Hm x Hx. destruct (live_after_step m op) as [Hn Hl].
  destruct (Hl x Hx) as [Hx'|?]; [|lia]. specialize (Hm x Hx'). lia.
Qed.

(** Every manager reached from its constructor has allocated its sessions. *)
Lemma sessions_allocated_run mode c ops : sessions_allocated (run (create mode c) ops).
Proof.
  unfold run.
  assert (sessions_allocated (create mode c)) as Hm.
  { intros x Hx. by apply elem_of_empty in Hx. }
  revert Hm. generalize (create mode c).
  induction ops as [|op ops IH]; intros m Hm; [done|].
  apply IH. by apply sessions_allocated_step.
Qed.

(** *** Sessions at the addresses of their objects *)

(** With an allocator that never gives an address twice, the steps over
    session objects are the steps above. *)
Lemma resolve_pending_discovery_at_serial status cbs m :
  resolve_pending_discovery_at (fun n => n) status cbs m
  = resolve_pending_discovery status cbs m.
Proof.
  revert m. induction cbs as [|cb cbs IH]; intros m; [done|].
  cbn [resolve_pending_discovery_at resolve_pending_discovery]. apply IH.
Qed.

Lemma resolve_pending_discoverable_at_serial status cbs m :
  resolve_pending_discoverable_at (fun n => n) status cbs m
  = resolve_pending_discoverable status cbs m.
Proof.
  revert m. induction cbs as [|cb cbs IH]; intros m; [done|].
  cbn [resolve_pending_discoverable_at resolve_pending_discoverable]. apply IH.
Qed.

Lemma step_at_serial m op : step_at (fun n => n) m op = step m op.
Proof.
  destruct op as [cb|cb|name cb|s|s|k event|event|event]; try reflexivity.
  destruct k; try reflexivity; cbn [step_at step deliver_at deliver].
  - unfold inquiry_callback_at, inquiry_callback.
    by rewrite resolve_pending_discovery_at_serial.
  - unfold scan_enable_cb_at, scan_enable_cb.
    by rewrite !resolve_pending_discoverable_at_serial.
  - apply resolve_pending_discoverable_at_serial.
Qed.

Lemma after_at_refl alloc m : after_at alloc m m.
Proof. split; [split; [lia | by left] | done]. Qed.

Lemma live_after_at_trans alloc m1 m2 m3 :
  live_after_at alloc m1 m2 -> live_after_at alloc m2 m3 -> live_after_at alloc m1 m3.
Proof.
  intros [Hn1 Hl1] [Hn2 Hl2]. split; [lia|]. intros x Hx.
  destruct (Hl2 x Hx) as [Hx2|(k & Hk & ->)].
  - destruct (Hl1 x Hx2) as [?|(k & Hk & ->)]; [by left|]. right. exists k. split; [lia|done].
  - right. exists k. split; [lia|done].
Qed.

Lemma after_at_trans alloc m1 m2 m3 :
  after_at alloc m1 m2 -> after_at alloc m2 m3 -> after_at alloc m1 m3.
Proof.
  intros [Hl1 Hz1] [Hl2 Hz2]. split; [by eapply live_after_at_trans|]. set_solver.
Qed.

Ltac at_by_computation :=
  intros; unfold after_at, live_after_at;
  repeat match goal with m : BrEdrDiscoveryManager |- _ => destruct m end;
  simpl;
  repeat (case_match || case_bool_decide || case_decide); simpl;
  (split; [split; [lia | intros x; set_unfold; intros;
                         intuition (subst; auto;
                                    try (right; eexists; split; [|reflexivity]; lia))]
          | set_solver]).

Ltac unfold_manager_at :=
  unfold RequestDiscoveryAt, RequestDiscoverableAt, AddDiscoverySessionAt,
    AddDiscoverableSessionAt, status_cb_at in *; unfold_manager.

Lemma after_at_submit alloc pkt k excl m : after_at alloc m (submit pkt k excl m).2.
Proof. unfold submit. at_by_computation. Qed.

Lemma after_at_InvalidateDiscoverySessions alloc m :
  after_at alloc m (InvalidateDiscoverySessions m).
Proof. unfold_manager. at_by_computation. Qed.

Lemma after_at_MaybeStartInquiry alloc m : after_at alloc m (MaybeStartInquiry m).
Proof. unfold_manager. at_by_computation. Qed.

Lemma after_at_RemoveDiscoverySession alloc s m :
  after_at alloc m (RemoveDiscoverySession s m).
Proof. unfold_manager. at_by_computation. Qed.

Lemma after_at_RemoveDiscoverableSession alloc s m :
  after_at alloc m (RemoveDiscoverableSession s m).
Proof. unfold_manager. at_by_computation. Qed.

Lemma after_at_RequestDiscoveryAt alloc cb m : after_at alloc m (RequestDiscoveryAt alloc cb m).
Proof. unfold_manager_at. at_by_computation. Qed.

Lemma after_at_RequestDiscoverableAt alloc cb m :
  after_at alloc m (RequestDiscoverableAt alloc cb m).
Proof. unfold_manager_at. at_by_computation. Qed.

Lemma after_at_UpdateLocalName alloc name cb m : after_at alloc m (UpdateLocalName name cb m).
Proof. unfold_manager. at_by_computation. Qed.

Lemma after_at_write_inquiry_mode_callback alloc mode event m :
  after_at alloc m (write_inquiry_mode_callback mode event m).
Proof. unfold_manager. at_by_computation. Qed.

Lemma after_at_write_eir_callback alloc name cb event m :
  after_at alloc m (write_eir_callback name cb event m).
Proof. unfold_manager. at_by_computation. Qed.

Lemma after_at_write_local_name_callback alloc name cb event m :
  after_at alloc m (write_local_name_callback name cb event m).
Proof. unfold_manager. at_by_computation. Qed.

Lemma after_at_remote_name_callback alloc id event m :
  after_at alloc m (remote_name_callback id event m).
Proof. unfold_manager. at_by_computation. Qed.

Lemma after_at_report_peer alloc m id : after_at alloc m (report_peer m id).
Proof. unfold_manager. at_by_computation. Qed.

Lemma after_at_ExtendedInquiryResult alloc event m :
  after_at alloc m (ExtendedInquiryResult event m).
Proof. unfold_manager. at_by_computation. Qed.

Lemma after_at_set_cache_ alloc c m : after_at alloc m (set_cache_ c m).
Proof. at_by_computation. Qed.

Lemma after_at_foldl_report_peer alloc ids m : after_at alloc m (foldl report_peer m ids).
Proof.
  revert m. induction ids as [|id ids IH]; intros m; simpl; [apply after_at_refl|].
  eapply after_at_trans; [apply after_at_report_peer | apply IH].
Qed.

Lemma after_at_InquiryResult alloc event m : after_at alloc m (InquiryResult event m).
Proof.
  unfold InquiryResult.
  repeat case_bool_decide; try apply after_at_refl;
    destruct (ProcessInquiryResult _ _ _ _);
    (eapply after_at_trans; [apply after_at_set_cache_ | apply after_at_foldl_report_peer]).
Qed.

Lemma after_at_resolve_pending_discovery_at alloc status cbs m :
  after_at alloc m (resolve_pending_discovery_at alloc status cbs m).
Proof.
  revert m. induction cbs as [|cb cbs IH]; intros m; [apply after_at_refl|].
  cbn [resolve_pending_discovery_at].
  eapply after_at_trans; [|apply IH]. unfold_manager_at. at_by_computation.
Qed.

Lemma after_at_resolve_pending_discoverable_at alloc status cbs m :
  after_at alloc m (resolve_pending_discoverable_at alloc status cbs m).
Proof.
  revert m. induction cbs as [|cb cbs IH]; intros m; [apply after_at_refl|].
  cbn [resolve_pending_discoverable_at].
  eapply after_at_trans; [|apply IH]. unfold_manager_at. at_by_computation.
Qed.

Lemma after_at_scan_enable_cb_at alloc event m :
  after_at alloc m (scan_enable_cb_at alloc event m).
Proof.
  unfold scan_enable_cb_at.
  repeat case_match; try apply after_at_resolve_pending_discoverable_at;
    apply after_at_submit.
Qed.

(** The inquiry callback keeps the live keys in order on every event, and the
    zombies on every event but Inquiry Complete. *)
Lemma live_after_at_inquiry_callback_at alloc event m :
  live_after_at alloc m (inquiry_callback_at alloc event m).
Proof.
  unfold inquiry_callback_at.
  set (m1 := if Hci.bt_is_error _ then _ else m).
  assert (after_at alloc m m1) as [Hm1 _].
  { subst m1. case_match; [apply after_at_InvalidateDiscoverySessions | apply after_at_refl]. }
  eapply live_after_at_trans; [exact Hm1|].
  case_match.
  - apply after_at_resolve_pending_discovery_at.
  - assert (live_after_at alloc m1 (set_zombie_discovering_ ∅ m1)) as Hz.
    { split; [done|]. intros x Hx. by left. }
    eapply live_after_at_trans; [exact Hz|].
    case_match; [split; [done | by left]|]. apply after_at_MaybeStartInquiry.
Qed.

Lemma after_at_inquiry_callback_at alloc event m :
  Hci.event_code event = Hci.kCommandStatusEventCode
  \/ Hci.event_code event = Hci.kCommandCompleteEventCode ->
  after_at alloc m (inquiry_callback_at alloc event m).
Proof.
  intros Hcode. unfold inquiry_callback_at.
  assert (bool_decide (Hci.event_code event = Hci.kCommandStatusEventCode)
          || bool_decide (Hci.event_code event = Hci.kCommandCompleteEventCode) = true) as ->.
  { apply orb_true_iff. destruct Hcode; [left|right]; by apply bool_decide_eq_true_2. }
  eapply after_at_trans; [|apply after_at_resolve_pending_discovery_at].
  case_match; [apply after_at_InvalidateDiscoverySessions | apply after_at_refl].
Qed.

Lemma after_at_deliver_at alloc k event m :
  ~ inquiry_complete_seen (CommandEvent k event) ->
  after_at alloc m (deliver_at alloc k event m).
Proof.
  intros Hop. destruct k; cbn [deliver_at deliver]; try apply after_at_refl.
  - apply after_at_write_inquiry_mode_callback.
  - apply after_at_inquiry_callback_at. simpl in Hop.
    destruct (decide (Hci.event_code event = Hci.kCommandStatusEventCode)); [by left|].
    destruct (decide (Hci.event_code event = Hci.kCommandCompleteEventCode)); [by right|].
    by destruct Hop.
  - apply after_at_write_eir_callback.
  - apply after_at_write_local_name_callback.
  - apply after_at_remote_name_callback.
  - apply after_at_scan_enable_cb_at.
  - apply after_at_resolve_pending_discoverable_at.
Qed.

Lemma after_at_step_at alloc m op :
  ~ inquiry_complete_seen op -> after_at alloc m (step_at alloc m op).
Proof.
  intros Hop.
  destruct op as [cb|cb|name cb|s|s|k event|event|event]; cbn [step_at step].
  - apply after_at_RequestDiscoveryAt.
  - apply after_at_RequestDiscoverableAt.
  - apply after_at_UpdateLocalName.
  - apply after_at_RemoveDiscoverySession.
  - apply after_at_RemoveDiscoverableSession.
  - by apply after_at_deliver_at.
  - apply after_at_InquiryResult.
  - apply after_at_ExtendedInquiryResult.
Qed.

Lemma live_after_at_step_at alloc m op : live_after_at alloc m (step_at alloc m op).
Proof.
  destruct (decide (inquiry_complete_seen op)) as [Hop|Hop]; [|by apply after_at_step_at].
  destruct op as [| | | | |k event| |]; try done. destruct k; try done.
  apply live_after_at_inquiry_callback_at.
Qed.

(** While an object is alive, no step puts its address into [discovering_]:
    only a new object's address goes in, and a new object is elsewhere. *)
Lemma vacated_step alloc gone m op n :
  well_formed_step alloc gone m op -> alive gone m n -> alloc n ∉ discovering_ m ->
  alloc n ∉ discovering_ (step_at alloc m op).
Proof.
  intros [_ Hfresh] [Hmade Halive] Hout Hin.
  destruct (live_after_at_step_at alloc m op) as [_ Hl].
  destruct (Hl _ Hin) as [?|(k & Hk & Heq)]; [done|].
  apply (Hfresh k n); [done | lia | done | done].
Qed.

(** An object that is destroyed, or whose address has left [discovering_],
    goes from live to zombie no more. *)
Lemma object_retirements_over alloc n gone m ops :
  well_formed_run alloc gone m ops ->
  n < next_session_ m -> n ∈ gone \/ alloc n ∉ discovering_ m ->
  object_retirements alloc n gone m ops = 0.
Proof.
  revert gone m. induction ops as [|op ops IH]; intros gone m Hrun Hmade Hover; [done|].
  destruct Hrun as [Hstep Hrun]. cbn [object_retirements]. cbv zeta.
  rewrite bool_decide_eq_false_2.
  2:{ intros ([_ Halive] & Hin & _). destruct Hover; done. }
  rewrite IH; [done | done | |].
  - destruct (live_after_at_step_at alloc m op) as [Hn _]. lia.
  - destruct (decide (n ∈ gone)) as [Hgone|Halive]; [left; set_solver|].
    destruct Hover as [?|Hout]; [done|]. right.
    by apply (vacated_step alloc gone m op n).
Qed.

Lemma object_retirements_at_most_once alloc n gone m ops :
  well_formed_run alloc gone m ops -> object_retirements alloc n gone m ops <= 1.
Proof.
  revert gone m. induction ops as [|op ops IH]; intros gone m Hrun; [simpl; lia|].
  destruct Hrun as [Hstep Hrun]. cbn [object_retirements]. cbv zeta.
  case_bool_decide as Hmove.
  - destruct Hmove as ([Hmade Halive] & _ & _ & Hout).
    rewrite object_retirements_over; [lia | done | | by right].
    destruct (live_after_at_step_at alloc m op) as [Hn _]. lia.
  - specialize (IH _ _ Hrun). lia.
Qed.

(** C2.  Ending a live discovery session moves it from the live set to the
    zombie set and sends no packet at all, so no Inquiry Cancel either, also
    when it was the last live session; a zombie leaves the zombie set only
    when the inquiry callback sees Inquiry Complete, wherever the sessions'
    objects lie; and over any run in which destructors run on objects that
    are alive and [new] gives an address that no object alive has, a session
    object goes from live to zombie at most once, also when its address is
    given to a later session while it is still in the zombie set. *)
Theorem discovery_session_retirement (alloc : nat -> SessionId) m (s : SessionId) :
  (s ∈ discovering_ m ->
     let m' := RemoveDiscoverySession s m in
     discovering_ m' = discovering_ m ∖ {[s]}
     /\ zombie_discovering_ m' = {[s]} ∪ zombie_discovering_ m
     /\ hci_ m' = hci_ m
     /\ (discovering_ m = {[s]} -> discovering_ m' = ∅))
  /\ (forall op, s ∈ zombie_discovering_ m ->
        s ∉ zombie_discovering_ (step m op) \/ s ∉ zombie_discovering_ (step_at alloc m op) ->
        inquiry_complete_seen op)
  /\ (forall n gone ops, well_formed_run alloc gone m ops ->
        object_retirements alloc n gone m ops <= 1).
Proof.
  split; [|split].
  - intros Hs m'. subst m'. unfold RemoveDiscoverySession.
    rewrite decide_True by done. destruct m; simpl. repeat split; try done.
    intros ->. set_solver.
  - intros op Hz Hz'. destruct (decide (inquiry_complete_seen op)) as [|Hop]; [done|].
    destruct (after_step m op Hop) as [_ Hsub].
    destruct (after_at_step_at alloc m op Hop) as [_ Hsub'].
    destruct Hz'; set_solver.
  - intros n gone ops. apply object_retirements_at_most_once.
Qed.

(** *** Inquiry Complete *)

Lemma has_demand_spec m :
  has_demand m = true <-> pending_discovery_ m ≠ [] \/ discovering_ m ≠ ∅.
Proof.
  unfold has_demand. rewrite negb_true_iff, andb_false_iff, !bool_decide_eq_false. tauto.
Qed.

Lemma MaybeStartInquiry_packets m :
  packets (MaybeStartInquiry m)
  = packets m ++ (if has_demand m then inquiry_start m else []).
Proof.
  destruct (has_demand m) eqn:Hd.
  - apply MaybeStartInquiry_demand. by apply has_demand_spec.
  - rewrite app_nil_r. unfold has_demand in Hd.
    apply negb_false_iff, andb_true_iff in Hd as [Hp Hl].
    apply bool_decide_eq_true in Hp, Hl. by rewrite MaybeStartInquiry_idle.
Qed.

(** C3, as the code has it.  On every Inquiry Complete event the zombie set
    is emptied.  When the event carries success, the live sessions and the
    queue stay as they are and an inquiry is started again exactly when there
    is demand (a live session or a queued request); nothing counts or delays
    the restarts.  When it carries an error, every live session is told of
    the error and dropped, the queue stays as it is, and no packet is sent. *)
Theorem inquiry_complete_restart m event :
  Hci.event_code event = Hci.kInquiryCompleteEventCode ->
  let m' := inquiry_callback event m in
  zombie_discovering_ m' = ∅
  /\ pending_discovery_ m' = pending_discovery_ m
  /\ (Hci.is_success (Hci.ToStatus event) = true ->
        discovering_ m' = discovering_ m
        /\ calls_ m' = calls_ m
        /\ packets m' = packets m ++ (if has_demand m then inquiry_start m else [])
        /\ count_sent Hci.kInquiry (hci_ m')
           = count_sent Hci.kInquiry (hci_ m) + (if has_demand m then 1 else 0))
  /\ (Hci.is_success (Hci.ToStatus event) = false ->
        discovering_ m' = ∅
        /\ calls_ m' = calls_ m ++ (NotifyError <$> elements (discovering_ m))
        /\ hci_ m' = hci_ m).
Proof.
  intros Hcode m'. subst m'. unfold inquiry_callback, Hci.bt_is_error.
  rewrite Hcode. simpl.
  destruct (Hci.is_success (Hci.ToStatus event)); simpl.
  - set (m2 := set_zombie_discovering_ ∅ m).
    rewrite (MaybeStartInquiry_frame m2). simpl.
    repeat split; try done.
    + change (packets (MaybeStartInquiry m2) = packets m ++ (if has_demand m then inquiry_start m else [])).
      by rewrite MaybeStartInquiry_packets.
    + change (count_sent Hci.kInquiry (hci_ (MaybeStartInquiry m2)) =
              count_sent Hci.kInquiry (hci_ m) + (if has_demand m then 1 else 0)).
      rewrite !count_sent_packets, MaybeStartInquiry_packets, count_packets_app.
      change (packets m2) with (packets m). change (has_demand m2) with (has_demand m).
      f_equal. destruct (has_demand m); [|done].
      change (inquiry_start m2) with (inquiry_start m). apply count_inquiry_start.
  - repeat split; done.
Qed.

(** *** Discoverable mode *)

Lemma resolve_pending_discoverable_spec status cbs m :
  let m' := resolve_pending_discoverable status cbs m in
  pending_discoverable_ m' = (if cbs is [] then pending_discoverable_ m else [])
  /\ calls_ m' = calls_ m ++ resolved_discoverable status (next_session_ m) cbs
  /\ hci_ m' = hci_ m
  /\ (if Hci.is_success status
      then discoverable_ m' = list_to_set (seq (next_session_ m) (length cbs)) ∪ discoverable_ m
           /\ next_session_ m' = next_session_ m + length cbs
      else discoverable_ m' = discoverable_ m /\ next_session_ m' = next_session_ m).
Proof.
  revert m. induction cbs as [|cb cbs IH]; intros m.
  - simpl. rewrite app_nil_r. repeat split; try done.
    destruct (Hci.is_success status); split; first [done | set_solver | lia].
  - cbn [resolve_pending_discoverable].
    destruct (IH (status_cb cb status (set_pending_discoverable_ cbs m)))
      as (Hp & Hc & Hh & Hd).
    cbv zeta. rewrite Hp, Hc, Hh. clear Hp Hc Hh.
    unfold resolved_discoverable, status_cb in *.
    destruct (Hci.is_success status) eqn:Hs; simpl in *.
    + destruct Hd as [Hd Hn]. rewrite Hd, Hn.
      repeat split; try done.
      * by destruct cbs.
      * rewrite <- app_assoc. simpl. rewrite Nat.add_0_r. do 2 f_equal.
        apply imap_ext. intros i x _. simpl. do 2 f_equal. lia.
      * set_solver.
    + destruct Hd as [Hd Hn]. rewrite Hd, Hn.
      repeat split; try done.
      * by destruct cbs.
      * by rewrite <- app_assoc.
Qed.

Lemma RequestDiscoverable_queued cb m :
  pending_discoverable_ m ≠ [] ->
  RequestDiscoverable cb m = set_pending_discoverable_ (pending_discoverable_ m ++ [cb]) m.
Proof. intros Hp. unfold RequestDiscoverable. by rewrite bool_decide_eq_false_2. Qed.

Lemma RequestDiscoverable_all_queued cbs m :
  pending_discoverable_ m ≠ [] ->
  foldl (fun m cb => RequestDiscoverable cb m) m cbs
  = set_pending_discoverable_ (pending_discoverable_ m ++ cbs) m.
Proof.
  revert m. induction cbs as [|cb cbs IH]; intros m Hp; simpl.
  - rewrite app_nil_r. by destruct m.
  - rewrite RequestDiscoverable_queued by done. rewrite IH.
    + destruct m; simpl. by rewrite <- app_assoc.
    + destruct m; simpl in *. by destruct pending_discoverable_0.
Qed.

(** Bits of a byte survive the cut to eight bits. *)
Lemma land_uint8_l x k : (0 <= k < 256)%Z -> Z.land (uint8 x) k = Z.land x k.
Proof.
  intros Hk. unfold uint8. change 256%Z with (2 ^ 8)%Z.
  rewrite <- Z.land_ones by lia. rewrite <- Z.land_assoc. f_equal.
  rewrite Z.land_comm. rewrite Z.land_ones by lia. apply Z.mod_small. simpl. lia.
Qed.

Lemma inquiry_bit_range : (0 <= inquiry_bit < 256)%Z.
Proof. unfold inquiry_bit, uint8. apply Z.mod_pos_bound. lia. Qed.

Lemma inquiry_bit_set scan_type :
  Z.land (uint8 (Z.lor scan_type inquiry_bit)) inquiry_bit = inquiry_bit.
Proof.
  rewrite land_uint8_l by apply inquiry_bit_range.
  apply Z.bits_inj'. intros n Hn. rewrite Z.land_spec, Z.lor_spec.
  by destruct (Z.testbit scan_type n), (Z.testbit inquiry_bit n).
Qed.

Lemma inquiry_bit_cleared scan_type :
  Z.land (uint8 (Z.land scan_type (Z.lnot inquiry_bit))) inquiry_bit = 0%Z.
Proof.
  rewrite land_uint8_l by apply inquiry_bit_range.
  rewrite <- Z.land_assoc. rewrite (Z.land_comm (Z.lnot _)).
  rewrite Z.land_lnot_diag. apply Z.land_0_r.
Qed.

Lemma packets_set_pending_discoverable_ l m :
  packets (set_pending_discoverable_ l m) = packets m.
Proof. done. Qed.

(** C5, as the code has it.  A call of [RequestDiscoverable] made while there
    is no discoverable session and no request queued sends Read Scan Enable;
    further calls made before the answer only queue their callbacks.  When
    the answer is a success and the Inquiry bit is not set, Write Scan Enable
    is sent with the bit set, and its answer resolves the queue; otherwise
    nothing is written and the answer to the read resolves the queue.  Every
    queued callback is called with the status of the resolving event, and
    with a session of its own exactly when that status is success.  Ending
    the last discoverable session, with nothing queued, sends Read Scan
    Enable and then, when the answer is a success and the bit is set, Write
    Scan Enable with the bit cleared. *)
Theorem discoverable_passes m (cbs : list CallbackId) (s : SessionId)
    (read write : Hci.EventPacket) :
  let scan_type := scan_enable read in
  (discoverable_ m = ∅ -> pending_discoverable_ m = [] -> cbs ≠ [] ->
   let m1 := foldl (fun m cb => RequestDiscoverable cb m) m cbs in
   let m2 := scan_enable_cb read m1 in
   let m3 := write_scan_enable_callback write m2 in
   packets m1 = packets m ++ [Hci.ReadScanEnable]
   /\ pending_discoverable_ m1 = cbs
   /\ calls_ m1 = calls_ m
   /\ (if Hci.is_success (Hci.ToStatus read) && negb (inquiry_scan_enabled scan_type)
       then packets m2
            = packets m1 ++ [Hci.WriteScanEnable (uint8 (Z.lor scan_type inquiry_bit))]
            /\ pending_discoverable_ m2 = cbs
            /\ calls_ m2 = calls_ m
            /\ packets m3 = packets m2
            /\ pending_discoverable_ m3 = []
            /\ calls_ m3
               = calls_ m ++ resolved_discoverable (Hci.ToStatus write) (next_session_ m) cbs
       else packets m2 = packets m1
            /\ pending_discoverable_ m2 = []
            /\ calls_ m2
               = calls_ m ++ resolved_discoverable (Hci.ToStatus read) (next_session_ m) cbs))
  /\ (discoverable_ m = {[s]} -> pending_discoverable_ m = [] ->
      let m1 := RemoveDiscoverableSession s m in
      let m2 := scan_enable_cb read m1 in
      discoverable_ m1 = ∅
      /\ packets m1 = packets m ++ [Hci.ReadScanEnable]
      /\ calls_ m2 = calls_ m
      /\ packets m2
         = packets m1
           ++ (if Hci.is_success (Hci.ToStatus read) && inquiry_scan_enabled scan_type
               then [Hci.WriteScanEnable (uint8 (Z.land scan_type (Z.lnot inquiry_bit)))]
               else []))
  /\ Z.land (uint8 (Z.lor scan_type inquiry_bit)) inquiry_bit = inquiry_bit
  /\ Z.land (uint8 (Z.land scan_type (Z.lnot inquiry_bit))) inquiry_bit = 0%Z.
Proof.
  intros scan_type. split; [|split; [|split]].
  - intros Hd Hp Hne m1 m2 m3.
    destruct cbs as [|cb cbs]; [done|]. clear Hne.
    assert (Hm1 : m1 = set_pending_discoverable_ (cb :: cbs) (SetInquiryScan m)).
    { subst m1. cbn [foldl]. unfold RequestDiscoverable at 2.
      rewrite Hp, Hd. rewrite 2!bool_decide_eq_true_2 by done. cbn [negb].
      rewrite RequestDiscoverable_all_queued by (by destruct m).
      destruct m; simpl in *. by subst. }
    assert (Hfacts : packets m1 = packets m ++ [Hci.ReadScanEnable]
                     /\ pending_discoverable_ m1 = cb :: cbs /\ calls_ m1 = calls_ m
                     /\ discoverable_ m1 = ∅ /\ next_session_ m1 = next_session_ m).
    { rewrite Hm1. unfold SetInquiryScan, SendCommand.
      rewrite packets_set_pending_discoverable_, packets_submit. by destruct m. }
    destruct Hfacts as (Hpk1 & Hp1 & Hc1 & Hd1 & Hn1).
    split; [done|]. split; [done|]. split; [done|].
    subst m3 m2. unfold scan_enable_cb, Hci.bt_is_error.
    rewrite Hd1, Hp1. rewrite bool_decide_eq_true_2 by done.
    rewrite bool_decide_eq_false_2 by done. cbn [negb orb].
    fold scan_type. fold inquiry_bit. fold (inquiry_scan_enabled scan_type).
    destruct (Hci.is_success (Hci.ToStatus read)) eqn:Hs; cbn [negb andb].
    + destruct (inquiry_scan_enabled scan_type) eqn:Hbit; cbn [negb Bool.eqb].
      * destruct (resolve_pending_discoverable_spec (Hci.ToStatus read) (cb :: cbs) m1)
          as (Hp2 & Hc2 & Hh2 & _).
        unfold packets at 1. rewrite Hp2, Hc2, Hh2, Hc1, Hn1. done.
      * unfold SendCommand. rewrite packets_submit.
        unfold write_scan_enable_callback.
        set (m2 := (submit _ _ _ m1).2).
        assert (Hm2 : pending_discoverable_ m2 = cb :: cbs /\ calls_ m2 = calls_ m
                      /\ next_session_ m2 = next_session_ m).
        { subst m2. unfold submit. simpl. done. }
        destruct Hm2 as (Hp2 & Hc2 & Hn2).
        destruct (resolve_pending_discoverable_spec (Hci.ToStatus write) (cb :: cbs) m2)
          as (Hp3 & Hc3 & Hh3 & _).
        rewrite Hp2. unfold packets at 3. rewrite Hp3, Hc3, Hh3, Hc2, Hn2.
        repeat split; try done. apply packets_submit.
    + destruct (resolve_pending_discoverable_spec (Hci.ToStatus read) (cb :: cbs) m1)
        as (Hp2 & Hc2 & Hh2 & _).
      unfold packets at 1. rewrite Hp2, Hc2, Hh2, Hc1, Hn1. done.
  - intros Hd Hp m1 m2.
    assert (Hm1 : m1 = SetInquiryScan (set_discoverable_ ∅ m)).
    { subst m1. unfold RemoveDiscoverableSession. cbn [discoverable_ set_discoverable_].
      rewrite Hd. replace ({[s]} ∖ {[s]} : gset SessionId) with (∅ : gset SessionId)
        by set_solver.
      by rewrite bool_decide_eq_true_2. }
    assert (Hfacts : packets m1 = packets m ++ [Hci.ReadScanEnable]
                     /\ pending_discoverable_ m1 = [] /\ calls_ m1 = calls_ m
                     /\ discoverable_ m1 = ∅).
    { rewrite Hm1. unfold SetInquiryScan, SendCommand. rewrite packets_submit.
      destruct m; simpl in *. by subst. }
    destruct Hfacts as (Hpk1 & Hp1 & Hc1 & Hd1).
    split; [done|]. split; [done|].
    subst m2. unfold scan_enable_cb, Hci.bt_is_error.
    rewrite Hd1, Hp1. rewrite 2!bool_decide_eq_true_2 by done. cbn [negb orb].
    fold scan_type. fold inquiry_bit. fold (inquiry_scan_enabled scan_type).
    destruct (Hci.is_success (Hci.ToStatus read)) eqn:Hs; cbn [negb andb].
    + destruct (inquiry_scan_enabled scan_type) eqn:Hbit; cbn [negb Bool.eqb].
      * unfold SendCommand. rewrite packets_submit. split; [|done].
        unfold submit. simpl. done.
      * cbn [resolve_pending_discoverable]. by rewrite app_nil_r.
    + cbn [resolve_pending_discoverable]. by rewrite app_nil_r.
  - apply inquiry_bit_set.
  - apply inquiry_bit_cleared.
Qed.

(** *** Local name *)

Lemma UpdateEIRResponseData_packets name cb m :
  packets (UpdateEIRResponseData name cb m)
  = packets m ++ [Hci.WriteExtendedInquiryResponse 0 (eir_of name)]
  /\ calls_ (UpdateEIRResponseData name cb m) = calls_ m.
Proof.
  unfold eir_of, UpdateEIRResponseData, SendCommand. rewrite !packets_submit.
  by rewrite last_snoc.
Qed.

(** The first two bytes of the payload: the length field holds the length of
    the whole name plus one, whatever was copied, and the type is Shortened
    Local Name exactly when the name does not fit. *)
Lemma eir_of_header name :
  2 <= Hci.kExtendedInquiryResponseBytes K ->
  eir_of name !! 0 = Some (uint8 (Z.of_nat (length name) + 1))
  /\ eir_of name !! 1
     = Some (uint8 (if bool_decide (Hci.kExtendedInquiryResponseMaxNameBytes K ≤ length name)
                    then Hci.kShortenedLocalName K else Hci.kCompleteLocalName K)).
Proof.
  intros Hsize. unfold eir_of, UpdateEIRResponseData, SendCommand.
  rewrite packets_submit, last_snoc. unfold Fill.
  destruct (Hci.kExtendedInquiryResponseBytes K) as [|[|n]]; [lia..|].
  simpl. done.
Qed.

(** The name bytes of the payload: the first [eir_name_size name] bytes of the
    name, when the buffer has room for the longest name. *)
Lemma eir_of_name name :
  2 + Hci.kExtendedInquiryResponseMaxNameBytes K <= Hci.kExtendedInquiryResponseBytes K ->
  take (eir_name_size name) (drop 2 (eir_of name)) = take (eir_name_size name) name.
Proof.
  intros Hsize. unfold eir_of, UpdateEIRResponseData, SendCommand.
  rewrite packets_submit, last_snoc. unfold Fill, eir_name_size.
  set (n := if bool_decide _ then _ else _).
  assert (Hn : n <= Hci.kExtendedInquiryResponseMaxNameBytes K /\ n <= length name).
  { subst n. case_bool_decide; lia. }
  destruct (Hci.kExtendedInquiryResponseBytes K) as [|[|size]]; [lia..|].
  simpl. unfold Write. simpl. rewrite !drop_0, length_replicate, Nat.sub_0_r.
  rewrite (take_take name size n). replace (size `min` n) with n by lia.
  rewrite take_app_le by (rewrite length_take; lia).
  rewrite take_take. f_equal. lia.
Qed.

(** [UpdateLocalName] sends Write Local Name and nothing else; on an error
    answer the callback gets that status and nothing is sent; on success the
    Write Extended Inquiry Response packet follows. *)
Lemma UpdateLocalName_sequence name cb m event :
  let m1 := UpdateLocalName name cb m in
  let m2 := write_local_name_callback name cb event m1 in
  (exists name_buf, packets m1 = packets m ++ [Hci.WriteLocalName name_buf])
  /\ calls_ m1 = calls_ m
  /\ (if Hci.is_success (Hci.ToStatus event)
      then packets m2 = packets m1 ++ [Hci.WriteExtendedInquiryResponse 0 (eir_of name)]
           /\ calls_ m2 = calls_ m
      else packets m2 = packets m1
           /\ calls_ m2 = calls_ m ++ [StatusCallback cb (Hci.ToStatus event)]).
Proof.
  intros m1 m2.
  assert (Hc1 : calls_ m1 = calls_ m) by done.
  split; [|split; [done|]].
  { subst m1. unfold UpdateLocalName, SendCommand. rewrite packets_submit. by eexists. }
  subst m2. unfold write_local_name_callback, Hci.hci_is_error, Hci.bt_is_error.
  destruct (Hci.is_success (Hci.ToStatus event)); cbn [negb].
  - destruct (UpdateEIRResponseData_packets name cb m1) as [-> ->]. done.
  - done.
Qed.

(** For a name that does not fit, the length field does not agree with the
    bytes copied: it counts the whole name. *)
Lemma eir_length_field_counts_whole_name name :
  2 <= Hci.kExtendedInquiryResponseBytes K ->
  Hci.kExtendedInquiryResponseMaxNameBytes K < length name < 255 ->
  exists len, eir_of name !! 0 = Some len /\ len ≠ Z.of_nat (eir_name_size name + 1).
Proof.
  intros Hsize Hlen. destruct (eir_of_header name Hsize) as [Hl _].
  eexists. split; [exact Hl|]. unfold eir_name_size.
  rewrite bool_decide_eq_true_2 by lia. unfold uint8.
  rewrite Z.mod_small by lia. lia.
Qed.

(** *** The peer directory under inquiry results *)

Implicit Types (c : PeerCache) (a b : DeviceAddress) (p q : Peer).

Lemma keeps_key_id f : keeps_key f -> keeps_id f.
Proof. intros Hf p. destruct (Hf p) as (? & ? & ?). done. Qed.

Lemma keeps_key_SetInquiryData r : keeps_key (SetInquiryData r).
Proof. by intros []. Qed.

Lemma keeps_id_SetName n : keeps_id (SetName n).
Proof. by intros []. Qed.

Lemma keeps_id_SetExtendedInquiryData r eir : keeps_id (SetExtendedInquiryData r eir).
Proof. intros []. unfold SetExtendedInquiryData. by destruct (eir_name eir). Qed.

Lemma elem_of_records_at p a c : p ∈ records_at a c <-> p ∈ peers c /\ address p = a.
Proof.
  unfold records_at. rewrite !list_elem_of_In, filter_In, bool_decide_eq_true. done.
Qed.

Lemma FindByAddress_None a c : FindByAddress c a = None <-> records_at a c = [].
Proof.
  unfold FindByAddress, records_at. induction (peers c) as [|p l IH]; simpl; [done|].
  destruct (bool_decide (address p = a)); [done | apply IH].
Qed.

Lemma FindByAddress_Some a c p :
  FindByAddress c a = Some p -> p ∈ records_at a c.
Proof.
  unfold FindByAddress. intros Hf. apply find_some in Hf as [Hin Ha].
  apply bool_decide_eq_true in Ha. apply elem_of_records_at.
  by rewrite list_elem_of_In.
Qed.

Lemma FindById_Some c id p : FindById c id = Some p -> p ∈ peers c /\ identifier p = id.
Proof.
  unfold FindById. intros Hf. apply find_some in Hf as [Hin Ha].
  apply bool_decide_eq_true in Ha. by rewrite list_elem_of_In.
Qed.

Lemma NoDup_fmap_eq {A B} (f : A -> B) (l : list A) x y :
  NoDup (f <$> l) -> x ∈ l -> y ∈ l -> f x = f y -> x = y.
Proof.
  induction l as [|z l IH]; intros Hnd Hx Hy Hxy; [by apply elem_of_nil in Hx|].
  rewrite fmap_cons in Hnd. apply NoDup_cons in Hnd as [Hz Hnd].
  apply elem_of_cons in Hx as [->|Hx]; apply elem_of_cons in Hy as [->|Hy]; try done.
  - destruct Hz. rewrite Hxy. by apply list_elem_of_fmap_2.
  - destruct Hz. rewrite <- Hxy. by apply list_elem_of_fmap_2.
  - by apply IH.
Qed.

Lemma FindById_elem c p :
  cache_ok c -> p ∈ peers c -> FindById c (identifier p) = Some p.
Proof.
  intros [Hnd _] Hp. unfold FindById.
  destruct (List.find _ (peers c)) as [q|] eqn:Hf.
  - apply find_some in Hf as [Hq Hid]. apply bool_decide_eq_true in Hid.
    f_equal. apply (NoDup_fmap_eq identifier (peers c)); try done.
    by apply list_elem_of_In.
  - apply list_elem_of_In in Hp. apply (find_none _ _ Hf) in Hp.
    by apply bool_decide_eq_false in Hp.
Qed.

Lemma peers_update_peer id f c :
  peers (update_peer id f c)
  = (fun p => if bool_decide (identifier p = id) then f p else p) <$> peers c.
Proof. done. Qed.

Lemma ids_update_peer id f c :
  keeps_id f -> identifier <$> peers (update_peer id f c) = identifier <$> peers c.
Proof.
  intros Hf. rewrite peers_update_peer, <- list_fmap_compose.
  apply list_fmap_ext. intros _ p _. simpl. case_bool_decide; [apply Hf | done].
Qed.

Lemma cache_ok_update_peer id f c :
  keeps_id f -> cache_ok c -> cache_ok (update_peer id f c).
Proof.
  intros Hf [Hnd Hlt]. split; [by rewrite ids_update_peer|].
  intros p Hp. rewrite peers_update_peer in Hp.
  apply list_elem_of_fmap in Hp as (q & -> & Hq). simpl.
  case_bool_decide; [rewrite (proj1 (Hf q))|]; by apply Hlt.
Qed.

Lemma summary_update_peer id f a c :
  keeps_key f -> summary a (update_peer id f c) = summary a c.
Proof.
  intros Hf. unfold summary, records_at. rewrite peers_update_peer.
  set (g := fun p => if bool_decide (identifier p = id) then f p else p).
  assert (Hg : keeps_key g).
  { intros p. subst g. simpl. case_bool_decide; [apply Hf | done]. }
  induction (peers c) as [|p l IH]; [done|].
  rewrite fmap_cons. simpl. destruct (Hg p) as (Hi & Ha & Hn). rewrite Ha.
  destruct (bool_decide (address p = a)); [|done].
  by rewrite !fmap_cons, Hi, Hn, IH.
Qed.

Lemma cache_ok_NewPeer c a connectable : cache_ok c -> cache_ok (NewPeer c a connectable).2.
Proof.
  intros [Hnd Hlt]. split; simpl.
  - rewrite fmap_app. apply NoDup_app. split; [done|]. split; [|apply NoDup_singleton].
    intros id Hid Hid'. apply list_elem_of_fmap in Hid as (p & -> & Hp).
    apply list_elem_of_singleton in Hid'. specialize (Hlt p Hp). simpl in *. lia.
  - intros p Hp. apply elem_of_app in Hp as [Hp|Hp].
    + specialize (Hlt p Hp). lia.
    + apply list_elem_of_singleton in Hp as ->. simpl. lia.
Qed.

Lemma summary_NewPeer c a b connectable :
  summary b (NewPeer c a connectable).2
  = summary b c ++ (if bool_decide (a = b) then [(next_peer_id c, None)] else []).
Proof.
  unfold summary, records_at. simpl. rewrite List.filter_app, fmap_app. simpl.
  by case_bool_decide.
Qed.

Lemma summary_nil a c : summary a c = [] <-> records_at a c = [].
Proof. unfold summary. split; [apply fmap_nil_inv | by intros ->]. Qed.

Lemma elem_of_summary id n a c :
  (id, n) ∈ summary a c <->
  exists p, p ∈ peers c /\ address p = a /\ identifier p = id /\ name p = n.
Proof.
  unfold summary. rewrite list_elem_of_fmap. split.
  - intros (p & [= -> ->] & Hp). apply elem_of_records_at in Hp. naive_solver.
  - intros (p & Hp & Ha & <- & <-). exists p. split; [done|].
    by apply elem_of_records_at.
Qed.

(** What [process_responses] does to the directory, address by address: an
    address that has records keeps them, an address without records gets one
    new, unnamed record when a response names it and none otherwise; and the
    peers collected are those of the responses. *)
Lemma process_responses_spec rs (U U' : gset PeerId) c c' :
  cache_ok c ->
  process_responses rs U c = (U', c') ->
  cache_ok c'
  /\ next_peer_id c <= next_peer_id c'
  /\ U ⊆ U'
  /\ (forall b, summary b c ≠ [] -> summary b c' = summary b c)
  /\ (forall b, summary b c = [] -> b ∉ inquiry_address <$> rs -> summary b c' = [])
  /\ (forall b, summary b c = [] -> b ∈ inquiry_address <$> rs ->
        exists id, summary b c' = [(id, None)] /\ next_peer_id c <= id /\ id ∈ U')
  /\ (forall id, id ∈ U' ->
        id ∈ U \/ exists b n, addr_type b = kBREDR /\ (id, n) ∈ summary b c').
Proof.
  revert U c. induction rs as [|r rs IH]; intros U c Hok Hrun.
  { simpl in Hrun. injection Hrun as <- <-. do 5 (split; [done|]). split.
    - intros b _ Hb. by apply elem_of_nil in Hb.
    - intros id Hid. by left. }
  cbn [process_responses] in Hrun. fold (inquiry_address r) in Hrun.
  set (b0 := inquiry_address r) in *.
  (* the record of this response, found or made, and the directory after it *)
  assert (exists p0 c2,
    process_responses rs ({[identifier p0]} ∪ U) c2 = (U', c')
    /\ cache_ok c2 /\ next_peer_id c <= next_peer_id c2
    /\ (forall b, summary b c ≠ [] -> summary b c2 = summary b c)
    /\ (forall b, summary b c = [] -> b ≠ b0 -> summary b c2 = [])
    /\ (summary b0 c = [] ->
          summary b0 c2 = [(identifier p0, None)] /\ next_peer_id c <= identifier p0)
    /\ (exists n, (identifier p0, n) ∈ summary b0 c2))
    as (p0 & c2 & Hrest & Hok2 & Hnext2 & Hkeep2 & Hnone2 & Hnew2 & Hin2).
  { destruct (FindByAddress c b0) as [p0|] eqn:Hfind.
    - exists p0, (update_peer (identifier p0) (SetInquiryData r) c).
      split; [done|].
      split.
      { apply cache_ok_update_peer; [apply keeps_key_id, keeps_key_SetInquiryData | done]. }
      split; [done|].
      assert (Hsum : forall b, summary b (update_peer (identifier p0) (SetInquiryData r) c)
                               = summary b c).
      { intros b. apply summary_update_peer, keeps_key_SetInquiryData. }
      apply FindByAddress_Some in Hfind.
      assert ((identifier p0, name p0) ∈ summary b0 c) as Hp0.
      { unfold summary. by apply (list_elem_of_fmap_2 (fun p => (identifier p, name p))). }
      split; [|split; [|split]].
      + intros b _. apply Hsum.
      + intros b Hb _. by rewrite Hsum.
      + intros Hnil. rewrite Hnil in Hp0. by apply elem_of_nil in Hp0.
      + exists (name p0). by rewrite Hsum.
    - set (new := NewPeer c b0 true) in *.
      exists new.1, (update_peer (identifier new.1) (SetInquiryData r) new.2).
      split; [by destruct new|].
      split.
      { apply cache_ok_update_peer; [apply keeps_key_id, keeps_key_SetInquiryData|].
        by apply cache_ok_NewPeer. }
      split; [simpl; lia|].
      assert (Hsum : forall b,
        summary b (update_peer (identifier new.1) (SetInquiryData r) new.2)
        = summary b c ++ (if bool_decide (b0 = b) then [(next_peer_id c, None)] else [])).
      { intros b. rewrite summary_update_peer by apply keeps_key_SetInquiryData.
        apply summary_NewPeer. }
      apply FindByAddress_None, summary_nil in Hfind.
      split; [|split; [|split]].
      + intros b Hb. rewrite Hsum. case_bool_decide; [by subst | by rewrite app_nil_r].
      + intros b Hb Hne. rewrite Hsum, Hb. by rewrite bool_decide_eq_false_2.
      + intros _. split; [|simpl; lia]. rewrite Hsum, Hfind. by rewrite bool_decide_eq_true_2.
      + exists None. rewrite Hsum, Hfind, bool_decide_eq_true_2 by done.
        simpl. apply list_elem_of_singleton. done. }
  clear Hrun.
  destruct (IH _ _ Hok2 Hrest) as (Hok' & Hnext' & Hsub' & Hkeep' & Hnone' & Hnew' & HU').
  assert (Hin' : exists n, (identifier p0, n) ∈ summary b0 c').
  { destruct Hin2 as [n Hn]. exists n. rewrite Hkeep'; [done|].
    intros Hnil. rewrite Hnil in Hn. by apply elem_of_nil in Hn. }
  split; [done|]. split; [lia|]. split; [set_solver|].
  split; [|split; [|split]].
  - intros b Hb. rewrite <- (Hkeep2 b Hb). apply Hkeep'. by rewrite Hkeep2.
  - intros b Hb Hnot. rewrite fmap_cons in Hnot. apply not_elem_of_cons in Hnot as [Hne Hnot].
    apply Hnone'; [|done]. by apply Hnone2.
  - intros b Hb Hin. rewrite fmap_cons in Hin.
    destruct (decide (b = b0)) as [->|Hne].
    + destruct (Hnew2 Hb) as [Hs2 Hid]. exists (identifier p0).
      split; [|split; [done | set_solver]].
      rewrite Hkeep'; [done|]. by rewrite Hs2.
    + apply elem_of_cons in Hin as [?|Hin]; [done|].
      destruct (Hnew' b (Hnone2 b Hb Hne) Hin) as (id & Hs & Hid & HidU).
      exists id. split; [done|]. split; [lia | done].
  - intros id Hid. destruct (HU' id Hid) as [HidU|?]; [|by right].
    apply elem_of_union in HidU as [Hid0|?]; [|by left].
    apply elem_of_singleton in Hid0 as ->. right.
    destruct Hin' as [n Hn]. by exists b0, n.
Qed.

(** *** Remote name requests *)

Lemma count_name_requests_app v l1 l2 :
  count_name_requests v (l1 ++ l2) = count_name_requests v l1 + count_name_requests v l2.
Proof. unfold count_name_requests. by rewrite List.filter_app, length_app. Qed.

Lemma report_peer_spec v m id :
  let m' := report_peer m id in
  cache_ m' = cache_ m
  /\ count_name_requests v (packets m')
     = count_name_requests v (packets m) + (if wants_name v m id then 1 else 0)
  /\ requesting_names_ m ⊆ requesting_names_ m'
  /\ (forall x, x ∈ requesting_names_ m' ->
        x ∈ requesting_names_ m \/ x = id /\ is_Some (FindById (cache_ m) id))
  /\ (takes_name_requests v -> wants_name v m id = true -> id ∈ requesting_names_ m').
Proof.
  unfold report_peer, wants_name, RequestPeerName, SendExclusiveCommand.
  destruct (FindById (cache_ m) id) as [p|] eqn:Hfind; cbn zeta.
  2:{ simpl. rewrite Nat.add_0_r. repeat split; try done. intros x Hx. by left. }
  destruct (name p) as [n|] eqn:Hname.
  { simpl. rewrite Nat.add_0_r. repeat split; try done. intros x Hx. by left. }
  rewrite bool_decide_eq_true_2 by done.
  destruct (decide (id ∈ requesting_names_ m)) as [Hreq|Hreq].
  { rewrite (bool_decide_eq_false_2 (id ∉ _)) by tauto.
    simpl. rewrite Nat.add_0_r. repeat split; try done. intros x Hx. by left. }
  rewrite (bool_decide_eq_true_2 (id ∉ _)) by done. cbn [andb].
  set (pkt := Hci.RemoteNameRequest _ _ _).
  destruct (submit pkt (OnRemoteNameRequest id) _ m) as [cmd_id m1] eqn:Hsub.
  assert (Hm1 : cache_ m1 = cache_ m /\ packets m1 = packets m ++ [pkt]
                /\ requesting_names_ m1 = requesting_names_ m
                /\ cmd_id = cmd_accepted (packet <$> hci_ m) pkt).
  { pose proof (packets_submit pkt (OnRemoteNameRequest id)
                  (Some (Hci.kRemoteNameRequestCompleteEventCode, [Hci.kInquiry])) m) as Hp.
    rewrite Hsub in Hp. unfold submit in Hsub. injection Hsub as <- <-. done. }
  destruct Hm1 as (Hc1 & Hp1 & Hr1 & Hid).
  assert (Hcount : count_name_requests v (packets m1)
                   = count_name_requests v (packets m)
                     + (if bool_decide (addr_value (address p) = v) then 1 else 0)).
  { rewrite Hp1, count_name_requests_app. f_equal. subst pkt.
    unfold count_name_requests. simpl. by case_bool_decide. }
  destruct cmd_id; simpl.
  - rewrite Hc1, Hr1. split; [done|]. split; [done|]. split; [set_solver|]. split.
    + intros x Hx. apply elem_of_union in Hx as [Hx|Hx]; [|by left].
      apply elem_of_singleton in Hx. right. split; [done | by eexists].
    + intros _ _. set_solver.
  - rewrite Hc1, Hr1. split; [done|]. split; [done|]. split; [done|]. split.
    + intros x Hx. by left.
    + intros Htakes Hv. apply bool_decide_eq_true in Hv. subst pkt.
      rewrite Hv in Hid. by rewrite Htakes in Hid.
Qed.

Lemma wants_name_ext v m m' id :
  cache_ m' = cache_ m ->
  (id ∈ requesting_names_ m' <-> id ∈ requesting_names_ m) ->
  wants_name v m' id = wants_name v m id.
Proof.
  intros Hc Hr. unfold wants_name. rewrite Hc.
  destruct (FindById (cache_ m) id); [|done]. do 2 f_equal.
  apply bool_decide_ext. by rewrite Hr.
Qed.

Lemma foldl_report_peer_spec v ids m :
  NoDup ids ->
  let m' := foldl report_peer m ids in
  cache_ m' = cache_ m
  /\ count_name_requests v (packets m')
     = count_name_requests v (packets m) + length (List.filter (wants_name v m) ids)
  /\ requesting_names_ m ⊆ requesting_names_ m'
  /\ (forall x, x ∈ requesting_names_ m' ->
        x ∈ requesting_names_ m \/ x ∈ ids /\ is_Some (FindById (cache_ m) x))
  /\ (takes_name_requests v -> forall id, id ∈ ids -> wants_name v m id = true ->
        id ∈ requesting_names_ m').
Proof.
  revert m. induction ids as [|id ids IH]; intros m Hnd.
  { simpl. rewrite Nat.add_0_r. do 3 (split; [done|]). split.
    - intros x Hx. by left.
    - intros _ id Hid. by apply elem_of_nil in Hid. }
  apply NoDup_cons in Hnd as [Hid Hnd]. cbn [foldl].
  destruct (report_peer_spec v m id) as (Hc1 & Hn1 & Hsub1 & Hreq1 & Htake1).
  destruct (IH (report_peer m id) Hnd) as (Hc & Hn & Hsub & Hreq & Htake).
  cbv zeta in *.
  assert (Hsame : forall y, y ∈ ids ->
            wants_name v (report_peer m id) y = wants_name v m y).
  { intros y Hy. apply wants_name_ext; [done|]. split; [|by apply Hsub1].
    intros Hy1. destruct (Hreq1 y Hy1) as [|[-> _]]; done. }
  split; [by rewrite Hc|]. split; [|split; [set_solver|split]].
  - rewrite Hn, Hn1. cbn [List.filter].
    rewrite (filter_ext_in (wants_name v (report_peer m id)) (wants_name v m)).
    + destruct (wants_name v m id); simpl; lia.
    + intros y Hy. apply Hsame. by apply list_elem_of_In.
  - intros x Hx. destruct (Hreq x Hx) as [Hx1|[Hx1 Hf]].
    + destruct (Hreq1 x Hx1) as [|[-> Hf]]; [by left|]. right. split; [left|done].
    + right. split; [by right|]. by rewrite <- Hc1.
  - intros Ht y Hy Hw. apply elem_of_cons in Hy as [->|Hy].
    + apply Hsub. by apply Htake1.
    + apply (Htake Ht y Hy). by rewrite Hsame.
Qed.

Lemma filter_only {A} (f : A -> bool) (l : list A) (x : A) :
  NoDup l -> x ∈ l -> f x = true -> (forall y, y ∈ l -> f y = true -> y = x) ->
  List.filter f l = [x].
Proof.
  induction l as [|z l IH]; intros Hnd Hx Hfx Huniq; [by apply elem_of_nil in Hx|].
  apply NoDup_cons in Hnd as [Hz Hnd]. simpl.
  assert (Hnone : forall l', (forall y, y ∈ l' -> f y = true -> y = x) -> x ∉ l' ->
                             List.filter f l' = []).
  { clear. intros l' Hu Hx. induction l' as [|y l' IH]; [done|]. simpl.
    apply not_elem_of_cons in Hx as [Hne Hx].
    destruct (f y) eqn:Hy.
    - destruct Hne. symmetry. apply Hu; [left | done].
    - apply IH; [|done]. intros y' Hy'. apply Hu. by right. }
  apply elem_of_cons in Hx as [->|Hx].
  - rewrite Hfx. f_equal. apply Hnone; [|done]. intros y Hy. apply Huniq. by right.
  - destruct (f z) eqn:Hfz.
    + assert (z = x) as -> by (apply Huniq; [left | done]). done.
    + apply IH; try done. intros y Hy. apply Huniq. by right.
Qed.

Lemma filter_none {A} (f : A -> bool) (l : list A) :
  (forall y, y ∈ l -> f y = false) -> List.filter f l = [].
Proof.
  induction l as [|z l IH]; intros Hf; [done|]. simpl.
  rewrite (Hf z) by left. apply IH. intros y Hy. apply Hf. by right.
Qed.

(** [InquiryResult] as a pass over the directory followed by the reports. *)
Lemma InquiryResult_unfold event m :
  exists (U : gset PeerId) c,
    InquiryResult event m = foldl report_peer (set_cache_ c m) (elements U)
    /\ ((U, c) = (∅, cache_ m)
        \/ process_responses (responses event) ∅ (cache_ m) = (U, c))
    /\ (well_sized event -> process_responses (responses event) ∅ (cache_ m) = (U, c)).
Proof.
  assert (exists (U : gset PeerId) c,
            m = foldl report_peer (set_cache_ c m) (elements U)
            /\ (U, c) = (∅, cache_ m)) as (U0 & c0 & Hm0 & HU0).
  { exists ∅, (cache_ m). split; [|done]. rewrite elements_empty. by destruct m. }
  unfold InquiryResult, well_sized, ProcessInquiryResult.
  destruct (decide (Hci.event_code event = Hci.kInquiryResultEventCode)) as [Hc|Hc].
  - rewrite bool_decide_eq_true_2 by done.
    destruct (_ =? 0)%Z eqn:Hsz; cbn [negb].
    + destruct (process_responses _ _ _) as [U c] eqn:Hrun. exists U, c.
      split; [done|]. split; [by right | done].
    + exists U0, c0. injection HU0 as HU Hc0; subst U0 c0. split; [done|]. split; [by left|].
      rewrite Hc. intros [[_ Hz]|[? _]]; [|done].
      apply Z.eqb_neq in Hsz. done.
  - rewrite bool_decide_eq_false_2 by done.
    destruct (decide (Hci.event_code event = Hci.kInquiryResultWithRSSIEventCode)) as [Hc'|Hc'].
    + rewrite bool_decide_eq_true_2 by done.
      destruct (_ =? 0)%Z eqn:Hsz; cbn [negb].
      * destruct (process_responses _ _ _) as [U c] eqn:Hrun. exists U, c.
        split; [done|]. split; [by right | done].
      * exists U0, c0. injection HU0 as HU Hc0; subst U0 c0. split; [done|]. split; [by left|].
        intros [[? _]|[_ Hz]]; [done|].
        apply Z.eqb_neq in Hsz. done.
    + rewrite bool_decide_eq_false_2 by done.
      exists U0, c0. split; [done|]. split; [by left|]. intros [[? _]|[? _]]; done.
Qed.

Lemma summary_singleton a c id n :
  summary a c = [(id, n)] ->
  exists p, records_at a c = [p] /\ identifier p = id /\ name p = n.
Proof.
  unfold summary. destruct (records_at a c) as [|p [|q l]]; try done.
  intros [= <- <-]. by exists p.
Qed.

(** A reported peer whose record carries the [bd_addr] of a BR/EDR address
    with a single record is that record. *)
Lemma reported_peer_is_record c a id n0 y q :
  cache_ok c -> addr_type a = kBREDR -> summary a c = [(id, n0)] ->
  (exists b n, addr_type b = kBREDR /\ (y, n) ∈ summary b c) ->
  FindById c y = Some q -> addr_value (address q) = addr_value a ->
  y = id.
Proof.
  intros Hok Ha Hsum (b & n & Hb & Hy) Hfind Hv.
  apply elem_of_summary in Hy as (q' & Hq' & Hab & Hid & _).
  rewrite <- Hid in Hfind. rewrite (FindById_elem c q' Hok Hq') in Hfind.
  injection Hfind as <-.
  assert (b = a) as ->.
  { destruct a, b; simpl in *. rewrite Hab in Hv. simpl in Hv. congruence. }
  assert ((identifier q', name q') ∈ summary a c) as Hin.
  { apply elem_of_summary. by exists q'. }
  rewrite Hsum in Hin. apply list_elem_of_singleton in Hin. congruence.
Qed.

(** C4.  Let an Inquiry Result event (with or without RSSI) of the right
    size carry a response whose address has no record in the peer directory,
    in a manager whose directory and requests are in order.  Then handling
    the event leaves exactly one record for that address, new and without a
    name, and hands the command channel exactly one Remote Name Request for
    it; the request is in flight when the channel took it; and while it is
    in flight, handling any further event of that kind sends no Remote Name
    Request for the address and adds no record for it. *)
Theorem inquiry_result_names_new_peer m event event2 (r : Hci.InquiryResult) :
  manager_ok m ->
  well_sized event ->
  r ∈ responses event ->
  FindByAddress (cache_ m) (inquiry_address r) = None ->
  let a := inquiry_address r in
  let v := Hci.bd_addr r in
  let m1 := InquiryResult event m in
  let m2 := InquiryResult event2 m1 in
  exists p,
    records_at a (cache_ m1) = [p]
    /\ name p = None
    /\ next_peer_id (cache_ m) <= identifier p
    /\ count_name_requests v (packets m1) = S (count_name_requests v (packets m))
    /\ (takes_name_requests v -> identifier p ∈ requesting_names_ m1)
    /\ (identifier p ∈ requesting_names_ m1 ->
          count_name_requests v (packets m2) = count_name_requests v (packets m1)
          /\ exists p2, records_at a (cache_ m2) = [p2] /\ identifier p2 = identifier p).
Proof.
  intros [Hok Hreq] Hsize Hr Hnew a v m1 m2.
  (* the first event *)
  destruct (InquiryResult_unfold event m) as (U & c & Hm1 & _ & Hrun).
  specialize (Hrun Hsize). fold m1 in Hm1.
  destruct (process_responses_spec _ _ _ _ _ Hok Hrun)
    as (Hok' & Hnext & _ & _ & _ & Hfresh & HU).
  apply FindByAddress_None, summary_nil in Hnew.
  destruct (Hfresh a Hnew) as (id & Hsum & Hid & HidU).
  { by apply (list_elem_of_fmap_2 inquiry_address). }
  destruct (summary_singleton _ _ _ _ Hsum) as (p & Hrec & Hpid & Hpname).
  destruct (foldl_report_peer_spec v (elements U) (set_cache_ c m) (NoDup_elements U))
    as (Hc1 & Hn1 & Hsub1 & _ & Htake1).
  cbv zeta in *. rewrite <- Hm1 in Hc1, Hn1, Hsub1, Htake1.
  change (cache_ (set_cache_ c m)) with c in *.
  change (packets (set_cache_ c m)) with (packets m) in *.
  assert (Hp : p ∈ peers c /\ address p = a).
  { apply elem_of_records_at. rewrite Hrec. by left. }
  destruct Hp as [Hp Hpa].
  assert (Hwant : wants_name v (set_cache_ c m) id = true).
  { unfold wants_name. cbn [cache_ set_cache_]. rewrite <- Hpid.
    rewrite (FindById_elem c p Hok' Hp). rewrite Hpname, Hpa.
    rewrite !bool_decide_eq_true_2; try done.
    intros Hin. cbn [requesting_names_ set_cache_] in Hin. apply Hreq in Hin. lia. }
  assert (Honly : List.filter (wants_name v (set_cache_ c m)) (elements U) = [id]).
  { apply filter_only; [apply NoDup_elements | by apply elem_of_elements | done |].
    intros y Hy Hw. apply elem_of_elements in Hy.
    destruct (HU y Hy) as [Hy0|Hy']; [by apply elem_of_empty in Hy0|].
    unfold wants_name in Hw. cbn [cache_ set_cache_] in Hw.
    destruct (FindById c y) as [q|] eqn:Hq; [|done].
    apply andb_true_iff in Hw as [_ Hv]. apply bool_decide_eq_true in Hv.
    by apply (reported_peer_is_record c a id None y q). }
  exists p. rewrite Hc1. split; [done|]. split; [done|]. split; [lia|]. split.
  { rewrite Hn1, Honly. simpl. lia. }
  split.
  { intros Ht. rewrite Hpid. apply (Htake1 Ht); [by apply elem_of_elements | done]. }
  (* the second event *)
  intros Hflight. rewrite Hpid in Hflight.
  destruct (InquiryResult_unfold event2 m1) as (U2 & c2 & Hm2 & Hrun2 & _).
  fold m2 in Hm2. rewrite Hc1 in Hrun2.
  destruct (foldl_report_peer_spec v (elements U2) (set_cache_ c2 m1) (NoDup_elements U2))
    as (Hc2 & Hn2 & _).
  cbv zeta in *. rewrite <- Hm2 in Hc2, Hn2.
  change (cache_ (set_cache_ c2 m1)) with c2 in *.
  change (packets (set_cache_ c2 m1)) with (packets m1) in *.
  assert (Hsecond : cache_ok c2 /\ summary a c2 = [(id, None)]
                    /\ forall y, y ∈ U2 ->
                         exists b n, addr_type b = kBREDR /\ (y, n) ∈ summary b c2).
  { destruct Hrun2 as [Hnoop|Hrun2].
    - injection Hnoop as -> ->. split; [done|]. split; [done|].
      intros y Hy. by apply elem_of_empty in Hy.
    - destruct (process_responses_spec _ _ _ _ _ Hok' Hrun2)
        as (Hok2 & _ & _ & Hkeep2 & _ & _ & HU2).
      split; [done|]. split.
      + rewrite Hkeep2; [done|]. by rewrite Hsum.
      + intros y Hy. destruct (HU2 y Hy) as [Hy0|?]; [|done].
        by apply elem_of_empty in Hy0. }
  destruct Hsecond as (Hok2 & Hsum2 & HU2).
  split.
  - rewrite Hn2. rewrite filter_none; [simpl; lia|].
    intros y Hy. apply elem_of_elements in Hy.
    unfold wants_name. cbn [cache_ set_cache_ requesting_names_].
    destruct (FindById c2 y) as [q|] eqn:Hq; [|done].
    destruct (bool_decide (addr_value (address q) = v)) eqn:Hv;
      [|by rewrite andb_false_r].
    apply bool_decide_eq_true in Hv.
    assert (y = id) as ->
      by (by apply (reported_peer_is_record c2 a id None y q Hok2 eq_refl Hsum2 (HU2 y Hy))).
    rewrite (bool_decide_eq_false_2 (id ∉ _)) by tauto. by rewrite andb_false_r.
  - rewrite Hc2. destruct (summary_singleton _ _ _ _ Hsum2) as (p2 & Hrec2 & Hp2 & _).
    exists p2. by rewrite Hp2, Hpid.
Qed.

(** *** [manager_ok] is an invariant *)

Lemma same_directory_refl m : same_directory m m.
Proof. done. Qed.

Lemma same_directory_trans m1 m2 m3 :
  same_directory m1 m2 -> same_directory m2 m3 -> same_directory m1 m3.
Proof. intros [? ?] [? ?]. split; congruence. Qed.

Lemma manager_ok_same_directory m m' : same_directory m m' -> manager_ok m -> manager_ok m'.
Proof. intros [Hc Hr] [Hok Hreq]. split; rewrite ?Hc, ?Hr; done. Qed.

Ltac same_by_computation :=
  intros; unfold same_directory;
  repeat match goal with m : BrEdrDiscoveryManager |- _ => destruct m end;
  simpl; repeat (case_match || case_bool_decide || case_decide); done.

Lemma same_directory_resolve_pending_discovery status cbs m :
  same_directory m (resolve_pending_discovery status cbs m).
Proof.
  revert m. induction cbs as [|cb cbs IH]; intros m; [done|].
  cbn [resolve_pending_discovery].
  eapply same_directory_trans; [|apply IH]. unfold_manager. same_by_computation.
Qed.

Lemma same_directory_resolve_pending_discoverable status cbs m :
  same_directory m (resolve_pending_discoverable status cbs m).
Proof.
  revert m. induction cbs as [|cb cbs IH]; intros m; [done|].
  cbn [resolve_pending_discoverable].
  eapply same_directory_trans; [|apply IH]. unfold_manager. same_by_computation.
Qed.

Lemma same_directory_inquiry_callback event m :
  same_directory m (inquiry_callback event m).
Proof.
  unfold inquiry_callback.
  set (m1 := if Hci.bt_is_error _ then _ else m).
  assert (same_directory m m1) as Hm1.
  { subst m1. unfold_manager. same_by_computation. }
  eapply same_directory_trans; [exact Hm1|].
  case_match; [apply same_directory_resolve_pending_discovery|].
  unfold_manager. same_by_computation.
Qed.

Lemma same_directory_scan_enable_cb event m : same_directory m (scan_enable_cb event m).
Proof.
  unfold scan_enable_cb.
  repeat case_match; try apply same_directory_resolve_pending_discoverable;
    unfold_manager; same_by_computation.
Qed.

Lemma manager_ok_set_cache_ c m :
  manager_ok m -> cache_ok c -> next_peer_id (cache_ m) <= next_peer_id c ->
  manager_ok (set_cache_ c m).
Proof.
  intros [_ Hreq] Hok Hnext. split; [done|]. intros id Hid.
  specialize (Hreq id Hid). simpl. lia.
Qed.

Lemma manager_ok_report_peer m id : manager_ok m -> manager_ok (report_peer m id).
Proof.
  intros [Hok Hreq].
  destruct (report_peer_spec 0%Z m id) as (Hc & _ & _ & Hr & _). cbv zeta in *.
  split; rewrite Hc; [done|]. intros x Hx.
  destruct (Hr x Hx) as [?|[-> [p Hp]]]; [by apply Hreq|].
  apply FindById_Some in Hp as [Hp <-]. by apply Hok.
Qed.

Lemma manager_ok_foldl_report_peer ids m :
  manager_ok m -> manager_ok (foldl report_peer m ids).
Proof.
  revert m. induction ids as [|id ids IH]; intros m Hm; [done|].
  apply IH. by apply manager_ok_report_peer.
Qed.

Lemma manager_ok_InquiryResult event m : manager_ok m -> manager_ok (InquiryResult event m).
Proof.
  intros Hm. destruct (InquiryResult_unfold event m) as (U & c & -> & Hrun & _).
  apply manager_ok_foldl_report_peer.
  destruct Hrun as [Hnoop|Hrun].
  - injection Hnoop as -> ->. apply manager_ok_set_cache_; [done | apply Hm | done].
  - destruct (process_responses_spec _ _ _ _ _ (proj1 Hm) Hrun) as (Hok & Hnext & _).
    by apply manager_ok_set_cache_.
Qed.

Lemma manager_ok_ExtendedInquiryResult event m :
  manager_ok m -> manager_ok (ExtendedInquiryResult event m).
Proof.
  intros Hm. unfold ExtendedInquiryResult.
  case_match; [done|]. case_match; try done.
  set (a := {| addr_type := kBREDR; addr_value := _ |}).
  destruct (FindByAddress (cache_ m) a) as [p|].
  - apply manager_ok_report_peer, manager_ok_set_cache_; [done | | done].
    apply cache_ok_update_peer; [apply keeps_id_SetExtendedInquiryData | apply Hm].
  - apply manager_ok_report_peer, manager_ok_set_cache_; [done | | simpl; lia].
    apply cache_ok_update_peer; [apply keeps_id_SetExtendedInquiryData|].
    apply (cache_ok_NewPeer (cache_ m) a true), Hm.
Qed.

Lemma manager_ok_remote_name_callback id event m :
  manager_ok m -> manager_ok (remote_name_callback id event m).
Proof.
  intros [Hok Hreq]. unfold remote_name_callback.
  assert (Herase : manager_ok (set_requesting_names_ (requesting_names_ m ∖ {[id]}) m)).
  { split; [done|]. intros x Hx. simpl in *. apply Hreq. set_solver. }
  case_match; [done|]. case_match; [done|].
  apply manager_ok_set_cache_; [done | | done].
  apply cache_ok_update_peer; [apply keeps_id_SetName | done].
Qed.

Lemma manager_ok_deliver k event m : manager_ok m -> manager_ok (deliver k event m).
Proof.
  intros Hm. destruct k; cbn [deliver]; try done.
  - revert Hm. apply manager_ok_same_directory. unfold_manager. same_by_computation.
  - revert Hm. apply manager_ok_same_directory, same_directory_inquiry_callback.
  - revert Hm. apply manager_ok_same_directory. unfold_manager. same_by_computation.
  - revert Hm. apply manager_ok_same_directory. unfold_manager. same_by_computation.
  - by apply manager_ok_remote_name_callback.
  - revert Hm. apply manager_ok_same_directory, same_directory_scan_enable_cb.
  - revert Hm. apply manager_ok_same_directory, same_directory_resolve_pending_discoverable.
Qed.

Lemma manager_ok_step m op : manager_ok m -> manager_ok (step m op).
Proof.
  intros Hm. destruct op as [cb|cb|name cb|s|s|k event|event|event]; cbn [step].
  - revert Hm. apply manager_ok_same_directory. unfold_manager. same_by_computation.
  - revert Hm. apply manager_ok_same_directory. unfold_manager. same_by_computation.
  - revert Hm. apply manager_ok_same_directory. unfold_manager. same_by_computation.
  - revert Hm. apply manager_ok_same_directory. unfold_manager. same_by_computation.
  - revert Hm. apply manager_ok_same_directory. unfold_manager. same_by_computation.
  - by apply manager_ok_deliver.
  - by apply manager_ok_InquiryResult.
  - by apply manager_ok_ExtendedInquiryResult.
Qed.

(** Every manager reached from its constructor over a directory in order is
    in order. *)
Lemma manager_ok_run mode c ops : cache_ok c -> manager_ok (run (create mode c) ops).
Proof.
  intros Hc. unfold run.
  assert (manager_ok (create mode c)) as Hm by (split; [done | set_solver]).
  revert Hm. generalize (create mode c). induction ops as [|op ops IH]; intros m Hm; [done|].
  apply IH. by apply manager_ok_step.
Qed.

(** ** Further behaviour of the manager *)

(** *** Requests made while the manager is already at work *)

(** X1.  A request for discovery made while nothing is queued and a live or
    a zombie session exists is served at once: no packet is handed to the
    command channel, the callback is called with success and a session made
    for it, that session joins the live ones, and the zombies stay.  The
    session is none of the live ones when those came from the allocator.
    The inquiry that is running serves the new session: when it completes
    with success, an inquiry is started again, also when only zombies were
    left at the time of the request. *)
Theorem request_discovery_while_inquiring m cb event :
  pending_discovery_ m = [] ->
  discovering_ m ≠ ∅ \/ zombie_discovering_ m ≠ ∅ ->
  let m' := RequestDiscovery cb m in
  hci_ m' = hci_ m
  /\ calls_ m' = calls_ m ++ [DiscoveryCallback cb Hci.Success (Some (next_session_ m))]
  /\ discovering_ m' = {[next_session_ m]} ∪ discovering_ m
  /\ zombie_discovering_ m' = zombie_discovering_ m
  /\ pending_discovery_ m' = []
  /\ (sessions_allocated m -> next_session_ m ∉ discovering_ m)
  /\ (Hci.event_code event = Hci.kInquiryCompleteEventCode ->
      Hci.is_success (Hci.ToStatus event) = true ->
      packets (inquiry_callback event m') = packets m ++ inquiry_start m
      /\ discovering_ (inquiry_callback event m') = {[next_session_ m]} ∪ discovering_ m).
Proof.
  intros Hp Hrun m'.
  assert (Hm' : m' = invoke (DiscoveryCallback cb Hci.Success (Some (next_session_ m)))
                       (AddDiscoverySession m).2).
  { subst m'. unfold RequestDiscovery. rewrite Hp.
    rewrite bool_decide_eq_true_2 by done. cbn [negb].
    assert (negb (bool_decide (discovering_ m = ∅))
            || negb (bool_decide (zombie_discovering_ m = ∅)) = true) as ->.
    { apply orb_true_iff. destruct Hrun as [Hd|Hz]; [left|right];
        by rewrite bool_decide_eq_false_2. }
    done. }
  rewrite Hm'. clear Hm' m'. simpl.
  do 5 (split; [done|]). split.
  { intros Hm Hin. specialize (Hm _ Hin). lia. }
  intros Hcode Hok. unfold inquiry_callback, Hci.bt_is_error. rewrite Hcode, Hok. simpl.
  set (m2 := set_zombie_discovering_ _ _).
  rewrite (MaybeStartInquiry_frame m2). split; [|done].
  change (packets (MaybeStartInquiry m2) = packets m ++ inquiry_start m).
  rewrite MaybeStartInquiry_demand; [done|]. right. simpl. set_solver.
Qed.

(** *** Discoverable sessions are counted *)

Lemma RemoveDiscoverableSession_spec m (s : SessionId) :
  let m' := RemoveDiscoverableSession s m in
  discoverable_ m' = discoverable_ m ∖ {[s]}
  /\ pending_discoverable_ m' = pending_discoverable_ m
  /\ calls_ m' = calls_ m
  /\ packets m'
     = packets m ++ (if bool_decide (discoverable_ m ∖ {[s]} = ∅)
                     then [Hci.ReadScanEnable] else []).
Proof.
  intros m'. subst m'. unfold RemoveDiscoverableSession. cbn [discoverable_ set_discoverable_].
  case_bool_decide.
  - unfold SetInquiryScan, SendCommand. rewrite packets_submit. done.
  - by rewrite app_nil_r.
Qed.

(** X2.  While a discoverable session exists and nothing is queued, a request
    to become discoverable is served at once, without a packet.  Ending
    discoverable sessions, each once and in any order, sends nothing while
    one is left, and sends one Read Scan Enable when the last one ends; the
    queue and the callbacks are not touched. *)
Theorem discoverable_sessions_counted m cb (ss : list SessionId) :
  NoDup ss -> list_to_set ss ⊆ discoverable_ m ->
  let m' := foldl (fun m s => RemoveDiscoverableSession s m) m ss in
  (pending_discoverable_ m = [] -> discoverable_ m ≠ ∅ ->
   hci_ (RequestDiscoverable cb m) = hci_ m
   /\ calls_ (RequestDiscoverable cb m)
      = calls_ m ++ [DiscoverableCallback cb Hci.Success (Some (next_session_ m))]
   /\ discoverable_ (RequestDiscoverable cb m) = {[next_session_ m]} ∪ discoverable_ m)
  /\ discoverable_ m' = discoverable_ m ∖ list_to_set ss
  /\ pending_discoverable_ m' = pending_discoverable_ m
  /\ calls_ m' = calls_ m
  /\ packets m'
     = packets m ++ (if bool_decide (ss ≠ [] /\ discoverable_ m ∖ list_to_set ss = ∅)
                     then [Hci.ReadScanEnable] else []).
Proof.
  intros Hnd Hsub m'. split.
  { intros Hp Hd. unfold RequestDiscoverable. rewrite Hp.
    rewrite bool_decide_eq_true_2 by done. cbn [negb].
    rewrite bool_decide_eq_false_2 by done. simpl. done. }
  subst m'. revert m Hsub. induction ss as [|s ss IH]; intros m Hsub.
  { cbn [foldl]. case_bool_decide as Hb; [by destruct Hb|]. rewrite app_nil_r.
    repeat split; try done. set_solver. }
  apply NoDup_cons in Hnd as [Hs Hnd]. cbn [foldl].
  destruct (RemoveDiscoverableSession_spec m s) as (Hd1 & Hp1 & Hc1 & Hk1).
  set (m1 := RemoveDiscoverableSession s m) in *.
  assert (Hsub1 : list_to_set ss ⊆ discoverable_ m1).
  { rewrite Hd1. intros x Hx. apply elem_of_difference. split; [set_solver|].
    intros ->%elem_of_singleton. by apply elem_of_list_to_set in Hx. }
  destruct (IH Hnd m1 Hsub1) as (Hd & Hp & Hc & Hk).
  rewrite Hd, Hp, Hc, Hk, Hd1, Hp1, Hc1, Hk1. clear Hd Hp Hc Hk IH.
  split; [set_solver|]. do 2 (split; [done|]).
  rewrite <- app_assoc. f_equal.
  destruct (decide (discoverable_ m ∖ {[s]} = ∅)) as [He|He].
  - assert (ss = []) as ->.
    { destruct ss as [|x ss]; [done|]. exfalso.
      assert (x ∈ discoverable_ m1) as Hx by set_solver.
      rewrite Hd1, He in Hx. set_solver. }
    rewrite (bool_decide_eq_true_2 _ He).
    repeat case_bool_decide; try done; exfalso; naive_solver set_solver.
  - rewrite (bool_decide_eq_false_2 _ He). simpl.
    assert (ss ≠ [] /\ discoverable_ m ∖ {[s]} ∖ list_to_set ss = ∅
            <-> s :: ss ≠ [] /\ discoverable_ m ∖ ({[s]} ∪ list_to_set ss) = ∅) as Hiff.
    { split.
      - intros [Hne Hall]. split; [done|]. set_solver.
      - intros [_ Hall]. split; [|set_solver].
        intros ->. apply He. set_solver. }
    by rewrite (bool_decide_ext _ _ Hiff).
Qed.

(** *** Inquiry results *)

Lemma set_cache_same m : set_cache_ (cache_ m) m = m.
Proof. by destruct m. Qed.

(** X3.  An event that is no Inquiry Result of a size that divides into
    whole responses changes nothing: an Inquiry Result (with or without RSSI)
    whose payload, less its header, is no multiple of the size of a response
    (the difference being taken in [size_t], so a payload shorter than the
    header wraps around), and an event with any other code.  An Extended
    Inquiry Result whose payload has not the size of its structure changes
    nothing either. *)
Theorem malformed_inquiry_results_ignored m event :
  (~ well_sized event -> InquiryResult event m = m)
  /\ (Hci.payload_size event ≠ Hci.sizeof_ExtendedInquiryResultEventParams K ->
      ExtendedInquiryResult event m = m).
Proof.
  split.
  - intros Hbad. unfold InquiryResult, ProcessInquiryResult.
    unfold well_sized in Hbad.
    repeat case_bool_decide; try done.
    + destruct (_ =? 0)%Z eqn:Hsz; cbn [negb].
      * exfalso. apply Hbad. left. split; [done|]. by apply Z.eqb_eq.
      * rewrite elements_empty. simpl. apply set_cache_same.
    + destruct (_ =? 0)%Z eqn:Hsz; cbn [negb].
      * exfalso. apply Hbad. right. split; [done|]. by apply Z.eqb_eq.
      * rewrite elements_empty. simpl. apply set_cache_same.
  - intros Hsize. unfold ExtendedInquiryResult.
    destruct (_ =? _)%Z eqn:Heq; [|done]. by apply Z.eqb_eq in Heq.
Qed.

Lemma RequestPeerName_frame id m :
  calls_ (RequestPeerName id m) = calls_ m
  /\ discovering_ (RequestPeerName id m) = discovering_ m
  /\ zombie_discovering_ (RequestPeerName id m) = zombie_discovering_ m.
Proof.
  unfold RequestPeerName, SendExclusiveCommand, submit.
  destruct (decide _); [done|]. destruct (FindById _ _); [|done].
  simpl. by destruct (cmd_accepted _ _).
Qed.

Lemma report_peer_calls m id :
  calls_ (report_peer m id)
  = calls_ m ++ ((fun session => NotifyDiscoveryResult session id)
                   <$> elements (discovering_ m))
  /\ discovering_ (report_peer m id) = discovering_ m
  /\ zombie_discovering_ (report_peer m id) = zombie_discovering_ m.
Proof.
  unfold report_peer.
  destruct (FindById (cache_ m) id) as [p|]; [destruct (name p)|]; simpl; try done.
  by destruct (RequestPeerName_frame id m) as (-> & -> & ->).
Qed.

Lemma foldl_report_peer_calls ids m :
  calls_ (foldl report_peer m ids)
  = calls_ m ++ (ids ≫= fun id =>
                   (fun session => NotifyDiscoveryResult session id)
                     <$> elements (discovering_ m))
  /\ discovering_ (foldl report_peer m ids) = discovering_ m
  /\ zombie_discovering_ (foldl report_peer m ids) = zombie_discovering_ m.
Proof.
  revert m. induction ids as [|id ids IH]; intros m; cbn [foldl].
  { simpl. by rewrite app_nil_r. }
  destruct (IH (report_peer m id)) as (-> & -> & ->).
  destruct (report_peer_calls m id) as (-> & -> & ->).
  rewrite bind_cons, app_assoc. done.
Qed.

Lemma ExtendedInquiryResult_unfold event m :
  ExtendedInquiryResult event m = m
  \/ exists c id, ExtendedInquiryResult event m = report_peer (set_cache_ c m) id.
Proof.
  unfold ExtendedInquiryResult. destruct (negb _); [by left|].
  destruct (Hci.params event); try by left.
  right. destruct (FindByAddress _ _); simpl; eauto.
Qed.

Lemma record_id_update_peer id f c a :
  keeps_id f -> record_id (update_peer id f c) a = record_id c a.
Proof.
  intros Hf. unfold record_id, FindByAddress. rewrite peers_update_peer.
  induction (peers c) as [|p l IH]; [done|]. rewrite fmap_cons. simpl.
  assert (address (if bool_decide (identifier p = id) then f p else p) = address p
          /\ identifier (if bool_decide (identifier p = id) then f p else p)
             = identifier p) as [-> Hi].
  { case_bool_decide; [by destruct (Hf p) | done]. }
  destruct (bool_decide (address p = a)); [simpl; by f_equal | exact IH].
Qed.

Lemma record_id_NewPeer c b connectable a :
  record_id (NewPeer c b connectable).2 a
  = match record_id c a with
    | Some id => Some id
    | None => if bool_decide (a = b) then Some (next_peer_id c) else None
    end.
Proof.
  unfold record_id, FindByAddress, NewPeer. simpl.
  induction (peers c) as [|p l IH]; simpl.
  - case_bool_decide as Hb; [by rewrite bool_decide_eq_true_2 | by rewrite bool_decide_eq_false_2].
  - destruct (bool_decide (address p = a)); [done | exact IH].
Qed.

(** The peers [ProcessInquiryResult] returns are the records of the
    addresses of the responses, and a record once found for an address stays
    the one found. *)
Lemma process_responses_ids rs (U U' : gset PeerId) c c' :
  process_responses rs U c = (U', c') ->
  (forall a id, record_id c a = Some id -> record_id c' a = Some id)
  /\ (forall r, r ∈ rs -> is_Some (record_id c' (inquiry_address r)))
  /\ (forall id, id ∈ U' <->
        id ∈ U \/ exists r, r ∈ rs /\ record_id c' (inquiry_address r) = Some id).
Proof.
  revert U c. induction rs as [|r rs IH]; intros U c Hrun.
  { simpl in Hrun. injection Hrun as <- <-. split; [done|]. split.
    - intros r Hr. by apply elem_of_nil in Hr.
    - intros id. split; [by left|]. intros [?|(r & Hr & _)]; [done|].
      by apply elem_of_nil in Hr. }
  cbn [process_responses] in Hrun. fold (inquiry_address r) in Hrun.
  set (a0 := inquiry_address r) in *.
  assert (exists id0 c2,
    process_responses rs ({[id0]} ∪ U) c2 = (U', c')
    /\ record_id c2 a0 = Some id0
    /\ (forall a id, record_id c a = Some id -> record_id c2 a = Some id))
    as (id0 & c2 & Hrest & Hid0 & Hstable).
  { destruct (FindByAddress c a0) as [p|] eqn:Hfind.
    - exists (identifier p), (update_peer (identifier p) (SetInquiryData r) c).
      split; [done|].
      assert (Hsame : forall a, record_id (update_peer (identifier p) (SetInquiryData r) c) a
                                = record_id c a).
      { intros a. apply record_id_update_peer, keeps_key_id, keeps_key_SetInquiryData. }
      split; [|intros a id; by rewrite Hsame].
      rewrite Hsame. unfold record_id. by rewrite Hfind.
    - simpl in Hrun.
      exists (next_peer_id c),
        (update_peer (next_peer_id c) (SetInquiryData r) (NewPeer c a0 true).2).
      split; [done|].
      assert (Hsame : forall a,
                record_id (update_peer (next_peer_id c) (SetInquiryData r)
                             (NewPeer c a0 true).2) a
                = record_id (NewPeer c a0 true).2 a).
      { intros a. apply record_id_update_peer, keeps_key_id, keeps_key_SetInquiryData. }
      split.
      + rewrite Hsame, record_id_NewPeer. unfold record_id. rewrite Hfind. simpl.
        by rewrite bool_decide_eq_true_2.
      + intros a id Ha. rewrite Hsame, record_id_NewPeer. by rewrite Ha. }
  destruct (IH _ _ Hrest) as (Hst & Hall & HU).
  split; [intros a id Ha; by apply Hst, Hstable|].
  split.
  - intros r' [->|Hr']%elem_of_cons; [|by apply Hall].
    exists id0. by apply Hst.
  - intros id. rewrite HU. split.
    + intros [[->%elem_of_singleton|Hin]%elem_of_union|(r' & Hr' & Hid)].
      * right. exists r. split; [by left|]. by apply Hst.
      * by left.
      * right. exists r'. split; [by right | done].
    + intros [Hin|(r' & [->|Hr']%elem_of_cons & Hid)].
      * left. set_solver.
      * left. apply Hst in Hid0. fold a0 in Hid. rewrite Hid0 in Hid.
        injection Hid as ->. set_solver.
      * right. by exists r'.
Qed.

Lemma cache_foldl_report_peer ids m : cache_ (foldl report_peer m ids) = cache_ m.
Proof.
  revert m. induction ids as [|id ids IH]; intros m; [done|].
  cbn [foldl]. rewrite IH. apply (report_peer_spec 0%Z).
Qed.

Lemma InquiryResult_not_well_sized event m : ~ well_sized event -> InquiryResult event m = m.
Proof.
  intros Hbad. unfold InquiryResult, ProcessInquiryResult. unfold well_sized in Hbad.
  assert (Hm : set_cache_ (cache_ m) m = m) by by destruct m.
  repeat case_bool_decide; try done.
  - destruct (_ =? 0)%Z eqn:Hsz; cbn [negb].
    + exfalso. apply Hbad. left. split; [done|]. by apply Z.eqb_eq.
    + by rewrite elements_empty.
  - destruct (_ =? 0)%Z eqn:Hsz; cbn [negb].
    + exfalso. apply Hbad. right. split; [done|]. by apply Z.eqb_eq.
    + by rewrite elements_empty.
Qed.

(** X4.  What an inquiry result makes the manager tell its clients.  For an
    Inquiry Result (with or without RSSI) of the right size, every response
    has a record in the directory afterwards, and the peers told are exactly
    the records of the addresses of the responses, each once: for each of
    them in turn, one notification to every live session, in the order of
    the set, and nothing else.  An Extended Inquiry Result of the right size
    tells every live session once of the record of its address.  A result of
    the wrong size calls nobody.  So a session that has been dropped, a
    zombie, hears of no result, and without live sessions nobody is called;
    the sets of sessions stay as they are. *)
Theorem inquiry_results_go_to_live_sessions m event :
  let m1 := InquiryResult event m in
  let m2 := ExtendedInquiryResult event m in
  (well_sized event ->
   exists ids : list PeerId,
     NoDup ids
     /\ (forall id, id ∈ ids <->
           exists r, r ∈ responses event
                     /\ record_id (cache_ m1) (inquiry_address r) = Some id)
     /\ (forall r, r ∈ responses event ->
           is_Some (record_id (cache_ m1) (inquiry_address r)))
     /\ calls_ m1 = calls_ m ++ notifications m ids)
  /\ (~ well_sized event -> calls_ m1 = calls_ m)
  /\ (forall result eir,
        Hci.params event = Hci.ExtendedInquiryResultEventParams result eir ->
        Hci.payload_size event = Hci.sizeof_ExtendedInquiryResultEventParams K ->
        exists id : PeerId,
          record_id (cache_ m2) (inquiry_address result) = Some id
          /\ calls_ m2 = calls_ m ++ notifications m [id])
  /\ (Hci.payload_size event ≠ Hci.sizeof_ExtendedInquiryResultEventParams K ->
      calls_ m2 = calls_ m)
  /\ discovering_ m1 = discovering_ m
  /\ discovering_ m2 = discovering_ m
  /\ zombie_discovering_ m1 = zombie_discovering_ m
  /\ zombie_discovering_ m2 = zombie_discovering_ m.
Proof.
  intros m1 m2. split; [|split; [|split; [|split]]].
  - intros Hsize. subst m1.
    destruct (InquiryResult_unfold event m) as (U & c & -> & _ & Hrun).
    specialize (Hrun Hsize).
    destruct (process_responses_ids _ _ _ _ _ Hrun) as (_ & Hall & HU).
    rewrite cache_foldl_report_peer. cbn [cache_ set_cache_].
    exists (elements U). split; [apply NoDup_elements|]. split; [|split; [done|]].
    + intros id. rewrite elem_of_elements, HU. split.
      * intros [Hin|Hr]; [by apply elem_of_empty in Hin | done].
      * intros Hr. by right.
    + apply (foldl_report_peer_calls (elements U) (set_cache_ c m)).
  - intros Hbad. subst m1. by rewrite InquiryResult_not_well_sized.
  - intros result eir Hparams Hsize. subst m2. unfold ExtendedInquiryResult.
    rewrite Hparams. apply Z.eqb_eq in Hsize. rewrite Hsize. cbn [negb].
    fold (inquiry_address result).
    set (a0 := inquiry_address result).
    assert (exists id0 c1,
      (let '(peer, cache1) :=
         match FindByAddress (cache_ m) a0 with
         | Some peer => (peer, cache_ m)
         | None => NewPeer (cache_ m) a0 true
         end in
       report_peer
         (set_cache_ (update_peer (identifier peer) (SetExtendedInquiryData result eir) cache1) m)
         (identifier peer))
      = report_peer
          (set_cache_ (update_peer id0 (SetExtendedInquiryData result eir) c1) m) id0
      /\ record_id c1 a0 = Some id0) as (id0 & c1 & -> & Hid0).
    { destruct (FindByAddress (cache_ m) a0) as [p|] eqn:Hfind.
      - exists (identifier p), (cache_ m). split; [done|]. unfold record_id. by rewrite Hfind.
      - exists (next_peer_id (cache_ m)), (NewPeer (cache_ m) a0 true).2.
        split; [done|]. rewrite record_id_NewPeer. unfold record_id. rewrite Hfind. simpl.
        by rewrite bool_decide_eq_true_2. }
    exists id0. split.
    + assert (cache_ (report_peer (set_cache_ (update_peer id0
                (SetExtendedInquiryData result eir) c1) m) id0)
              = update_peer id0 (SetExtendedInquiryData result eir) c1) as ->
        by apply (report_peer_spec 0%Z).
      rewrite record_id_update_peer by apply keeps_id_SetExtendedInquiryData. done.
    + unfold notifications. simpl. rewrite app_nil_r.
      apply (report_peer_calls (set_cache_ _ m) id0).
  - intros Hsize. subst m2. unfold ExtendedInquiryResult.
    destruct (_ =? _)%Z eqn:Heq; [|done]. by apply Z.eqb_eq in Heq.
  - subst m1 m2.
    destruct (InquiryResult_unfold event m) as (U & c & -> & _ & _).
    destruct (foldl_report_peer_calls (elements U) (set_cache_ c m)) as (_ & Hd & Hz).
    destruct (ExtendedInquiryResult_unfold event m) as [->|(c' & id & ->)]; [done|].
    destruct (report_peer_calls (set_cache_ c' m) id) as (_ & Hd' & Hz'). done.
Qed.

(** *** Names on the wire *)

Lemma name_length_bound max (l : list Z) :
  name_length max l <= max /\ name_length max l <= length l.
Proof.
  revert l. induction max as [|max IH]; intros [|x l]; simpl; try lia.
  destruct (x =? 0)%Z; [lia|]. specialize (IH l). lia.
Qed.

Lemma name_length_no_zero max (l : list Z) :
  Forall (fun x => x ≠ 0%Z) (take (name_length max l) l).
Proof.
  revert l. induction max as [|max IH]; intros [|x l]; simpl; try by constructor.
  destruct (x =? 0)%Z eqn:Hx; [by constructor|].
  simpl. constructor; [by apply Z.eqb_neq|apply IH].
Qed.

Lemma name_length_stops max (l : list Z) :
  name_length max l = max \/ name_length max l = length l
  \/ l !! name_length max l = Some 0%Z.
Proof.
  revert l. induction max as [|max IH]; intros [|x l]; simpl; try tauto.
  destruct (x =? 0)%Z eqn:Hx.
  - right. right. simpl. f_equal. by apply Z.eqb_eq.
  - destruct (IH l) as [->| [->|Hz]]; simpl; tauto.
Qed.

(** Zero bytes after the name do not change where the name ends. *)
Lemma name_length_padded max (l : list Z) n :
  name_length max (take max l ++ replicate n 0%Z) = name_length max l.
Proof.
  revert l. induction max as [|max IH]; intros [|x l]; simpl; try done.
  - by destruct n.
  - destruct (x =? 0)%Z; [done|]. by rewrite IH.
Qed.

(** What [UpdateLocalName] puts into the Write Local Name packet. *)
Lemma local_name_buffer (name : list Z) :
  let max := Hci.kMaxNameLength K in
  let name_size := if bool_decide (max ≤ length name) then max else length name in
  Write (take name_size name) 0 (Fill max 0%Z)
  = take max name ++ replicate (max - length name) 0%Z.
Proof.
  intros max name_size. unfold Write, Fill. simpl.
  rewrite length_replicate, Nat.sub_0_r, drop_replicate, length_take, take_take.
  subst name_size. case_bool_decide.
  - replace (max `min` max) with max by lia.
    replace (max - max `min` length name) with 0 by lia.
    replace (max - length name) with 0 by lia. done.
  - replace (max `min` length name) with (length name) by lia.
    replace (length name `min` length name) with (length name) by lia.
    by rewrite !firstn_all2 by lia.
Qed.

(** X5.  The payload of the Write Local Name packet is always
    [kMaxNameLength] bytes: the name, cut to that length, then zero bytes.
    Reading a name from such a field as the callback of Remote Name Request
    does (up to the first zero byte, at most [kMaxNameLength] bytes) gives
    back the name as far as its first zero byte or [kMaxNameLength] bytes,
    whichever comes first; so a name without zero bytes that fits comes back
    whole. *)
Theorem local_name_field_round_trip m cb (name : list Z) :
  let max := Hci.kMaxNameLength K in
  exists field,
    packets (UpdateLocalName name cb m) = packets m ++ [Hci.WriteLocalName field]
    /\ length field = max
    /\ field = take max name ++ replicate (max - length name) 0%Z
    /\ take (name_length max field) field = take (name_length max name) name
    /\ (Forall (fun x => x ≠ 0%Z) name -> length name <= max ->
        take (name_length max field) field = name).
Proof.
  intros max. unfold UpdateLocalName, SendCommand.
  rewrite packets_submit, (local_name_buffer name). fold max.
  eexists. split; [reflexivity|].
  assert (Hpad : take (name_length max (take max name ++ replicate (max - length name) 0%Z))
                   (take max name ++ replicate (max - length name) 0%Z)
                 = take (name_length max name) name).
  { rewrite name_length_padded.
    destruct (name_length_bound max name) as [Hm Hl].
    rewrite take_app_le by (rewrite length_take; lia).
    rewrite take_take. f_equal. lia. }
  split; [rewrite length_app, length_take, length_replicate; lia|].
  split; [done|]. split; [exact Hpad|].
  intros Hnz Hfit. rewrite Hpad.
  assert (name_length max name = length name) as ->; [|by rewrite firstn_all].
  clear Hpad. revert Hfit. generalize max. clear max.
  induction Hnz as [|x l Hx _ IH]; intros max Hfit; [by destruct max|].
  destruct max as [|max]; simpl in *; [lia|].
  apply Z.eqb_neq in Hx. rewrite Hx. f_equal. apply IH. lia.
Qed.

(** X6.  The callback of a Remote Name Request sends nothing and calls no
    client.  On an error event it takes the peer out of the names being
    requested and leaves the directory alone, so that the name is asked for
    again the next time the peer is reported.  A Command Status without error
    changes nothing.  Any other event without error (Remote Name Request
    Complete) takes the peer out of the names being requested and names it:
    the name is the bytes of the field before the first zero byte, at most
    [kMaxNameLength] of them. *)
Theorem remote_name_request_completion m (id : PeerId) event :
  let m' := remote_name_callback id event m in
  hci_ m' = hci_ m /\ calls_ m' = calls_ m
  /\ (Hci.hci_is_error event = true ->
      requesting_names_ m' = requesting_names_ m ∖ {[id]} /\ cache_ m' = cache_ m
      /\ forall p, FindById (cache_ m) id = Some p ->
           exists psrm clk,
             packets (RequestPeerName id m')
             = packets m ++ [Hci.RemoteNameRequest (addr_value (address p)) psrm clk])
  /\ (Hci.hci_is_error event = false ->
      Hci.event_code event = Hci.kCommandStatusEventCode -> m' = m)
  /\ (Hci.hci_is_error event = false ->
      Hci.event_code event ≠ Hci.kCommandStatusEventCode ->
      requesting_names_ m' = requesting_names_ m ∖ {[id]}
      /\ exists n,
           cache_ m' = update_peer id (SetName n) (cache_ m)
           /\ length n <= Hci.kMaxNameLength K
           /\ Forall (fun x => x ≠ 0%Z) n
           /\ forall remote_name,
                Hci.params event = Hci.RemoteNameRequestCompleteEventParams remote_name ->
                n = take (length n) remote_name
                /\ (length n = Hci.kMaxNameLength K \/ n = remote_name
                    \/ remote_name !! length n = Some 0%Z)).
Proof.
  intros m'. subst m'. unfold remote_name_callback.
  destruct (Hci.hci_is_error event) eqn:Herr.
  { do 2 (split; [done|]). split; [|split; done].
    intros _. do 2 (split; [done|]). intros p Hp.
    unfold RequestPeerName. rewrite decide_False by set_solver.
    cbn [cache_ set_requesting_names_]. rewrite Hp.
    unfold SendExclusiveCommand.
    destruct (submit _ _ _ _) as [cmd_id m1] eqn:Hsub.
    assert (packets m1 = packets m ++ [Hci.RemoteNameRequest (addr_value (address p))
              (default 0%Z (bredr p ≫= page_scan_repetition_mode))
              (default 0%Z (bredr p ≫= clock_offset))]) as Hpk.
    { replace m1 with (submit (Hci.RemoteNameRequest (addr_value (address p))
              (default 0%Z (bredr p ≫= page_scan_repetition_mode))
              (default 0%Z (bredr p ≫= clock_offset))) (OnRemoteNameRequest id)
              (Some (Hci.kRemoteNameRequestCompleteEventCode, [Hci.kInquiry]))
              (set_requesting_names_ (requesting_names_ m ∖ {[id]}) m)).2
        by (by rewrite Hsub).
      by rewrite packets_submit. }
    eexists _, _. destruct cmd_id; exact Hpk. }
  case_bool_decide as Hcode.
  { do 2 (split; [done|]). split; [done|]. split; [done|]. intros _ Hc. done. }
  do 2 (split; [done|]). split; [done|]. split; [done|]. intros _ _.
  split; [done|].
  set (remote_name := match Hci.params event with
                      | Hci.RemoteNameRequestCompleteEventParams n => n
                      | _ => []
                      end).
  set (len := name_length (Hci.kMaxNameLength K) remote_name).
  destruct (name_length_bound (Hci.kMaxNameLength K) remote_name) as [Hmax Hlen].
  fold len in Hmax, Hlen.
  assert (Hn : length (take len remote_name) = len) by (rewrite length_take; lia).
  exists (take len remote_name). split; [done|]. rewrite Hn.
  split; [done|]. split; [apply name_length_no_zero|].
  pose proof (name_length_stops (Hci.kMaxNameLength K) remote_name) as Hs.
  fold len in Hs. clearbody len.
  intros rn Hrn. subst remote_name. rewrite Hrn in *.
  split; [done|]. destruct Hs as [Hs|[Hs|Hs]].
  - by left.
  - right. left. rewrite Hs. by rewrite firstn_all.
  - right. by right.
Qed.

(** *** The extended inquiry response *)

(** X7.  For a name of at most [kExtendedInquiryResponseMaxNameBytes] bytes
    the payload built by [UpdateEIRResponseData] is well formed: the length
    byte (one more than the length of the name), the type byte (Complete Local
    Name for a shorter name, Shortened Local Name for one of exactly that
    length), the whole name, and zero bytes up to the size of the buffer; the
    length byte counts exactly the type byte and the name bytes written. *)
Theorem eir_payload_of_fitting_name (name : list Z) :
  2 + Hci.kExtendedInquiryResponseMaxNameBytes K <= Hci.kExtendedInquiryResponseBytes K ->
  Hci.kExtendedInquiryResponseMaxNameBytes K < 255 ->
  length name <= Hci.kExtendedInquiryResponseMaxNameBytes K ->
  eir_of name
  = [Z.of_nat (1 + length name);
     uint8 (if bool_decide (length name = Hci.kExtendedInquiryResponseMaxNameBytes K)
            then Hci.kShortenedLocalName K else Hci.kCompleteLocalName K)]
    ++ name
    ++ replicate (Hci.kExtendedInquiryResponseBytes K - 2 - length name) 0%Z
  /\ length (eir_of name) = Hci.kExtendedInquiryResponseBytes K
  /\ eir_name_size name = length name.
Proof.
  intros Hroom Hbyte Hfit.
  assert (Hsize : eir_name_size name = length name).
  { unfold eir_name_size. case_bool_decide; lia. }
  assert (Heir : eir_of name
    = [Z.of_nat (1 + length name);
       uint8 (if bool_decide (length name = Hci.kExtendedInquiryResponseMaxNameBytes K)
              then Hci.kShortenedLocalName K else Hci.kCompleteLocalName K)]
      ++ name
      ++ replicate (Hci.kExtendedInquiryResponseBytes K - 2 - length name) 0%Z).
  { unfold eir_of, UpdateEIRResponseData, SendCommand.
    rewrite packets_submit, last_snoc. unfold Fill, Write.
    destruct (Hci.kExtendedInquiryResponseBytes K) as [|[|size]] eqn:Hk; [lia..|].
    simpl. rewrite ?drop_0, ?length_replicate, ?Nat.sub_0_r.
    assert (uint8 (Z.of_nat (length name) + 1) = Z.of_nat (S (length name))) as ->.
    { unfold uint8. rewrite Z.mod_small by lia. lia. }
    f_equal. f_equal.
    { f_equal. repeat case_bool_decide; try done; lia. }
    assert (take (if bool_decide (Hci.kExtendedInquiryResponseMaxNameBytes K ≤ length name)
                  then Hci.kExtendedInquiryResponseMaxNameBytes K else length name) name
            = name) as ->.
    { case_bool_decide; apply firstn_all2; lia. }
    rewrite firstn_all2 by lia. by rewrite drop_replicate. }
  split; [exact Heir|]. split; [|exact Hsize].
  rewrite Heir. simpl. rewrite length_app, length_replicate. lia.
Qed.

(** *** The scan enable byte *)

Lemma testbit_uint8 x n :
  (0 <= n)%Z -> Z.testbit (uint8 x) n = (n <? 8)%Z && Z.testbit x n.
Proof.
  intros Hn. unfold uint8. change 256%Z with (2 ^ 8)%Z.
  by rewrite Z.testbit_mod_pow2 by lia.
Qed.

Lemma uint8_range x : (0 <= uint8 x < 256)%Z.
Proof. unfold uint8. apply Z.mod_pos_bound. lia. Qed.

Lemma testbit_byte_high v n : (0 <= v < 256)%Z -> (8 <= n)%Z -> Z.testbit v n = false.
Proof.
  intros Hv Hn. rewrite <- (Z.mod_small v (2 ^ 8)) by (simpl; lia).
  apply Z.mod_pow2_bits_high. lia.
Qed.

(** X8.  When Read Scan Enable is answered with success, the manager
    compares the Inquiry bit of the byte read with what it wants (the bit set
    exactly when a discoverable session exists or a request is queued).  When
    they agree nothing is written and the queue is resolved.  When they
    differ, one Write Scan Enable is sent and the queue waits; the byte
    written is the byte read with the Inquiry bit set or cleared, every other
    bit (Page Scan among them) as it was read. *)
Theorem scan_enable_write_changes_inquiry_bit_only m event :
  Hci.is_success (Hci.ToStatus event) = true ->
  (0 <= scan_enable event < 256)%Z ->
  let v := scan_enable event in
  let enable :=
    negb (bool_decide (discoverable_ m = ∅))
    || negb (bool_decide (pending_discoverable_ m = [])) in
  let m' := scan_enable_cb event m in
  if Bool.eqb enable (inquiry_scan_enabled v)
  then hci_ m' = hci_ m /\ pending_discoverable_ m' = []
  else exists v',
         packets m' = packets m ++ [Hci.WriteScanEnable v']
         /\ (0 <= v' < 256)%Z
         /\ Z.land v' (Z.lnot inquiry_bit) = Z.land v (Z.lnot inquiry_bit)
         /\ Z.land v' inquiry_bit = (if enable then inquiry_bit else 0%Z)
         /\ pending_discoverable_ m' = pending_discoverable_ m
         /\ calls_ m' = calls_ m.
Proof.
  intros Hok Hv v enable m'. subst m'. unfold scan_enable_cb, Hci.bt_is_error.
  rewrite Hok. cbn [negb]. fold inquiry_bit. fold v. fold enable.
  change (negb (Z.land v inquiry_bit =? 0)%Z) with (inquiry_scan_enabled v).
  destruct (Bool.eqb enable (inquiry_scan_enabled v)).
  - destruct (resolve_pending_discoverable_spec (Hci.ToStatus event)
                (pending_discoverable_ m) m) as (Hp & _ & Hh & _).
    split; [exact Hh|]. rewrite Hp. by destruct (pending_discoverable_ m).
  - unfold SendCommand. rewrite packets_submit. eexists. split; [reflexivity|].
    split; [destruct enable; apply uint8_range|].
    split; [|split; [|done]].
    + apply Z.bits_inj'. intros n Hn.
      destruct enable; rewrite !Z.land_spec, testbit_uint8 by done;
        rewrite ?Z.lor_spec, ?Z.land_spec, !Z.lnot_spec by done.
      * destruct (n <? 8)%Z eqn:Hlt; simpl.
        -- by destruct (Z.testbit v n), (Z.testbit inquiry_bit n).
        -- rewrite (testbit_byte_high v n) by (try done; apply Z.ltb_ge in Hlt; lia). done.
      * destruct (n <? 8)%Z eqn:Hlt; simpl.
        -- by destruct (Z.testbit v n), (Z.testbit inquiry_bit n).
        -- rewrite (testbit_byte_high v n) by (try done; apply Z.ltb_ge in Hlt; lia). done.
    + destruct enable; [apply inquiry_bit_set | apply inquiry_bit_cleared].
Qed.

(** *** The local name the manager remembers *)

(** X9.  Of a call of [UpdateLocalName] and the answers to its two commands:
    the status callback is called exactly once, with the status of the Write
    Local Name answer when that is an error and with the status of the Write
    Extended Inquiry Response answer otherwise; the name the manager
    remembers changes only when both answers are successes, and then to the
    whole name as it was given, also when the packets carried it cut. *)
Theorem local_name_kept_until_both_writes_succeed m (name : list Z) cb
    (event1 event2 : Hci.EventPacket) :
  let m1 := UpdateLocalName name cb m in
  let m2 := write_local_name_callback name cb event1 m1 in
  let m3 := write_eir_callback name cb event2 m2 in
  local_name_ m1 = local_name_ m /\ calls_ m1 = calls_ m
  /\ local_name_ m2 = local_name_ m
  /\ (if Hci.is_success (Hci.ToStatus event1)
      then calls_ m2 = calls_ m
           /\ hci_ m3 = hci_ m2
           /\ calls_ m3 = calls_ m ++ [StatusCallback cb (Hci.ToStatus event2)]
           /\ local_name_ m3
              = (if Hci.is_success (Hci.ToStatus event2) then name else local_name_ m)
      else hci_ m2 = hci_ m1
           /\ calls_ m2 = calls_ m ++ [StatusCallback cb (Hci.ToStatus event1)]).
Proof.
  intros m1 m2 m3. subst m3 m2.
  unfold write_eir_callback, write_local_name_callback, Hci.hci_is_error, Hci.bt_is_error.
  assert (local_name_ m1 = local_name_ m /\ calls_ m1 = calls_ m) as [Hn1 Hc1] by done.
  do 2 (split; [done|]).
  destruct (Hci.is_success (Hci.ToStatus event1)); cbn [negb].
  - assert (local_name_ (UpdateEIRResponseData name cb m1) = local_name_ m
            /\ calls_ (UpdateEIRResponseData name cb m1) = calls_ m) as [Hn2 Hc2] by done.
    split; [done|]. split; [done|].
    destruct (Hci.is_success (Hci.ToStatus event2)); cbn [negb]; simpl; by rewrite ?Hc2.
  - done.
Qed.

(** *** The inquiry mode *)

(** X10.  An inquiry start sends Write Inquiry Mode ahead of Inquiry exactly
    when the mode the manager wants is not the mode it believes the
    controller is in, and does not wait for the answer.  A successful answer
    records the mode, so that the next start sends Inquiry alone; after an
    error answer the next start writes the mode again.  A new manager
    believes the controller is in standard mode. *)
Theorem inquiry_mode_written_until_accepted m event mode c :
  has_demand m = true ->
  let inquiry := Hci.Inquiry (Hci.kGIAC K) (Hci.kInquiryLengthDefault K) 0 in
  let write := Hci.WriteInquiryMode (desired_inquiry_mode_ m) in
  let m1 := MaybeStartInquiry m in
  let m2 := write_inquiry_mode_callback (desired_inquiry_mode_ m) event m1 in
  current_inquiry_mode_ (create mode c) = Hci.kStandard
  /\ desired_inquiry_mode_ (create mode c) = mode
  /\ packets m1
     = packets m ++ (if bool_decide (desired_inquiry_mode_ m ≠ current_inquiry_mode_ m)
                     then [write; inquiry] else [inquiry])
  /\ current_inquiry_mode_ m1 = current_inquiry_mode_ m
  /\ (if Hci.is_success (Hci.ToStatus event)
      then current_inquiry_mode_ m2 = desired_inquiry_mode_ m
           /\ packets (MaybeStartInquiry m2) = packets m1 ++ [inquiry]
      else m2 = m1
           /\ packets (MaybeStartInquiry m2)
              = packets m1 ++ (if bool_decide (desired_inquiry_mode_ m ≠ current_inquiry_mode_ m)
                               then [write; inquiry] else [inquiry])).
Proof.
  intros Hdemand inquiry write m1 m2.
  apply has_demand_spec in Hdemand.
  assert (Hstart : forall m0, inquiry_start m0
            = if bool_decide (desired_inquiry_mode_ m0 ≠ current_inquiry_mode_ m0)
              then [Hci.WriteInquiryMode (desired_inquiry_mode_ m0); inquiry] else [inquiry]).
  { intros m0. unfold inquiry_start. by case_bool_decide. }
  assert (Hm1 : m1 = set_hci_ (hci_ m1) m) by apply MaybeStartInquiry_frame.
  assert (Hpk1 : packets m1 = packets m ++ inquiry_start m)
    by by apply MaybeStartInquiry_demand.
  assert (desired_inquiry_mode_ m1 = desired_inquiry_mode_ m
          /\ current_inquiry_mode_ m1 = current_inquiry_mode_ m
          /\ pending_discovery_ m1 = pending_discovery_ m
          /\ discovering_ m1 = discovering_ m) as (Hd1 & Hc1 & Hp1 & Hl1)
    by (by rewrite Hm1).
  clearbody m1. clear Hm1.
  do 2 (split; [done|]). split; [by rewrite Hpk1, Hstart|].
  split; [done|].
  subst m2. unfold write_inquiry_mode_callback, Hci.hci_is_error, Hci.bt_is_error.
  destruct (Hci.is_success (Hci.ToStatus event)); cbn [negb].
  - split; [done|]. rewrite MaybeStartInquiry_demand by (simpl; by rewrite Hp1, Hl1).
    rewrite Hstart. cbn [desired_inquiry_mode_ current_inquiry_mode_ set_current_inquiry_mode_].
    rewrite Hd1. by rewrite bool_decide_eq_false_2 by (intros Hne; by apply Hne).
  - split; [done|]. rewrite MaybeStartInquiry_demand by (by rewrite Hp1, Hl1).
    by rewrite Hstart, Hd1, Hc1.
Qed.

(** *** An inquiry that fails *)

(** X11.  When the callback of Inquiry gets an event with an error status,
    whatever its kind, every live session is told of the error once, in the
    order of the set, and the live set is emptied; zombies are told nothing;
    no packet is sent.  On Command Status or Command Complete every queued
    callback is then called with the error and no session, and the queue is
    emptied; on any other event the queue stays and the zombies are
    forgotten. *)
Theorem inquiry_failure_ends_live_sessions m event :
  Hci.is_success (Hci.ToStatus event) = false ->
  let m' := inquiry_callback event m in
  let resolving :=
    bool_decide (Hci.event_code event = Hci.kCommandStatusEventCode)
    || bool_decide (Hci.event_code event = Hci.kCommandCompleteEventCode) in
  discovering_ m' = ∅
  /\ hci_ m' = hci_ m
  /\ next_session_ m' = next_session_ m
  /\ calls_ m'
     = calls_ m ++ (NotifyError <$> elements (discovering_ m))
       ++ (if resolving
           then (fun cb => DiscoveryCallback cb (Hci.ToStatus event) None)
                  <$> pending_discovery_ m
           else [])
  /\ pending_discovery_ m' = (if resolving then [] else pending_discovery_ m)
  /\ zombie_discovering_ m' = (if resolving then zombie_discovering_ m else ∅).
Proof.
  intros Hfail m' resolving. subst m'. unfold inquiry_callback, Hci.bt_is_error.
  rewrite Hfail. cbn [negb]. fold resolving. destruct resolving.
  - destruct (resolve_pending_discovery_spec (Hci.ToStatus event)
                (pending_discovery_ (InvalidateDiscoverySessions m))
                (InvalidateDiscoverySessions m)) as (Hp & Hc & Hh & Hz & Hd).
    rewrite Hfail in Hd. destruct Hd as [Hd Hn].
    rewrite Hp, Hc, Hh, Hz, Hd, Hn. simpl.
    do 3 (split; [done|]). split.
    + rewrite <- app_assoc. do 2 f_equal. unfold resolved. rewrite Hfail.
      generalize (next_session_ m). induction (pending_discovery_ m) as [|cb l IH];
        intros n; [done|]. simpl. f_equal. apply (IH (S n)).
    + split; [by destruct (pending_discovery_ m) | done].
  - simpl. by rewrite app_nil_r.
Qed.

(** *** What the manager hands to the command channel *)

Lemma sends_well_refl m : sends_well m m.
Proof. exists []. by rewrite app_nil_r. Qed.

Lemma sends_well_trans m1 m2 m3 : sends_well m1 m2 -> sends_well m2 m3 -> sends_well m1 m3.
Proof.
  intros (l1 & H1 & Hw1) (l2 & H2 & Hw2). exists (l1 ++ l2).
  split; [by rewrite H2, H1, app_assoc | by apply Forall_app].
Qed.

Lemma sends_well_same m m' : hci_ m' = hci_ m -> sends_well m m'.
Proof. intros Hh. exists []. by rewrite app_nil_r. Qed.

Ltac sends_by_computation :=
  intros; unfold sends_well;
  repeat match goal with m : BrEdrDiscoveryManager |- _ => destruct m end;
  simpl;
  repeat (case_match || case_bool_decide || case_decide); simpl;
  first [ exists []; split; [by rewrite app_nil_r | by constructor]
        | eexists [_]; split; [reflexivity|];
          repeat constructor; unfold well_sent; simpl; eauto
        | eexists [_; _]; split; [by rewrite <- app_assoc|];
          repeat constructor; unfold well_sent; simpl; eauto ].

Lemma sends_well_RequestDiscovery cb m : sends_well m (RequestDiscovery cb m).
Proof. unfold_manager. sends_by_computation. Qed.

Lemma sends_well_MaybeStartInquiry m : sends_well m (MaybeStartInquiry m).
Proof. unfold_manager. sends_by_computation. Qed.

Lemma sends_well_RequestDiscoverable cb m : sends_well m (RequestDiscoverable cb m).
Proof. unfold_manager. sends_by_computation. Qed.

Lemma sends_well_UpdateLocalName name cb m : sends_well m (UpdateLocalName name cb m).
Proof. unfold_manager. sends_by_computation. Qed.

Lemma sends_well_RemoveDiscoverySession s m : sends_well m (RemoveDiscoverySession s m).
Proof. unfold_manager. sends_by_computation. Qed.

Lemma sends_well_RemoveDiscoverableSession s m :
  sends_well m (RemoveDiscoverableSession s m).
Proof. unfold_manager. sends_by_computation. Qed.

Lemma sends_well_report_peer m id : sends_well m (report_peer m id).
Proof. unfold_manager. sends_by_computation. Qed.

Lemma sends_well_foldl_report_peer ids m : sends_well m (foldl report_peer m ids).
Proof.
  revert m. induction ids as [|id ids IH]; intros m; [apply sends_well_refl|].
  cbn [foldl]. eapply sends_well_trans; [apply sends_well_report_peer | apply IH].
Qed.

Lemma sends_well_InquiryResult event m : sends_well m (InquiryResult event m).
Proof.
  destruct (InquiryResult_unfold event m) as (U & c & -> & _).
  eapply sends_well_trans; [|apply sends_well_foldl_report_peer].
  by apply sends_well_same.
Qed.

Lemma sends_well_ExtendedInquiryResult event m :
  sends_well m (ExtendedInquiryResult event m).
Proof.
  destruct (ExtendedInquiryResult_unfold event m) as [->|(c & id & ->)];
    [apply sends_well_refl|].
  eapply sends_well_trans; [|apply sends_well_report_peer]. by apply sends_well_same.
Qed.

Lemma sends_well_inquiry_callback event m : sends_well m (inquiry_callback event m).
Proof.
  unfold inquiry_callback.
  set (m1 := if Hci.bt_is_error _ then _ else _).
  assert (Hm1 : hci_ m1 = hci_ m /\ True) by (subst m1; by destruct (Hci.bt_is_error _)).
  destruct Hm1 as [Hm1 _].
  destruct (_ || _).
  - apply sends_well_same. rewrite <- Hm1.
    apply (resolve_pending_discovery_spec (Hci.ToStatus event) (pending_discovery_ m1) m1).
  - destruct (Hci.bt_is_error _); [by apply sends_well_same|].
    eapply sends_well_trans; [|apply sends_well_MaybeStartInquiry].
    by apply sends_well_same.
Qed.

Lemma sends_well_scan_enable_cb event m : sends_well m (scan_enable_cb event m).
Proof.
  unfold scan_enable_cb.
  assert (Hres : sends_well m (resolve_pending_discoverable (Hci.ToStatus event)
                                 (pending_discoverable_ m) m)).
  { apply sends_well_same.
    apply (resolve_pending_discoverable_spec (Hci.ToStatus event)
             (pending_discoverable_ m) m). }
  destruct (Hci.bt_is_error _); [done|]. destruct (Bool.eqb _ _); [done|].
  unfold_manager. sends_by_computation.
Qed.

Lemma sends_well_deliver k event m : sends_well m (deliver k event m).
Proof.
  destruct k; cbn [deliver]; try apply sends_well_refl.
  - unfold_manager. sends_by_computation.
  - apply sends_well_inquiry_callback.
  - unfold_manager. sends_by_computation.
  - unfold_manager. sends_by_computation.
  - unfold_manager. sends_by_computation.
  - apply sends_well_scan_enable_cb.
  - apply sends_well_same.
    apply (resolve_pending_discoverable_spec (Hci.ToStatus event)
             (pending_discoverable_ m) m).
Qed.

Lemma sends_well_step m op : sends_well m (step m op).
Proof.
  destruct op as [cb|cb|name cb|s|s|k event|event|event]; cbn [step].
  - apply sends_well_RequestDiscovery.
  - apply sends_well_RequestDiscoverable.
  - apply sends_well_UpdateLocalName.
  - apply sends_well_RemoveDiscoverySession.
  - apply sends_well_RemoveDiscoverableSession.
  - apply sends_well_deliver.
  - apply sends_well_InquiryResult.
  - apply sends_well_ExtendedInquiryResult.
Qed.

Lemma sends_well_run m ops : sends_well m (run m ops).
Proof.
  unfold run. revert m. induction ops as [|op ops IH]; intros m; [apply sends_well_refl|].
  cbn [foldl]. eapply sends_well_trans; [apply sends_well_step | apply IH].
Qed.

Lemma well_sent_no_cancel (l : list Sent) :
  Forall well_sent l -> count_sent Hci.kInquiryCancel l = 0.
Proof.
  unfold count_sent. induction 1 as [|s l Hs _ IH]; [done|].
  rewrite filter_cons. destruct (decide _) as [Hop|]; [|done].
  exfalso. unfold well_sent in Hs. by destruct (packet s).
Qed.

(** X18.  Over every run of a manager from its constructor, under any calls
    and any events: the packets handed to the command channel are never taken
    back (the log of a longer run starts with the log of the shorter one);
    every Inquiry is handed over as an exclusive command, with the inquiry
    callback, ending with Inquiry Complete and keeping Remote Name Request
    out; every Remote Name Request as an exclusive command ending with Remote
    Name Request Complete and keeping Inquiry out; everything else as a plain
    command; and Inquiry Cancel is never sent. *)
Theorem commands_sent_over_a_run mode c (ops ops' : list Op) :
  let m := run (create mode c) ops in
  Forall well_sent (hci_ m)
  /\ hci_ m `prefix_of` hci_ (run (create mode c) (ops ++ ops'))
  /\ count_sent Hci.kInquiryCancel (hci_ m) = 0.
Proof.
  intros m.
  assert (Hall : Forall well_sent (hci_ m)).
  { destruct (sends_well_run (create mode c) ops) as (l & Hl & Hw). fold m in Hl.
    rewrite Hl. apply Forall_app. split; [|done].
    unfold create, WriteInquiryScanSettings, SendCommand, submit. simpl.
    repeat constructor. }
  split; [done|]. split; [|by apply well_sent_no_cancel].
  unfold run. rewrite foldl_app. fold (run (create mode c) ops). fold m.
  destruct (sends_well_run m ops') as (l & Hl & _). unfold run in Hl.
  rewrite Hl. by exists l.
Qed.

End DiscoveryManager.

(** * Properties of the channel *)

Section ChannelProperties.
Import L2cap.
Context `{Engines}.

Implicit Types (w : World) (c : ChannelImpl) (sdu : SDU) (pdu : PDU).

(** ** Calls on a channel without a link *)

(** [Deactivate] leaves no link behind. *)
Lemma Deactivate_link w : link_ (chan (Deactivate w)) = None.
Proof. unfold Deactivate. destruct (link_ (chan w)); [destruct (active_ (chan w))|]; done. Qed.

Lemma Deactivate_tracing w : tracing (Deactivate w) = tracing w.
Proof. unfold Deactivate. destruct (link_ (chan w)); [destruct (active_ (chan w))|]; done. Qed.

(** While the trace category is not recorded, [Send] on a channel without a
    link returns false and changes nothing. *)
Lemma Send_without_link_untraced sdu w :
  tracing w = false -> link_ (chan w) = None -> Send sdu w = Done (false, w).
Proof. intros Ht Hl. unfold Send, trace_link_handle. rewrite Ht. simpl. by rewrite Hl. Qed.

(** While it is recorded, the call does not get to its test of the link. *)
Lemma Send_without_link_traced sdu w :
  tracing w = true -> link_ (chan w) = None -> Send sdu w = Crash NullLinkDereferenced.
Proof. intros Ht Hl. unfold Send, trace_link_handle. by rewrite Ht, Hl. Qed.

Lemma Send_after_Deactivate sdu w :
  Send sdu (Deactivate w)
  = if tracing w then Crash NullLinkDereferenced else Done (false, Deactivate w).
Proof.
  destruct (tracing w) eqn:Ht.
  - apply Send_without_link_traced; [by rewrite Deactivate_tracing | apply Deactivate_link].
  - apply Send_without_link_untraced; [by rewrite Deactivate_tracing | apply Deactivate_link].
Qed.

(** The same for [HandleRxPdu]. *)
Lemma HandleRxPdu_without_link_untraced pdu w :
  tracing w = false -> link_ (chan w) = None -> HandleRxPdu pdu w = Done w.
Proof.
  intros Ht Hl. unfold HandleRxPdu, trace_link_handle. rewrite Ht. simpl. by rewrite Hl.
Qed.

Lemma HandleRxPdu_without_link_traced pdu w :
  tracing w = true -> link_ (chan w) = None ->
  HandleRxPdu pdu w = Crash NullLinkDereferenced.
Proof. intros Ht Hl. unfold HandleRxPdu, trace_link_handle. by rewrite Ht, Hl. Qed.

Lemma HandleRxPdu_after_Deactivate pdu w :
  HandleRxPdu pdu (Deactivate w)
  = if tracing w then Crash NullLinkDereferenced else Done (Deactivate w).
Proof.
  destruct (tracing w) eqn:Ht.
  - apply HandleRxPdu_without_link_traced;
      [by rewrite Deactivate_tracing | apply Deactivate_link].
  - apply HandleRxPdu_without_link_untraced;
      [by rewrite Deactivate_tracing | apply Deactivate_link].
Qed.

(** ** Closing *)

Lemma Deactivate_without_link w : link_ (chan w) = None -> Deactivate w = w.
Proof.
  intros Hl. unfold Deactivate. rewrite Hl.
  destruct w as [c ts es tr]. destruct c. simpl in *. by subst.
Qed.

Lemma OnClosed_without_link w : link_ (chan w) = None -> OnClosed w = Done w.
Proof.
  intros Hl. unfold OnClosed. rewrite Hl.
  destruct w as [c ts es tr]. destruct c. simpl in *. by subst.
Qed.

Lemma Deactivate_idempotent w : Deactivate (Deactivate w) = Deactivate w.
Proof. apply Deactivate_without_link, Deactivate_link. Qed.

Lemma OnClosed_after_Deactivate w : OnClosed (Deactivate w) = Done (Deactivate w).
Proof. apply OnClosed_without_link, Deactivate_link. Qed.

Lemma OnClosed_link w w' : OnClosed w = Done w' -> link_ (chan w') = None.
Proof.
  unfold OnClosed. intros Hc.
  destruct (link_ (chan w)); [destruct (active_ (chan w)); [destruct (closed_cb_ (chan w))|]|];
    try discriminate; injection Hc as <-; try done.
  unfold RunOrPost. by destruct (dispatcher_ (chan w)).
Qed.

Lemma OnClosed_idempotent w w' :
  OnClosed w = Done w' -> OnClosed w' = Done w' /\ Deactivate w' = w'.
Proof.
  intros Hc. apply OnClosed_link in Hc.
  split; [by apply OnClosed_without_link | by apply Deactivate_without_link].
Qed.

(** ** What holds of every reachable world *)

Implicit Types (ts : list (Dispatcher * Task)) (es : list Effect).

Lemma no_rx_tasks_on d ts : no_rx_tasks ts -> rx_tasks_on d ts.
Proof. intros Hn. eapply Forall_impl; [exact Hn|]. intros dt Hf Ht. congruence. Qed.

Lemma no_rx_tasks_in_flight ts : no_rx_tasks ts -> in_flight_of ts = [].
Proof.
  unfold in_flight_of. induction 1 as [|[d t] ts Ht _ IH]; [done|].
  rewrite fmap_cons. simpl in *. rewrite IH. by destruct t.
Qed.

Lemma in_flight_of_app ts ts' : in_flight_of (ts ++ ts') = in_flight_of ts ++ in_flight_of ts'.
Proof. unfold in_flight_of. by rewrite fmap_app, concat_app. Qed.

Lemma delivered_of_app es es' : delivered_of (es ++ es') = delivered_of es ++ delivered_of es'.
Proof. apply omap_app. Qed.

Lemma completed_of_app es es' : completed_of (es ++ es') = completed_of es ++ completed_of es'.
Proof. apply omap_app. Qed.

Lemma closed_calls_of_app ts ts' es es' :
  closed_calls_of (ts ++ ts') (es ++ es')
  = closed_calls_of ts es + closed_calls_of ts' es'.
Proof. unfold closed_calls_of. rewrite !List.filter_app, !length_app. lia. Qed.

Lemma delivered_of_calls func sdus : delivered_of (RxCallbackCalled func <$> sdus) = sdus.
Proof. induction sdus as [|sdu sdus IH]; [done|]. rewrite fmap_cons. simpl. by rewrite IH. Qed.

Lemma completed_of_calls func sdus : completed_of (RxCallbackCalled func <$> sdus) = [].
Proof. induction sdus as [|sdu sdus IH]; [done|]. by rewrite fmap_cons. Qed.

Lemma closed_calls_of_calls func sdus :
  List.filter is_closed_call (RxCallbackCalled func <$> sdus) = [].
Proof. induction sdus as [|sdu sdus IH]; [done|]. by rewrite fmap_cons. Qed.

(** What [take_task] takes: the first task of the dispatcher. *)
Lemma take_task_Some d ts t rest :
  take_task d ts = Some (t, rest) ->
  exists l1 l2, ts = l1 ++ (d, t) :: l2 /\ rest = l1 ++ l2
                /\ Forall (fun dt => dt.1 ≠ d) l1.
Proof.
  revert rest. induction ts as [|[d' t'] ts IH]; intros rest Htake; [done|].
  simpl in Htake. case_bool_decide as Hd.
  - injection Htake as <- <-. subst d'. by exists [], ts.
  - destruct (take_task d ts) as [[t'' rest'']|]; [|done].
    injection Htake as <- <-.
    destruct (IH rest'' eq_refl) as (l1 & l2 & -> & -> & Hl1).
    exists ((d', t') :: l1), l2. split; [done|]. split; [done|].
    by apply Forall_cons.
Qed.

Ltac open_world w :=
  let c := fresh "c" in
  destruct w as [c ?ts ?es ?tr]; destruct c; simpl in *.

Lemma channel_ok_create link mode traced :
  channel_ok {| chan := create link mode; tasks := []; effects := []; tracing := traced |}.
Proof.
  unfold create. destruct (MakeEngines mode) as [rx tx].
  split; simpl; try done.
  - intros _ _. apply Forall_nil_2.
  - exists 0. apply Forall_nil_2.
  - unfold closed_calls_of. simpl. lia.
Qed.

Lemma closed_calls_of_tasks_app ts ts' es :
  closed_calls_of (ts ++ ts') es
  = closed_calls_of ts es + length (List.filter is_closed_task ts').
Proof. unfold closed_calls_of. rewrite List.filter_app, length_app. lia. Qed.

Lemma closed_calls_of_effects_app ts es es' :
  closed_calls_of ts (es ++ es')
  = closed_calls_of ts es + length (List.filter is_closed_call es').
Proof. unfold closed_calls_of. rewrite List.filter_app, length_app. lia. Qed.

Lemma in_flight_of_singleton d t : in_flight_of [(d, t)] = task_sdus t.
Proof. unfold in_flight_of. simpl. apply app_nil_r. Qed.

Lemma rx_tasks_on_app d0 ts ts' :
  rx_tasks_on d0 (ts ++ ts') <-> rx_tasks_on d0 ts /\ rx_tasks_on d0 ts'.
Proof. apply Forall_app. Qed.

Lemma no_rx_tasks_app ts ts' : no_rx_tasks (ts ++ ts') <-> no_rx_tasks ts /\ no_rx_tasks ts'.
Proof. apply Forall_app. Qed.

Lemma rx_tasks_on_singleton d0 d t :
  rx_tasks_on d0 [(d, t)] <-> (is_rx_task t = true -> d = d0).
Proof. unfold rx_tasks_on. by rewrite Forall_singleton. Qed.

Lemma no_rx_tasks_singleton d t : no_rx_tasks [(d, t)] <-> is_rx_task t = false.
Proof. unfold no_rx_tasks. by rewrite Forall_singleton. Qed.

(** A step of routine reasoning on one field of [channel_ok]. *)
Ltac solve_ok :=
  intros; simplify_eq/=;
  rewrite ?in_flight_of_app, ?in_flight_of_singleton, ?closed_calls_of_tasks_app,
    ?closed_calls_of_effects_app, ?delivered_of_app, ?completed_of_app,
    ?delivered_of_calls, ?completed_of_calls, ?closed_calls_of_calls,
    ?rx_tasks_on_app, ?no_rx_tasks_app, ?rx_tasks_on_singleton, ?no_rx_tasks_singleton;
  repeat match goal with
    | Hno : no_rx_tasks ?ts |- context [in_flight_of ?ts] =>
        rewrite (no_rx_tasks_in_flight ts Hno)
    | Hno : no_rx_tasks ?ts, Ho : context [in_flight_of ?ts] |- _ =>
        rewrite (no_rx_tasks_in_flight ts Hno) in Ho
    | Hnil : in_flight_of ?ts = [] |- context [in_flight_of ?ts] => rewrite Hnil
    end;
  simpl in *; rewrite ?app_nil_r, <- ?app_assoc in *;
  first [ done | lia | congruence
        | by auto using no_rx_tasks_on
        | by eexists; rewrite ?rx_tasks_on_app, ?rx_tasks_on_singleton;
             eauto using no_rx_tasks_on
        | by repeat split; eauto using no_rx_tasks_on
        | match goal with
          | Hord : _ = completed_of ?es |- context [completed_of ?es] =>
              rewrite <- Hord; by rewrite <- ?app_assoc
          end ].

(** Premises about the flags of the channel, once the flags are known. *)
Ltac settle_premises :=
  repeat match goal with
    | Himp : ?x = ?x -> _ |- _ => specialize (Himp eq_refl)
    | Himp : Some _ ≠ None -> _ |- _ => specialize (Himp ltac:(done))
    | Himp : true = false -> _ |- _ => clear Himp
    | Himp : false = true -> _ |- _ => clear Himp
    | Himp : None ≠ None -> _ |- _ => clear Himp
    | Himp : Some _ = None -> _ |- _ => clear Himp
    | Himp : forall d, true = true -> Some ?x = Some d -> _ |- _ =>
        specialize (Himp x eq_refl eq_refl)
    | Himp : forall d, true = true -> None = Some d -> _ |- _ => clear Himp
    | Himp : forall d, false = true -> _ |- _ => clear Himp
    | Hand : _ /\ _ |- _ => destruct Hand
    end.

Lemma channel_ok_Activate rx closed d w b w' :
  channel_ok w -> ActivateWithDispatcher rx closed d w = Done (b, w') -> channel_ok w'.
Proof.
  intros Hok Hact. unfold ActivateWithDispatcher in Hact.
  destruct (link_ (chan w)) as [link|] eqn:Hlink; [|by injection Hact as <- <-].
  destruct (active_ (chan w)) eqn:Hactive; [done|]. cbn in Hact.
  destruct Hok as [Hp Hd Hc Hi Hin Hpo Hone Hnc Hco Hord].
  assert (Hno : no_rx_tasks (tasks w)) by (apply Hi; [done | by rewrite Hlink]).
  rewrite (Hd Hactive) in Hact. cbn in Hact.
  assert (Hnc' : closed_calls_of (tasks w) (effects w) = 0) by (apply Hnc; by rewrite Hlink).
  rewrite (no_rx_tasks_in_flight _ Hno) in Hord. simpl in Hord.
  clear Hp Hd Hc Hi Hin Hpo Hnc Hco.
  case_bool_decide as Hpend; cbn in Hact; injection Hact as <- <-.
  - open_world w. subst. split; solve_ok.
  - destruct d as [d|]; open_world w; subst; split; solve_ok.
Qed.

Lemma channel_ok_Deactivate w : channel_ok w -> channel_ok (Deactivate w).
Proof.
  intros [Hp Hd Hc Hi Hin Hpo Hone Hnc Hco Hord]. unfold Deactivate.
  destruct (link_ (chan w)) as [link|] eqn:Hlink.
  - assert (Hnc' : closed_calls_of (tasks w) (effects w) = 0) by (by apply Hnc).
    destruct (active_ (chan w)) eqn:Hactive.
    + destruct Hone as [d0 Hd0]. specialize (Hp eq_refl).
      open_world w. subst. split; solve_ok.
    + open_world w. subst. split; solve_ok.
  - open_world w. subst. split; solve_ok.
Qed.

Lemma channel_ok_Send sdu w b w' : channel_ok w -> Send sdu w = Done (b, w') -> channel_ok w'.
Proof.
  intros Hok Hsend. unfold Send in Hsend.
  destruct (trace_link_handle w); [|done]. cbn in Hsend.
  destruct (link_ (chan w)) as [link|] eqn:Hlink; [|by injection Hsend as <- <-].
  destruct (active_ (chan w)) eqn:Hactive; cbn in Hsend; [|by injection Hsend as <- <-].
  destruct (tx_engine_ (chan w)) as [tx|]; [|done].
  destruct (QueueSdu tx sdu) as [tx' queued]. injection Hsend as <- <-.
  destruct Hok as [Hp Hd Hc Hi Hin Hpo Hone Hnc Hco Hord].
  open_world w. subst. split; solve_ok.
Qed.

Lemma channel_ok_SignalLinkError current w :
  channel_ok w -> channel_ok (SignalLinkError current w).
Proof.
  intros Hok. unfold SignalLinkError.
  destruct (link_ (chan w)) as [link|] eqn:Hlink; [|done].
  destruct (active_ (chan w)) eqn:Hactive; [|done].
  destruct Hok as [Hp Hd Hc Hi Hin Hpo Hone Hnc Hco Hord].
  assert (Hnc' : closed_calls_of (tasks w) (effects w) = 0) by (apply Hnc; by rewrite Hlink).
  destruct Hone as [d0 Hd0].
  open_world w. subst. split; solve_ok.
Qed.

Lemma channel_ok_UpgradeSecurity level callback d w :
  channel_ok w -> channel_ok (UpgradeSecurity level callback d w).
Proof.
  intros Hok. unfold UpgradeSecurity.
  destruct (link_ (chan w)) as [link|] eqn:Hlink; [|done].
  destruct (active_ (chan w)) eqn:Hactive; [|done].
  destruct Hok as [Hp Hd Hc Hi Hin Hpo Hone Hnc Hco Hord].
  assert (Hnc' : closed_calls_of (tasks w) (effects w) = 0) by (apply Hnc; by rewrite Hlink).
  destruct Hone as [d0 Hd0].
  open_world w. subst. split; solve_ok.
Qed.

Lemma channel_ok_OnClosed w w' : channel_ok w -> OnClosed w = Done w' -> channel_ok w'.
Proof.
  intros Hok Hclosed. unfold OnClosed in Hclosed.
  destruct Hok as [Hp Hd Hc Hi Hin Hpo Hone Hnc Hco Hord].
  destruct (link_ (chan w)) as [link|] eqn:Hlink.
  - assert (Hnc' : closed_calls_of (tasks w) (effects w) = 0) by (by apply Hnc).
    destruct (active_ (chan w)) eqn:Hactive.
    + destruct (closed_cb_ (chan w)) as [task|]; [|done]. injection Hclosed as <-.
      destruct Hone as [d0 Hd0]. specialize (Hp eq_refl).
      destruct (dispatcher_ (chan w)) as [d|] eqn:Hdisp; open_world w; subst;
        split; solve_ok.
    + injection Hclosed as <-. open_world w. subst. split; solve_ok.
  - injection Hclosed as <-. open_world w. subst. split; solve_ok.
Qed.

Lemma channel_ok_LinkDestroyed w :
  channel_ok w -> channel_ok (set_chan (set_link_ None (chan w)) w).
Proof.
  intros [Hp Hd Hc Hi Hin Hpo Hone Hnc Hco Hord].
  open_world w. subst. split; solve_ok.
Qed.

Lemma channel_ok_SetTracing on w :
  channel_ok w ->
  channel_ok {| chan := chan w; tasks := tasks w; effects := effects w; tracing := on |}.
Proof. intros [Hp Hd Hc Hi Hin Hpo Hone Hnc Hco Hord]. split; solve_ok. Qed.

Lemma channel_ok_HandleRxPdu pdu w w' :
  channel_ok w -> HandleRxPdu pdu w = Done w' -> channel_ok w'.
Proof.
  intros Hok Hrx. unfold HandleRxPdu in Hrx.
  destruct (trace_link_handle w); [|done]. cbn in Hrx.
  destruct (link_ (chan w)) as [link|] eqn:Hlink; [|by injection Hrx as <-].
  destruct (rx_engine_ (chan w)) as [rx|]; [|done].
  destruct (ProcessPdu rx pdu) as [rx' [sdu|]].
  - destruct Hok as [Hp Hd Hc Hi Hin Hpo Hone Hnc Hco Hord].
    assert (Hnc' : closed_calls_of (tasks w) (effects w) = 0) by (apply Hnc; by rewrite Hlink).
    destruct (active_ (chan w)) eqn:Hactive; cbn in Hrx.
    + destruct (rx_cb_ (chan w)) as [func|]; [|done]. injection Hrx as <-.
      specialize (Hp eq_refl).
      destruct (dispatcher_ (chan w)) as [d|] eqn:Hdisp.
      * specialize (Hpo d eq_refl eq_refl). open_world w. subst. split; solve_ok.
      * specialize (Hin eq_refl eq_refl). open_world w. subst. split; solve_ok.
    + injection Hrx as <-.
      assert (Hno : no_rx_tasks (tasks w)) by (apply Hi; [done | by rewrite Hlink]).
      open_world w. subst. split; solve_ok.
  - injection Hrx as <-. destruct Hok as [Hp Hd Hc Hi Hin Hpo Hone Hnc Hco Hord].
    open_world w. subst. split; solve_ok.
Qed.

Lemma rx_tasks_on_cons d0 d t ts :
  rx_tasks_on d0 ((d, t) :: ts) <-> (is_rx_task t = true -> d = d0) /\ rx_tasks_on d0 ts.
Proof. unfold rx_tasks_on. by rewrite Forall_cons. Qed.

Lemma no_rx_tasks_cons d t ts :
  no_rx_tasks ((d, t) :: ts) <-> is_rx_task t = false /\ no_rx_tasks ts.
Proof. unfold no_rx_tasks. by rewrite Forall_cons. Qed.

Lemma in_flight_of_cons d t ts : in_flight_of ((d, t) :: ts) = task_sdus t ++ in_flight_of ts.
Proof. done. Qed.

(** Tasks of other dispatchers carry no SDUs when all that do are on [d]. *)
Lemma rx_tasks_elsewhere d ts :
  rx_tasks_on d ts -> Forall (fun dt => dt.1 ≠ d) ts -> no_rx_tasks ts.
Proof.
  unfold rx_tasks_on, no_rx_tasks. rewrite !Forall_forall. intros Hon Hne dt Hdt.
  destruct (is_rx_task dt.2) eqn:Hrx; [|done]. destruct (Hne dt Hdt). by apply Hon.
Qed.

Lemma channel_ok_dispatch d w : channel_ok w -> channel_ok (dispatch d w).
Proof.
  intros Hok. unfold dispatch.
  destruct (take_task d (tasks w)) as [[t rest]|] eqn:Htake; [|done].
  apply take_task_Some in Htake as (l1 & l2 & Hts & -> & Hl1).
  destruct Hok as [Hp Hd Hc Hi Hin Hpo Hone Hnc Hco Hord].
  rewrite Hts in *. clear Hts.
  setoid_rewrite no_rx_tasks_app in Hi. setoid_rewrite no_rx_tasks_cons in Hi.
  setoid_rewrite no_rx_tasks_app in Hin. setoid_rewrite no_rx_tasks_cons in Hin.
  setoid_rewrite rx_tasks_on_app in Hpo. setoid_rewrite rx_tasks_on_cons in Hpo.
  setoid_rewrite rx_tasks_on_app in Hone. setoid_rewrite rx_tasks_on_cons in Hone.
  rewrite closed_calls_of_tasks_app in Hnc, Hco.
  rewrite in_flight_of_app, in_flight_of_cons in Hord.
  destruct Hone as (d0 & Hone1 & Hd0 & Hone2).
  assert (Hfirst : is_rx_task t = true -> in_flight_of l1 = []).
  { intros Hrx. apply no_rx_tasks_in_flight, (rx_tasks_elsewhere d); [|done].
    by rewrite (Hd0 Hrx). }
  destruct t; simpl in Hfirst; try specialize (Hfirst eq_refl);
    destruct w as [[mode a dsp l rx cb rxe txe pend] ts es tr]; subst; simpl in *;
    destruct a, l, dsp; settle_premises; split; try solve_ok.
  all: simpl;
    match goal with
    | Hnil : in_flight_of _ = [], Hord : _ = completed_of _ |- _ =>
        rewrite Hnil in Hord; simpl in Hord;
        rewrite delivered_of_app, completed_of_app, in_flight_of_app,
          ?delivered_of_calls, ?completed_of_calls;
        simpl; rewrite ?app_nil_r, <- Hord, Hnil; simpl; by rewrite <- ?app_assoc
    end.
Qed.

Lemma channel_ok_step w op w' : channel_ok w -> step w op = Done w' -> channel_ok w'.
Proof.
  intros Hok. destruct op; simpl.
  - destruct (ActivateWithDispatcher rx_callback closed_callback d w) as [[b w1]|f] eqn:Ha;
      simpl; [|done].
    intros [= <-]. by eapply channel_ok_Activate.
  - intros [= <-]. by apply channel_ok_Deactivate.
  - destruct (Send sdu w) as [[b w1]|f] eqn:Hs; simpl; [|done].
    intros [= <-]. by eapply channel_ok_Send.
  - intros [= <-]. by apply channel_ok_SignalLinkError.
  - intros [= <-]. by apply channel_ok_UpgradeSecurity.
  - by apply channel_ok_OnClosed.
  - by apply channel_ok_HandleRxPdu.
  - intros [= <-]. by apply channel_ok_LinkDestroyed.
  - intros [= <-]. by apply channel_ok_dispatch.
  - intros [= <-]. by apply channel_ok_SetTracing.
Qed.

Lemma Reachable_channel_ok link mode w : Reachable link mode w -> channel_ok w.
Proof.
  induction 1 as [traced|w w' op _ IH Hstep].
  - apply channel_ok_create.
  - by eapply channel_ok_step.
Qed.

(** ** Activation *)

Lemma Activate_without_link rx closed d w :
  link_ (chan w) = None -> ActivateWithDispatcher rx closed d w = Done (false, w).
Proof. intros Hl. unfold ActivateWithDispatcher. by rewrite Hl. Qed.

(** What a call that returns true has done. *)
Lemma Activate_true rx closed d w w' :
  channel_ok w -> ActivateWithDispatcher rx closed d w = Done (true, w') ->
  active_ (chan w') = true /\ pending_rx_sdus_ (chan w') = []
  /\ rx_cb_ (chan w') = Some rx /\ closed_cb_ (chan w') = Some closed
  /\ dispatcher_ (chan w') = d
  /\ completed w' = completed w
  /\ match d with
     | None =>
         tasks w' = tasks w
         /\ effects w' = effects w ++ (RxCallbackCalled rx <$> pending_rx_sdus_ (chan w))
     | Some d0 =>
         effects w' = effects w
         /\ tasks w' = tasks w ++
              (if bool_decide (pending_rx_sdus_ (chan w) = []) then []
               else [(d0, PendingDrain rx (pending_rx_sdus_ (chan w)))])
     end.
Proof.
  intros Hok Hact. unfold ActivateWithDispatcher in Hact.
  destruct (link_ (chan w)) as [link|] eqn:Hlink; [|done].
  destruct (active_ (chan w)) eqn:Hactive; [done|]. cbn in Hact.
  rewrite (ok_dispatcher w Hok Hactive) in Hact. cbn in Hact.
  unfold completed.
  case_bool_decide as Hpend; cbn in Hact; injection Hact as <-.
  - rewrite Hpend. destruct d; simpl; by rewrite ?app_nil_r.
  - destruct d; simpl; repeat split; try done.
    by rewrite completed_of_app, completed_of_calls, app_nil_r.
Qed.


Lemma Activate_false rx closed d w w' :
  ActivateWithDispatcher rx closed d w = Done (false, w') ->
  link_ (chan w) = None /\ w' = w.
Proof.
  unfold ActivateWithDispatcher.
  destruct (link_ (chan w)) as [link|]; [|by intros [= <-]].
  destruct (active_ (chan w)); [done|]. cbn.
  destruct (bool_decide (dispatcher_ (chan w) = None)); [|done]. cbn.
  by case_bool_decide.
Qed.

(** A call that nothing interrupts is the block under [mtx_] followed by
    what comes after the release. *)
Lemma ActivateWithDispatcher_cut rx closed d w :
  ActivateWithDispatcher rx closed d w
  = match ActivateLocked rx closed d w with
    | Done (b, task, w1) => Done (b, ActivateUnlocked task d w1)
    | Crash f => Crash f
    end.
Proof.
  unfold ActivateWithDispatcher, ActivateLocked, ActivateUnlocked.
  destruct (link_ (chan w)); [|done].
  destruct (active_ (chan w)); [done|]. cbn.
  destruct (bool_decide (dispatcher_ (chan w) = None)); [|done]. cbn.
  by case_bool_decide.
Qed.


(** ** Closing, from every reachable world *)

Lemma OnClosed_returns w : channel_ok w -> exists w', OnClosed w = Done w'.
Proof.
  intros Hok. unfold OnClosed.
  destruct (link_ (chan w)) as [link|] eqn:Hl; [|eauto].
  destruct (active_ (chan w)) eqn:Ha; [|eauto].
  destruct (closed_cb_ (chan w)) eqn:Hc; [eauto|].
  destruct (ok_closed_cb w Hok Ha); [by rewrite Hl | done].
Qed.

Lemma Deactivate_closed_calls w : closed_calls (Deactivate w) = closed_calls w.
Proof.
  unfold Deactivate, closed_calls.
  destruct (link_ (chan w)); [destruct (active_ (chan w))|]; simpl; try done.
  rewrite closed_calls_of_tasks_app. simpl. lia.
Qed.

(** C9.  A second [Deactivate] changes nothing; [OnClosed] after [Deactivate]
    changes nothing, so it calls nothing; [OnClosed] returns, and after it
    neither [OnClosed] nor [Deactivate] changes anything; on a channel without
    a link both change nothing.  [Deactivate] never calls the closed callback,
    and in every world the channel can come to the closed callback has been
    called, or is posted to be called, at most once. *)
Theorem closing_is_idempotent link mode w :
  Reachable link mode w ->
  Deactivate (Deactivate w) = Deactivate w
  /\ OnClosed (Deactivate w) = Done (Deactivate w)
  /\ (exists w1, OnClosed w = Done w1 /\ OnClosed w1 = Done w1 /\ Deactivate w1 = w1)
  /\ (link_ (chan w) = None -> Deactivate w = w /\ OnClosed w = Done w)
  /\ closed_calls (Deactivate w) = closed_calls w
  /\ closed_calls w <= 1.
Proof.
  intros Hreach. pose proof (Reachable_channel_ok _ _ _ Hreach) as Hok.
  split; [apply Deactivate_idempotent|].
  split; [apply OnClosed_after_Deactivate|].
  split.
  { destruct (OnClosed_returns w Hok) as [w1 Hc]. exists w1.
    split; [done|]. by apply (OnClosed_idempotent w). }
  split.
  { intros Hl. split; [by apply Deactivate_without_link | by apply OnClosed_without_link]. }
  split; [apply Deactivate_closed_calls|].
  apply (ok_closed_once w Hok).
Qed.

Lemma Reachable_run link mode ops w w' :
  Reachable link mode w -> run ops w = Done w' -> Reachable link mode w'.
Proof.
  revert w. induction ops as [|op ops IH]; intros w Hreach; simpl.
  - by intros [= <-].
  - destruct (step w op) as [w1|f] eqn:Hstep; [|done]. simpl.
    apply IH. by eapply reach_step.
Qed.

(** ** Assertions and dereferences *)

Lemma channel_safe_step w op w' : channel_safe w -> step w op = Done w' -> channel_safe w'.
Proof.
  intros Hsafe Hstep. pose proof Hsafe as [Hrx Htx Hcb]. destruct op; simpl in Hstep.
  - destruct (ActivateWithDispatcher rx_callback closed_callback d w)
      as [[b w1]|] eqn:Hact; [|done].
    cbn in Hstep. injection Hstep as <-. clear Hcb.
    unfold ActivateWithDispatcher in Hact.
    destruct (link_ (chan w)) as [link|] eqn:Hl; [|by injection Hact as <- <-].
    destruct (active_ (chan w)); [done|]. cbn in Hact.
    destruct (bool_decide (dispatcher_ (chan w) = None)); [|done]. cbn in Hact.
    case_bool_decide; cbn in Hact; injection Hact as <- <-.
    + split; simpl; rewrite ?Hl; auto.
    + destruct d; split; simpl; rewrite ?Hl; auto.
  - injection Hstep as <-. unfold Deactivate.
    destruct (link_ (chan w)) eqn:Hl; [destruct (active_ (chan w)) eqn:Ha|];
      split; simpl; try done; rewrite ?Hl; auto.
  - destruct (Send sdu w) as [[b w1]|] eqn:Hsend; [|done].
    cbn in Hstep. injection Hstep as <-.
    unfold Send in Hsend. destruct (trace_link_handle w); [|done]. cbn in Hsend.
    destruct (link_ (chan w)) eqn:Hl; [|by injection Hsend as <- <-].
    destruct (active_ (chan w)) eqn:Ha; cbn in Hsend; [|by injection Hsend as <- <-].
    destruct (tx_engine_ (chan w)) as [tx|]; [|done].
    destruct (QueueSdu tx sdu) as [tx' queued]. injection Hsend as <- <-.
    split; simpl; rewrite ?Hl, ?Ha; auto.
  - injection Hstep as <-. unfold SignalLinkError.
    destruct (link_ (chan w)) eqn:Hl; [destruct (active_ (chan w)) eqn:Ha|]; try done.
    split; simpl; rewrite ?Hl, ?Ha; auto.
  - injection Hstep as <-. unfold UpgradeSecurity.
    destruct (link_ (chan w)) eqn:Hl; [destruct (active_ (chan w)) eqn:Ha|]; try done.
    split; simpl; rewrite ?Hl, ?Ha; auto.
  - unfold OnClosed in Hstep.
    destruct (link_ (chan w)) eqn:Hl; [destruct (active_ (chan w)) eqn:Ha|].
    + destruct (closed_cb_ (chan w)); [|done]. injection Hstep as <-.
      destruct (dispatcher_ (chan w)); split; simpl; done.
    + injection Hstep as <-. split; simpl; done.
    + injection Hstep as <-. split; simpl; done.
  - unfold HandleRxPdu in Hstep. destruct (trace_link_handle w); [|done]. cbn in Hstep.
    destruct (link_ (chan w)) eqn:Hl; [|by injection Hstep as <-].
    destruct (rx_engine_ (chan w)) as [rx|]; [|done].
    destruct (ProcessPdu rx pdu) as [rx' [sdu|]].
    + destruct (active_ (chan w)) eqn:Ha; cbn in Hstep.
      * destruct (rx_cb_ (chan w)) eqn:Hr; [|done]. injection Hstep as <-.
        destruct (dispatcher_ (chan w)); split; simpl; rewrite ?Hl, ?Ha, ?Hr; auto.
      * injection Hstep as <-. split; simpl; rewrite ?Hl, ?Ha; auto.
    + injection Hstep as <-. split; simpl; rewrite ?Hl; auto.
  - injection Hstep as <-. split; simpl; done.
  - injection Hstep as <-. unfold dispatch.
    destruct (take_task d (tasks w)) as [[t rest]|]; [|done].
    destruct t; by split.
  - injection Hstep as <-. by split.
Qed.

Lemma Reachable_channel_safe link mode w : Reachable link mode w -> channel_safe w.
Proof.
  induction 1 as [traced|w w' op _ IH Hstep]; [|by eapply channel_safe_step].
  unfold create. destruct (MakeEngines mode). by split.
Qed.

(** X12.  The members a call of the channel asserts on or reads through are
    there whenever the call gets to them.  In every world a channel can come
    to: while it has its link it has both engines; an active channel with its
    link has its RX callback and its closed callback; a channel that is not
    active has no dispatcher.  So of the checks the member functions make on
    members, those on the dispatcher at activation, on the RX engine and the
    RX callback in [HandleRxPdu], on the closed callback in [OnClosed] and on
    the TX engine in [Send] never fail, and a call of the model ends
    otherwise than by returning in two cases only: [Activate] on a channel
    that is active and has its link (the assertion that it is not active),
    and [Send] or [HandleRxPdu] on a channel without a link while its trace
    category is recorded (the handle read through the emptied pointer).  A
    call of the model carries its callbacks, dispatcher and SDU as present:
    the assertions on arguments (channel.cc:116-117, 207, 226-227) are taken
    to hold and are no part of this, nor are the callbacks the constructor
    builds for the engines. *)
Theorem channel_member_checks_hold link mode w :
  Reachable link mode w ->
  (link_ (chan w) ≠ None -> rx_engine_ (chan w) ≠ None /\ tx_engine_ (chan w) ≠ None)
  /\ (active_ (chan w) = true -> link_ (chan w) ≠ None ->
      rx_cb_ (chan w) ≠ None /\ closed_cb_ (chan w) ≠ None)
  /\ (active_ (chan w) = false -> dispatcher_ (chan w) = None)
  /\ (forall op f,
        step w op = Crash f ->
        (f = AssertionFailed assert_not_active
         /\ (exists rx closed d, op = CallActivate rx closed d)
         /\ active_ (chan w) = true /\ link_ (chan w) ≠ None)
        \/ (f = NullLinkDereferenced
            /\ ((exists sdu, op = CallSend sdu) \/ (exists pdu, op = LinkHandleRxPdu pdu))
            /\ tracing w = true /\ link_ (chan w) = None)).
Proof.
  intros Hreach.
  pose proof (Reachable_channel_ok _ _ _ Hreach) as Hok.
  pose proof (Reachable_channel_safe _ _ _ Hreach) as [Hrx Htx Hcb].
  split; [by auto|]. split; [intros Ha Hl; split; [by auto | by apply (ok_closed_cb w Hok)]|].
  split; [apply (ok_dispatcher w Hok)|].
  intros op f Hstep.
  destruct op; simpl in Hstep; try done.
  - left. unfold ActivateWithDispatcher in Hstep.
    destruct (link_ (chan w)) as [l|] eqn:Hl; [|done].
    destruct (active_ (chan w)) eqn:Ha; cbn in Hstep.
    + injection Hstep as <-. split; [done|]. split; [by eexists _, _, _|]. done.
    + exfalso. rewrite (ok_dispatcher w Hok Ha) in Hstep. cbn in Hstep.
      by case_bool_decide.
  - unfold Send, trace_link_handle in Hstep.
    destruct (tracing w) eqn:Ht, (link_ (chan w)) as [l|] eqn:Hl; cbn in Hstep;
      try (destruct (active_ (chan w)); cbn in Hstep; [|done];
           destruct (tx_engine_ (chan w)) as [tx|] eqn:Htxe;
             [by destruct (QueueSdu tx sdu) | by destruct Htx]);
      try done.
    injection Hstep as <-. right. split; [done|]. split; [left; by eexists|]. done.
  - exfalso. destruct (OnClosed_returns w Hok) as [w' Hc]. by rewrite Hc in Hstep.
  - unfold HandleRxPdu, trace_link_handle in Hstep.
    destruct (tracing w) eqn:Ht, (link_ (chan w)) as [l|] eqn:Hl; cbn in Hstep;
      try (exfalso; destruct (rx_engine_ (chan w)) as [rx|] eqn:Hrxe; [|by destruct Hrx];
           destruct (ProcessPdu rx pdu) as [rx' [sdu|]]; [|done];
           destruct (active_ (chan w)) eqn:Ha; cbn in Hstep; [|done];
           destruct (rx_cb_ (chan w)) eqn:Hr; [done|]; by destruct Hcb);
      try done.
    injection Hstep as <-. right. split; [done|]. split; [right; by eexists|]. done.
Qed.

(** ** The end of a channel *)

Lemma filter_length_app {A} (f : A -> bool) (l1 l2 : list A) :
  length (List.filter f (l1 ++ l2))
  = length (List.filter f l1) + length (List.filter f l2).
Proof. by rewrite List.filter_app, length_app. Qed.

Lemma filter_remove_calls func (sdus : list SDU) :
  List.filter is_remove_call (RxCallbackCalled func <$> sdus) = [].
Proof. induction sdus as [|sdu sdus IH]; [done|]. by rewrite fmap_cons. Qed.

Ltac closing_done :=
  simpl in *;
  rewrite ?filter_length_app, ?closed_calls_of_calls, ?filter_remove_calls in *;
  simpl in *;
  split; [lia | let Hx := fresh in intros Hx; first [ congruence | lia | by auto | exfalso; by apply Hx
            | match goal with
              | Himp : _ ≠ None -> _ |- _ => specialize (Himp Hx); simpl in *; lia
              end ]].

Lemma closing_ok_step w op w' : closing_ok w -> step w op = Done w' -> closing_ok w'.
Proof.
  unfold closing_ok, closed_calls, closed_calls_of, remove_calls.
  intros [Hone Hnone] Hstep. destruct op; simpl in Hstep.
  - destruct (ActivateWithDispatcher rx_callback closed_callback d w)
      as [[b w1]|] eqn:Hact; [|done].
    cbn in Hstep. injection Hstep as <-. unfold ActivateWithDispatcher in Hact.
    destruct (link_ (chan w)) as [link|] eqn:Hl;
      [|injection Hact as <- <-; closing_done].
    destruct (active_ (chan w)); [done|]. cbn in Hact.
    destruct (bool_decide (dispatcher_ (chan w) = None)); [|done]. cbn in Hact.
    specialize (Hnone ltac:(done)).
    case_bool_decide; cbn in Hact; injection Hact as <- <-; [closing_done|].
    destruct d; closing_done.
  - injection Hstep as <-. unfold Deactivate.
    destruct (link_ (chan w)) eqn:Hl; [destruct (active_ (chan w))|];
      try specialize (Hnone ltac:(done)); closing_done.
  - destruct (Send sdu w) as [[b w1]|] eqn:Hsend; [|done].
    cbn in Hstep. injection Hstep as <-.
    unfold Send in Hsend. destruct (trace_link_handle w); [|done]. cbn in Hsend.
    destruct (link_ (chan w)) eqn:Hl; [|injection Hsend as <- <-; closing_done].
    specialize (Hnone ltac:(done)).
    destruct (active_ (chan w)) eqn:Ha; cbn in Hsend;
      [|injection Hsend as <- <-; closing_done].
    destruct (tx_engine_ (chan w)) as [tx|]; [|done].
    destruct (QueueSdu tx sdu) as [tx' queued]. injection Hsend as <- <-.
    closing_done.
  - injection Hstep as <-. unfold SignalLinkError.
    destruct (link_ (chan w)) eqn:Hl; [destruct (active_ (chan w))|];
      try specialize (Hnone ltac:(done)); closing_done.
  - injection Hstep as <-. unfold UpgradeSecurity.
    destruct (link_ (chan w)) eqn:Hl; [destruct (active_ (chan w))|];
      try specialize (Hnone ltac:(done)); closing_done.
  - unfold OnClosed in Hstep.
    destruct (link_ (chan w)) eqn:Hl; [destruct (active_ (chan w))|];
      try specialize (Hnone ltac:(done)).
    + destruct (closed_cb_ (chan w)); [|done]. injection Hstep as <-.
      destruct (dispatcher_ (chan w)); closing_done.
    + injection Hstep as <-. closing_done.
    + injection Hstep as <-. closing_done.
  - unfold HandleRxPdu in Hstep. destruct (trace_link_handle w); [|done]. cbn in Hstep.
    destruct (link_ (chan w)) eqn:Hl; [|injection Hstep as <-; closing_done].
    specialize (Hnone ltac:(done)).
    destruct (rx_engine_ (chan w)) as [rx|]; [|done].
    destruct (ProcessPdu rx pdu) as [rx' [sdu|]].
    + destruct (active_ (chan w)) eqn:Ha; cbn in Hstep.
      * destruct (rx_cb_ (chan w)) eqn:Hr; [|done]. injection Hstep as <-.
        destruct (dispatcher_ (chan w)); closing_done.
      * injection Hstep as <-. closing_done.
    + injection Hstep as <-. closing_done.
  - injection Hstep as <-. closing_done.
  - injection Hstep as <-. unfold dispatch.
    destruct (take_task d (tasks w)) as [[t rest]|] eqn:Htake; [|closing_done].
    apply take_task_Some in Htake as (l1 & l2 & Hts & -> & _).
    rewrite Hts in *. clear Hts.
    unfold is_closed_task, is_remove_task in *.
    destruct t; closing_done.
  - injection Hstep as <-. closing_done.
Qed.

Lemma Reachable_closing_ok link mode w : Reachable link mode w -> closing_ok w.
Proof.
  induction 1 as [traced|w w' op _ IH Hstep]; [|by eapply closing_ok_step].
  unfold closing_ok, closed_calls, closed_calls_of, remove_calls, create.
  destruct (MakeEngines mode). simpl. split; [lia|done].
Qed.

(** X13.  A channel ends in one of two ways, and the other side hears of it
    at most once: over every run, the calls of the closed callback and the
    requests to the link to remove the channel, made or posted, are at most
    one between them, and none while the channel has its link.  So a channel
    its owner deactivated is never told that it was closed, and a channel
    its link closed never asks the link to remove it. *)
Theorem channel_ends_once link mode w :
  Reachable link mode w ->
  closed_calls w + remove_calls w <= 1
  /\ (link_ (chan w) ≠ None -> closed_calls w = 0 /\ remove_calls w = 0)
  /\ (0 < remove_calls w -> closed_calls w = 0)
  /\ (0 < closed_calls w -> remove_calls w = 0).
Proof.
  intros Hreach. destruct (Reachable_closing_ok _ _ _ Hreach) as [Hone Hnone].
  split; [done|]. split; [|lia]. intros Hl. specialize (Hnone Hl). lia.
Qed.

(** ** Before activation *)

Lemma dispatch_delivers_nothing d w :
  no_rx_tasks (tasks w) -> delivered (dispatch d w) = delivered w.
Proof.
  intros Hno. unfold dispatch, delivered.
  destruct (take_task d (tasks w)) as [[t rest]|] eqn:Htake; [|done].
  apply take_task_Some in Htake as (l1 & l2 & Hts & -> & _).
  rewrite Hts in Hno. apply no_rx_tasks_app in Hno as [_ Hno].
  apply no_rx_tasks_cons in Hno as [Ht _].
  destruct t; try done; simpl; by rewrite delivered_of_app, app_nil_r.
Qed.

Lemma nothing_delivered_step w op w' :
  channel_ok w ->
  (active_ (chan w) = false -> link_ (chan w) ≠ None -> delivered w = []) ->
  step w op = Done w' ->
  active_ (chan w') = false -> link_ (chan w') ≠ None -> delivered w' = [].
Proof.
  intros Hok IH Hstep. destruct op; simpl in Hstep.
  - destruct (ActivateWithDispatcher rx_callback closed_callback d w)
      as [[[] w1]|] eqn:Hact; [| |done]; cbn in Hstep; injection Hstep as <-.
    + destruct (Activate_true _ _ _ _ _ Hok Hact) as (Ha & _). congruence.
    + by destruct (Activate_false _ _ _ _ _ Hact) as [_ ->].
  - injection Hstep as <-. intros _ Hl. by rewrite Deactivate_link in Hl.
  - destruct (Send sdu w) as [[b w1]|] eqn:Hsend; [|done].
    cbn in Hstep. injection Hstep as <-.
    unfold Send in Hsend. destruct (trace_link_handle w); [|done]. cbn in Hsend.
    destruct (link_ (chan w)) eqn:Hl; [|by injection Hsend as <- <-].
    destruct (active_ (chan w)) eqn:Ha; cbn in Hsend; [|injection Hsend as <- <-; by rewrite Hl, Ha].
    destruct (tx_engine_ (chan w)) as [tx|]; [|done].
    destruct (QueueSdu tx sdu) as [tx' queued]. injection Hsend as <- <-.
    simpl. congruence.
  - injection Hstep as <-. unfold SignalLinkError.
    destruct (link_ (chan w)) eqn:Hl; [destruct (active_ (chan w)) eqn:Ha|]; simpl;
      rewrite ?Hl, ?Ha; done.
  - injection Hstep as <-. unfold UpgradeSecurity.
    destruct (link_ (chan w)) eqn:Hl; [destruct (active_ (chan w)) eqn:Ha|]; simpl;
      rewrite ?Hl, ?Ha; done.
  - intros _ Hl. by rewrite (OnClosed_link _ _ Hstep) in Hl.
  - unfold HandleRxPdu in Hstep. destruct (trace_link_handle w); [|done]. cbn in Hstep.
    destruct (link_ (chan w)) eqn:Hl; [|injection Hstep as <-; by rewrite Hl].
    destruct (rx_engine_ (chan w)) as [rx|]; [|done].
    destruct (ProcessPdu rx pdu) as [rx' [sdu|]].
    + destruct (active_ (chan w)) eqn:Ha; cbn in Hstep.
      * destruct (rx_cb_ (chan w)) eqn:Hr; [|done]. injection Hstep as <-.
        destruct (dispatcher_ (chan w)); simpl; congruence.
      * injection Hstep as <-. simpl. intros _ _. unfold delivered in *. simpl.
        rewrite delivered_of_app, IH by (by rewrite ?Hl). done.
    + injection Hstep as <-. simpl. rewrite Hl. intros Ha _. by apply IH.
  - injection Hstep as <-. simpl. done.
  - injection Hstep as <-. intros Ha Hl.
    assert (chan (dispatch d w) = chan w) as Hc.
    { unfold dispatch. destruct (take_task d (tasks w)) as [[t rest]|]; [|done].
      by destruct t. }
    rewrite Hc in Ha, Hl. rewrite dispatch_delivers_nothing.
    + by apply IH.
    + by apply (ok_inactive w Hok).
  - injection Hstep as <-. done.
Qed.

(** X14.  Until the channel is activated nothing reaches a callback and
    nothing is lost: in every world of a channel that has its link and is not
    active, no SDU has been delivered, none waits in a task, and the pending
    queue holds exactly the SDUs the RX engine has completed, in the order it
    completed them. *)
Theorem sdus_buffered_until_activation link mode w :
  Reachable link mode w ->
  active_ (chan w) = false -> link_ (chan w) ≠ None ->
  delivered w = [] /\ in_flight w = [] /\ pending_rx_sdus_ (chan w) = completed w.
Proof.
  intros Hreach Ha Hl.
  assert (Hdel : delivered w = []).
  { revert Ha Hl. induction Hreach as [traced|w w' op Hreach IH Hstep].
    - done.
    - eapply nothing_delivered_step; [|exact IH|exact Hstep].
      by eapply Reachable_channel_ok. }
  pose proof (Reachable_channel_ok _ _ _ Hreach) as Hok.
  assert (Hfl : in_flight w = [])
    by (apply no_rx_tasks_in_flight, (ok_inactive w Hok); done).
  pose proof (ok_order w Hok) as Hord.
  fold (delivered w) (in_flight w) (completed w) in Hord.
  by rewrite Hdel, Hfl in Hord.
Qed.

(** ** After the link is gone *)

(** X15.  Closing is final.  On a channel without a link, every call that
    returns leaves the channel as it is, posts no task and calls nothing:
    [Activate] and [Send] return false, the others do nothing.  All that
    still happens is that dispatchers run tasks posted earlier, and that
    leaves the channel as it is too; so the link never comes back. *)
Theorem closed_channel_is_inert w op w' :
  link_ (chan w) = None ->
  step w op = Done w' ->
  chan w' = chan w
  /\ ((exists d, op = Dispatch d /\ w' = dispatch d w)
      \/ (tasks w' = tasks w /\ effects w' = effects w))
  /\ (forall rx closed d, ActivateWithDispatcher rx closed d w = Done (false, w))
  /\ (forall sdu b w1, Send sdu w = Done (b, w1) -> b = false /\ w1 = w).
Proof.
  intros Hl Hstep.
  assert (Hsame : set_chan (set_link_ None (chan w)) w = w).
  { destruct w as [c ts es tr]. destruct c. simpl in *. by subst. }
  assert (Hsend : forall sdu b w1, Send sdu w = Done (b, w1) -> b = false /\ w1 = w).
  { intros sdu b w1. unfold Send. destruct (trace_link_handle w); [|done]. cbn.
    rewrite Hl. by intros [= <- <-]. }
  split; [|split; [|split; [intros; by apply Activate_without_link | exact Hsend]]].
  - destruct op; simpl in Hstep.
    + rewrite Activate_without_link in Hstep by done. by injection Hstep as <-.
    + rewrite Deactivate_without_link in Hstep by done. by injection Hstep as <-.
    + destruct (Send sdu w) as [[b w1]|] eqn:Hs; [|done]. cbn in Hstep.
      injection Hstep as <-. by destruct (Hsend _ _ _ Hs) as [_ ->].
    + unfold SignalLinkError in Hstep. rewrite Hl in Hstep. by injection Hstep as <-.
    + unfold UpgradeSecurity in Hstep. rewrite Hl in Hstep. by injection Hstep as <-.
    + rewrite OnClosed_without_link in Hstep by done. by injection Hstep as <-.
    + unfold HandleRxPdu in Hstep. destruct (trace_link_handle w); [|done].
      cbn in Hstep. rewrite Hl in Hstep. by injection Hstep as <-.
    + rewrite Hsame in Hstep. by injection Hstep as <-.
    + injection Hstep as <-. unfold dispatch.
      destruct (take_task d (tasks w)) as [[t rest]|]; [|done]. by destruct t.
    + by injection Hstep as <-.
  - destruct op; simpl in Hstep.
    + rewrite Activate_without_link in Hstep by done. right. by injection Hstep as <-.
    + rewrite Deactivate_without_link in Hstep by done. right. by injection Hstep as <-.
    + destruct (Send sdu w) as [[b w1]|] eqn:Hs; [|done]. cbn in Hstep.
      injection Hstep as <-. right. by destruct (Hsend _ _ _ Hs) as [_ ->].
    + unfold SignalLinkError in Hstep. rewrite Hl in Hstep. right. by injection Hstep as <-.
    + unfold UpgradeSecurity in Hstep. rewrite Hl in Hstep. right. by injection Hstep as <-.
    + rewrite OnClosed_without_link in Hstep by done. right. by injection Hstep as <-.
    + unfold HandleRxPdu in Hstep. destruct (trace_link_handle w); [|done].
      cbn in Hstep. rewrite Hl in Hstep. right. by injection Hstep as <-.
    + rewrite Hsame in Hstep. right. by injection Hstep as <-.
    + injection Hstep as <-. left. by exists d.
    + right. by injection Hstep as <-.
Qed.

(** ** Where the RX callback runs *)

(** X16.  Every task that will call the RX callback sits on one dispatcher,
    the one given at activation: in every world a channel can come to, an
    active channel with a dispatcher has all such tasks on that dispatcher,
    an active channel without one has none (its callback runs inside
    [Activate] and [HandleRxPdu]), a channel not yet activated has none, and
    at no time are such tasks spread over two dispatchers. *)
Theorem rx_callback_runs_on_one_dispatcher link mode w :
  Reachable link mode w ->
  (forall d, active_ (chan w) = true -> dispatcher_ (chan w) = Some d ->
             rx_tasks_on d (tasks w))
  /\ (active_ (chan w) = true -> dispatcher_ (chan w) = None -> no_rx_tasks (tasks w))
  /\ (active_ (chan w) = false -> link_ (chan w) ≠ None -> no_rx_tasks (tasks w))
  /\ (active_ (chan w) = false -> dispatcher_ (chan w) = None)
  /\ exists d0, rx_tasks_on d0 (tasks w).
Proof.
  intros Hreach. destruct (Reachable_channel_ok _ _ _ Hreach). done.
Qed.

(** ** Sending *)

(** X17.  On a channel that has its link, in every world it can come to:
    before activation [Send] returns false and changes nothing, whether or
    not the trace category is recorded; on an active channel the TX engine is
    there and is given the SDU, what it answers is what [Send] returns, and
    of the members of the channel only the TX engine changes.  What the
    engine does with the SDU through the send callback it was built with
    (channel.cc:72-79) lies outside the model, and nothing is said of it. *)
Theorem send_hands_sdu_to_tx_engine link mode w sdu :
  Reachable link mode w ->
  link_ (chan w) ≠ None ->
  (active_ (chan w) = false -> Send sdu w = Done (false, w))
  /\ (active_ (chan w) = true ->
      exists tx w',
        tx_engine_ (chan w) = Some tx
        /\ Send sdu w = Done ((QueueSdu tx sdu).2, w')
        /\ chan w' = set_tx_engine_ (Some (QueueSdu tx sdu).1) (chan w)).
Proof.
  intros Hreach Hl.
  pose proof (Reachable_channel_safe _ _ _ Hreach) as [_ Htx _].
  specialize (Htx Hl).
  unfold Send, trace_link_handle.
  destruct (link_ (chan w)) as [l|]; [|done].
  assert (Htrace : (if tracing w then Done () else Done ()) = (Done () : Outcome unit))
    by by destruct (tracing w).
  rewrite Htrace. cbn. split; intros ->; cbn; [done|].
  destruct (tx_engine_ (chan w)) as [tx|]; [|done].
  exists tx. destruct (QueueSdu tx sdu) as [tx' queued]. by eexists.
Qed.

End ChannelProperties.

(** * The discovery manager on concrete inputs *)

Section DiscoveryExamples.
Import Gap.
Local Existing Instance core_controller.

Lemma request_discovery_coalesced_witness :
  let m := create Hci.kExtended empty_directory in
  let m1 := foldl (fun m cb => RequestDiscovery cb m) m [7; 8; 9] in
  let m2 := inquiry_callback (command_status Hci.Success) m1 in
  count_sent Hci.kInquiry (hci_ m1) = 1
  /\ pending_discovery_ m1 = [7; 8; 9]
  /\ calls_ m2 = [DiscoveryCallback 7 Hci.Success (Some 0);
                  DiscoveryCallback 8 Hci.Success (Some 1);
                  DiscoveryCallback 9 Hci.Success (Some 2)].
Proof.
  destruct (request_discovery_coalesced (create Hci.kExtended empty_directory) [7; 8; 9]
              (command_status Hci.Success) eq_refl eq_refl eq_refl
              ltac:(discriminate) (or_introl eq_refl))
    as (_ & Hcount & Hpending & _ & _ & _ & Hcalls & _).
  split; [exact Hcount|]. split; [exact Hpending | exact Hcalls].
Defined.

Lemma sessions_allocated_discovering_manager : sessions_allocated discovering_manager.
Proof. apply sessions_allocated_run. Qed.

Lemma well_formed_reuse_run : well_formed_run one_address ∅ discovering_manager reuse_run.
Proof.
  assert (forall gone m n, n < next_session_ m -> n ∉ gone ->
            forall k, k ∈ destroyed_by (DropDiscoverySession n) -> alive gone m k) as Hdrop.
  { intros gone m n Hm Hg k Hk. cbn [destroyed_by] in Hk.
    apply elem_of_singleton in Hk. by subst k. }
  split; [split|split; [split|split; [split|done]]].
  - apply Hdrop; [vm_compute; lia | set_solver].
  - intros k j Hk. vm_compute in Hk. lia.
  - intros n Hn. by apply elem_of_empty in Hn.
  - intros k j Hk Hj Hg. vm_compute in Hk. assert (j = 0) as -> by lia.
    destruct Hg. set_solver.
  - apply Hdrop; [vm_compute; lia | set_solver].
  - intros k j Hk. vm_compute in Hk. lia.
Qed.

Lemma discovery_session_retirement_witness :
  let m' := RemoveDiscoverySession 0 discovering_manager in
  (discovering_ m' = ∅ /\ zombie_discovering_ m' = {[0]} /\ hci_ m' = hci_ discovering_manager)
  /\ well_formed_run one_address ∅ discovering_manager reuse_run
  /\ object_retirements one_address 0 ∅ discovering_manager reuse_run <= 1
  /\ object_retirements one_address 1 ∅ discovering_manager reuse_run <= 1.
Proof.
  destruct (discovery_session_retirement one_address discovering_manager 0)
    as (Hmove & _ & Honce).
  split; [|split; [exact well_formed_reuse_run|]].
  - destruct Hmove as (_ & Hz & Hh & Hd).
    + vm_compute. reflexivity.
    + split; [by apply Hd|]. split; [exact Hz | exact Hh].
  - split; apply Honce, well_formed_reuse_run.
Defined.

(** The same run step by step: address 0 goes from [discovering_] to
    [zombie_discovering_] twice, once for each of the two session objects
    that lay there. *)
Lemma reused_address_retires_once_per_object :
  let m1 := step_at one_address discovering_manager (DropDiscoverySession 0) in
  let m2 := step_at one_address m1 (CallRequestDiscovery 8) in
  let m3 := step_at one_address m2 (DropDiscoverySession 1) in
  elements (discovering_ discovering_manager) = [0]
  /\ elements (zombie_discovering_ discovering_manager) = []
  /\ elements (discovering_ m1) = [] /\ elements (zombie_discovering_ m1) = [0]
  /\ calls_ m2 = calls_ m1 ++ [DiscoveryCallback 8 Hci.Success (Some 0)]
  /\ elements (discovering_ m2) = [0] /\ elements (zombie_discovering_ m2) = [0]
  /\ elements (discovering_ m3) = [] /\ elements (zombie_discovering_ m3) = [0]
  /\ object_retirements one_address 0 ∅ discovering_manager reuse_run = 1
  /\ object_retirements one_address 1 ∅ discovering_manager reuse_run = 1.
Proof. vm_compute. repeat split. Qed.

(** C3 as stated fails on an Inquiry Complete event that carries an error,
    while there is demand.  With a live session: the session is dropped and no
    Inquiry command follows.  With a queued request: the request stays queued,
    so demand remains, and no Inquiry command follows. *)
Lemma inquiry_complete_error_no_restart :
  let failed := inquiry_complete (Hci.Failure 3) in
  (has_demand discovering_manager = true
   /\ count_sent Hci.kInquiry (hci_ (inquiry_callback failed discovering_manager))
      = count_sent Hci.kInquiry (hci_ discovering_manager)
   /\ calls_ (inquiry_callback failed discovering_manager)
      = calls_ discovering_manager ++ [NotifyError 0])
  /\ (has_demand starting_manager = true
      /\ has_demand (inquiry_callback failed starting_manager) = true
      /\ count_sent Hci.kInquiry (hci_ (inquiry_callback failed starting_manager))
         = count_sent Hci.kInquiry (hci_ starting_manager)).
Proof. vm_compute. repeat split. Qed.

Lemma inquiry_complete_restart_witness :
  let m := RemoveDiscoverySession 0 (RequestDiscovery 8 discovering_manager) in
  let m' := inquiry_callback (inquiry_complete Hci.Success) m in
  zombie_discovering_ m = {[0]}
  /\ zombie_discovering_ m' = ∅
  /\ count_sent Hci.kInquiry (hci_ m') = count_sent Hci.kInquiry (hci_ m) + 1.
Proof.
  destruct (inquiry_complete_restart
              (RemoveDiscoverySession 0 (RequestDiscovery 8 discovering_manager))
              (inquiry_complete Hci.Success) eq_refl) as (Hz & _ & Hok & _).
  split; [vm_compute; reflexivity|]. split; [exact Hz|].
  destruct (Hok eq_refl) as (_ & _ & _ & Hcount). exact Hcount.
Defined.

Lemma inquiry_result_names_new_peer_witness :
  let m := create Hci.kExtended empty_directory in
  let event := inquiry_result [first_response; first_response] in
  let m1 := InquiryResult event m in
  let m2 := InquiryResult event m1 in
  FindByAddress (cache_ m) (inquiry_address first_response) = None
  /\ length (records_at (inquiry_address first_response) (cache_ m1)) = 1
  /\ count_name_requests 0xAABBCCDDEEFF (packets m1) = 1
  /\ count_name_requests 0xAABBCCDDEEFF (packets m2) = 1
  /\ length (records_at (inquiry_address first_response) (cache_ m2)) = 1.
Proof.
  assert (Hok : manager_ok (create Hci.kExtended empty_directory)).
  { apply (manager_ok_run Hci.kExtended empty_directory []).
    split; [apply NoDup_nil_2 | intros p Hp; by apply elem_of_nil in Hp]. }
  assert (Hsize : well_sized (inquiry_result [first_response; first_response])).
  { left. split; reflexivity. }
  assert (Htakes : takes_name_requests 0xAABBCCDDEEFF) by (intros l psrm clk; reflexivity).
  destruct (inquiry_result_names_new_peer (create Hci.kExtended empty_directory)
              (inquiry_result [first_response; first_response])
              (inquiry_result [first_response; first_response])
              first_response Hok Hsize ltac:(left) eq_refl)
    as (p & Hrec & _ & _ & Hcount & Hflight & Hsecond).
  destruct (Hsecond (Hflight Htakes)) as (Hcount2 & p2 & Hrec2 & _).
  split; [reflexivity|]. split; [by rewrite Hrec|]. split; [exact Hcount|].
  split; [exact (eq_trans Hcount2 Hcount) | by rewrite Hrec2].
Defined.

(** C5 as stated fails when a request is already queued: there is no
    discoverable session, and the call sends nothing. *)
Lemma request_discoverable_queued_sends_nothing :
  let m := RequestDiscoverable 7 (create Hci.kExtended empty_directory) in
  discoverable_ m = ∅
  /\ packets (RequestDiscoverable 8 m) = packets m
  /\ pending_discoverable_ (RequestDiscoverable 8 m) = [7; 8].
Proof. vm_compute. repeat split. Qed.

Lemma discoverable_passes_witness :
  let m := create Hci.kExtended empty_directory in
  let m1 := foldl (fun m cb => RequestDiscoverable cb m) m [7; 8] in
  let m2 := scan_enable_cb (scan_enable_read Hci.Success 2) m1 in
  let m3 := write_scan_enable_callback (command_status Hci.Success) m2 in
  let m4 := RemoveDiscoverableSession 1 (RemoveDiscoverableSession 0 m3) in
  let m5 := scan_enable_cb (scan_enable_read Hci.Success 3) m4 in
  packets m1 = packets m ++ [Hci.ReadScanEnable]
  /\ packets m2 = packets m1 ++ [Hci.WriteScanEnable 3]
  /\ calls_ m3 = [DiscoverableCallback 7 Hci.Success (Some 0);
                  DiscoverableCallback 8 Hci.Success (Some 1)]
  /\ packets m4 = packets m3 ++ [Hci.ReadScanEnable]
  /\ packets m5 = packets m4 ++ [Hci.WriteScanEnable 2].
Proof.
  intros m m1 m2 m3 m4 m5.
  destruct (discoverable_passes m [7; 8] 0 (scan_enable_read Hci.Success 2)
              (command_status Hci.Success)) as (Henable & _).
  destruct (Henable eq_refl eq_refl ltac:(discriminate)) as (Hread & _ & _ & Hwrite).
  destruct Hwrite as (Hpk2 & _ & _ & _ & _ & Hcalls3).
  destruct (discoverable_passes (RemoveDiscoverableSession 0 m3) [] 1
              (scan_enable_read Hci.Success 3) (command_status Hci.Success))
    as (_ & Hdisable & _).
  destruct (Hdisable ltac:(vm_compute; reflexivity) eq_refl) as (_ & Hpk4 & _ & Hpk5).
  split; [exact Hread|]. split; [exact Hpk2|]. split; [exact Hcalls3|].
  split; [exact Hpk4 | exact Hpk5].
Defined.

(** C6 on a name of 239 bytes: the name is cut to the 238 bytes that fit and
    typed Shortened Local Name, and the length field holds 240, the length of
    the whole name plus one, where the type byte and the 238 bytes written
    make 239. *)
Theorem eir_length_field_overstates :
  let name := replicate 239 65%Z in
  length (eir_of name) = 240
  /\ eir_of name !! 1 = Some (Hci.kShortenedLocalName Hci.core_spec)
  /\ drop 2 (eir_of name) = replicate 238 65%Z
  /\ eir_name_size name = 238
  /\ eir_of name !! 0 = Some 240%Z
  /\ 240%Z ≠ Z.of_nat (1 + eir_name_size name).
Proof. vm_compute. repeat split. discriminate. Qed.

Lemma discovering_manager_live : discovering_ discovering_manager ≠ ∅.
Proof.
  apply (non_empty_inhabited_L 0). vm_compute. reflexivity.
Qed.

Lemma request_discovery_while_inquiring_witness :
  hci_ (RequestDiscovery 8 discovering_manager) = hci_ discovering_manager
  /\ calls_ (RequestDiscovery 8 discovering_manager)
     = calls_ discovering_manager
       ++ [DiscoveryCallback 8 Hci.Success (Some (next_session_ discovering_manager))].
Proof.
  destruct (request_discovery_while_inquiring discovering_manager 8
              (inquiry_complete Hci.Success) eq_refl (or_introl discovering_manager_live))
    as (Hh & Hc & _).
  split; [exact Hh | exact Hc].
Defined.

Lemma discoverable_manager_sessions :
  NoDup [1; 0] /\ list_to_set [1; 0] ⊆ discoverable_ discoverable_manager.
Proof.
  split; [apply NoDup_cons; split; [set_solver | apply NoDup_singleton]|].
  assert (discoverable_ discoverable_manager = {[1]} ∪ ({[0]} ∪ ∅)) as -> by reflexivity.
  set_solver.
Qed.

Lemma discoverable_sessions_counted_witness :
  packets (foldl (fun m s => RemoveDiscoverableSession s m) discoverable_manager [1; 0])
  = packets discoverable_manager
    ++ (if bool_decide ([1; 0] ≠ [] /\ discoverable_ discoverable_manager ∖ list_to_set [1; 0] = ∅)
        then [Hci.ReadScanEnable] else [])
  /\ packets (RemoveDiscoverableSession 1 discoverable_manager)
     = packets discoverable_manager.
Proof.
  destruct (discoverable_sessions_counted discoverable_manager 9 [1; 0]
              (proj1 discoverable_manager_sessions) (proj2 discoverable_manager_sessions))
    as (_ & _ & _ & _ & Hpk).
  split; [exact Hpk | vm_compute; reflexivity].
Defined.

Lemma eir_payload_of_fitting_name_witness :
  eir_of [72; 105]%Z = [3; 9; 72; 105]%Z ++ replicate 236 0%Z
  /\ length (eir_of [72; 105]%Z) = 240.
Proof.
  destruct (eir_payload_of_fitting_name [72; 105]%Z) as (Heir & Hlen & _);
    [simpl; lia..|].
  split; [exact Heir | exact Hlen].
Defined.

Lemma scan_enable_write_changes_inquiry_bit_only_witness :
  let m := RequestDiscoverable 7 (create Hci.kExtended empty_directory) in
  exists v',
    packets (scan_enable_cb (scan_enable_read Hci.Success 2) m)
    = packets m ++ [Hci.WriteScanEnable v']
    /\ Z.land v' (Z.lnot inquiry_bit) = Z.land 2 (Z.lnot inquiry_bit)
    /\ Z.land v' inquiry_bit = inquiry_bit.
Proof.
  intros m.
  pose proof (scan_enable_write_changes_inquiry_bit_only m
                (scan_enable_read Hci.Success 2) eq_refl ltac:(by vm_compute)) as Hw.
  cbv zeta in Hw.
  assert (Bool.eqb
            (negb (bool_decide (discoverable_ m = ∅))
             || negb (bool_decide (pending_discoverable_ m = [])))
            (inquiry_scan_enabled (scan_enable (scan_enable_read Hci.Success 2))) = false)
    as Hne by reflexivity.
  rewrite Hne in Hw. destruct Hw as (v' & Hpk & _ & Hrest & Hbit & _).
  exists v'. split; [exact Hpk|]. split; [exact Hrest | exact Hbit].
Defined.

Lemma inquiry_mode_written_until_accepted_witness :
  packets (MaybeStartInquiry starting_manager)
  = packets starting_manager
    ++ [Hci.WriteInquiryMode Hci.kExtended;
        Hci.Inquiry (Hci.kGIAC K) (Hci.kInquiryLengthDefault K) 0]
  /\ current_inquiry_mode_
       (write_inquiry_mode_callback Hci.kExtended (command_status Hci.Success)
          (MaybeStartInquiry starting_manager)) = Hci.kExtended.
Proof.
  destruct (inquiry_mode_written_until_accepted starting_manager
              (command_status Hci.Success) Hci.kExtended empty_directory eq_refl)
    as (_ & _ & Hpk & _ & Hmode & _).
  split; [exact Hpk | exact Hmode].
Defined.

Lemma inquiry_failure_ends_live_sessions_witness :
  discovering_ (inquiry_callback (command_status (Hci.Failure 3)) discovering_manager) = ∅
  /\ calls_ (inquiry_callback (command_status (Hci.Failure 3)) discovering_manager)
     = calls_ discovering_manager
       ++ (NotifyError <$> elements (discovering_ discovering_manager)) ++ [].
Proof.
  destruct (inquiry_failure_ends_live_sessions discovering_manager
              (command_status (Hci.Failure 3)) eq_refl) as (Hd & _ & _ & Hc & _).
  split; [exact Hd | exact Hc].
Defined.

End DiscoveryExamples.

(** * The channel on concrete runs *)

Section ChannelExamples.
Import L2cap.
#[local] Existing Instance basic_mode.

Lemma Reachable_after_run ops traced :
  (exists w, run ops (new_channel traced) = Done w) ->
  Reachable link0 kBasic (after_run ops (new_channel traced)).
Proof.
  intros [w Hrun]. unfold after_run. rewrite Hrun.
  eapply Reachable_run; [apply reach_create | exact Hrun].
Qed.

Lemma Reachable_buffered_channel : Reachable link0 kBasic buffered_channel.
Proof. apply Reachable_after_run. eexists. reflexivity. Qed.

Lemma Reachable_closed_channel traced : Reachable link0 kBasic (closed_channel traced).
Proof. apply Reachable_after_run. destruct traced; eexists; reflexivity. Qed.



Lemma closing_is_idempotent_witness :
  Deactivate (Deactivate (closed_channel false)) = Deactivate (closed_channel false)
  /\ OnClosed (closed_channel false) = Done (closed_channel false)
  /\ closed_calls (closed_channel false) <= 1.
Proof.
  destruct (closing_is_idempotent link0 kBasic (closed_channel false)
              (Reachable_closed_channel false))
    as (Hd & _ & _ & Hno & _ & Honce).
  split; [exact Hd|]. split; [|exact Honce].
  apply Hno. reflexivity.
Defined.

(** C7 on a channel that was activated and then deactivated.  While the trace
    category of the channel is not recorded, [Send] returns false and changes
    nothing.  While it is recorded, the call reads the handle of the link
    through the emptied pointer before it tests the pointer. *)
Theorem send_after_deactivate_reads_link :
  link_ (chan (deactivated_channel true)) = None
  /\ Send [7%Z] (deactivated_channel true) = Crash NullLinkDereferenced
  /\ Send [7%Z] (deactivated_channel false) = Done (false, deactivated_channel false).
Proof. split; [reflexivity|]. split; reflexivity. Qed.

(** C10 on the same channels, deactivated by the owner or closed by the link:
    untraced, [HandleRxPdu] drops the PDU and changes nothing; traced, it
    reads the handle of the link through the emptied pointer first. *)
Theorem rx_after_deactivate_reads_link :
  link_ (chan (deactivated_channel true)) = None
  /\ HandleRxPdu [7%Z] (deactivated_channel true) = Crash NullLinkDereferenced
  /\ HandleRxPdu [7%Z] (closed_channel true) = Crash NullLinkDereferenced
  /\ HandleRxPdu [7%Z] (deactivated_channel false) = Done (deactivated_channel false)
  /\ HandleRxPdu [7%Z] (closed_channel false) = Done (closed_channel false).
Proof. repeat split. Qed.

Lemma Reachable_deactivated_channel traced :
  Reachable link0 kBasic (deactivated_channel traced).
Proof. apply Reachable_after_run. destruct traced; eexists; reflexivity. Qed.

Lemma Reachable_active_channel : Reachable link0 kBasic active_channel.
Proof. apply Reachable_after_run. eexists. reflexivity. Qed.

Lemma channel_member_checks_hold_witness :
  step (deactivated_channel true) (CallSend [7%Z]) = Crash NullLinkDereferenced
  /\ tracing (deactivated_channel true) = true
  /\ link_ (chan (deactivated_channel true)) = None
  /\ dispatcher_ (chan (deactivated_channel true)) = None.
Proof.
  assert (Hstep : step (deactivated_channel true) (CallSend [7%Z])
                  = Crash NullLinkDereferenced) by (vm_compute; reflexivity).
  split; [exact Hstep|].
  destruct (channel_member_checks_hold link0 kBasic (deactivated_channel true)
              (Reachable_deactivated_channel true)) as (_ & _ & Hd & Hfaults).
  destruct (Hfaults (CallSend [7%Z]) NullLinkDereferenced Hstep)
    as [(Hf & _)|(_ & _ & Ht & Hl)]; [discriminate Hf|].
  split; [exact Ht|]. split; [exact Hl|]. apply Hd. vm_compute. reflexivity.
Defined.

Lemma channel_ends_once_witness :
  closed_calls (closed_channel false) + remove_calls (closed_channel false) <= 1
  /\ closed_calls (deactivated_channel false) + remove_calls (deactivated_channel false) <= 1.
Proof.
  split.
  - apply (channel_ends_once link0 kBasic (closed_channel false)
             (Reachable_closed_channel false)).
  - apply (channel_ends_once link0 kBasic (deactivated_channel false)
             (Reachable_deactivated_channel false)).
Defined.

Lemma sdus_buffered_until_activation_witness :
  delivered buffered_channel = []
  /\ in_flight buffered_channel = []
  /\ pending_rx_sdus_ (chan buffered_channel) = completed buffered_channel.
Proof.
  apply (sdus_buffered_until_activation link0 kBasic buffered_channel
           Reachable_buffered_channel); [reflexivity | discriminate].
Defined.

Lemma deactivated_channel_closed :
  link_ (chan (deactivated_channel false)) = None
  /\ step (deactivated_channel false) (CallSignalLinkError 4)
     = Done (deactivated_channel false).
Proof. split; vm_compute; reflexivity. Qed.

Lemma closed_channel_is_inert_witness :
  step (deactivated_channel false) (CallSignalLinkError 4) = Done (deactivated_channel false)
  /\ ActivateWithDispatcher 8 9 None (deactivated_channel false)
     = Done (false, deactivated_channel false).
Proof.
  destruct deactivated_channel_closed as [Hl Hstep].
  destruct (closed_channel_is_inert (deactivated_channel false) (CallSignalLinkError 4)
              (deactivated_channel false) Hl Hstep) as (_ & _ & Hact & _).
  split; [exact Hstep | apply Hact].
Defined.

Lemma rx_callback_runs_on_one_dispatcher_witness :
  rx_tasks_on 3 (tasks active_channel)
  /\ tasks active_channel = [(3, RxTask 5 [1%Z])].
Proof.
  destruct (rx_callback_runs_on_one_dispatcher link0 kBasic active_channel
              Reachable_active_channel) as (Hon & _).
  split; [apply Hon; reflexivity | reflexivity].
Defined.

Lemma send_hands_sdu_to_tx_engine_witness :
  exists tx w',
    tx_engine_ (chan active_channel) = Some tx
    /\ Send [7%Z] active_channel = Done ((QueueSdu tx [7%Z]).2, w')
    /\ chan w' = set_tx_engine_ (Some (QueueSdu tx [7%Z]).1) (chan active_channel).
Proof.
  destruct (send_hands_sdu_to_tx_engine link0 kBasic active_channel [7%Z]
              Reachable_active_channel ltac:(discriminate)) as [_ Hsend].
  apply Hsend. reflexivity.
Defined.

End ChannelExamples.
